(** * go-dag: a shallow embedding of [dag.go] and [node.go]

    The Go package keeps a [map[T]*Node[T]] inside the [DAG] struct and lets
    nodes point at each other through [map[*Node[T]]struct{}] sets.  Node
    identity is pointer identity, so the embedding keeps an explicit store:
    a pointer is a location, the store maps locations to node records, and
    the adjacency sets are finite sets of locations.  Every operation of the
    package is written as a function on that state. *)

From stdpp Require Import gmap strings list fin_maps pretty relations sorting.
From Stdlib Require Import ZArith Lia.
From Stdlib Require OrderedTypeEx PrimFloat.

#[local] Set Warnings "-clear-no-such-hyp".

(** ** Data model *)

(** A [*Node[T]]. *)
Abbreviation loc := positive.

(** [type Node[T comparable] struct { data T; parents, children map[*Node[T]]struct{} }] *)
Record Node (T : Type) := mkNode {
  data : T;
  parents : gset loc;
  children : gset loc;
}.
Arguments mkNode {T} _ _ _.
Arguments data {T} _.
Arguments parents {T} _.
Arguments children {T} _.

(** [type DAG[T comparable] struct { nodes map[T]*Node[T] }], together with the
    memory the node pointers live in.  Nothing is ever freed from [heap]: a
    node that the graph dropped is simply no longer named by [nodes]. *)
Record DAG (T : Type) `{Countable T} := mkDAG {
  nodes : gmap T loc;
  heap : gmap loc (Node T);
}.
Arguments mkDAG {T _ _} _ _.
Arguments nodes {T _ _} _.
Arguments heap {T _ _} _.

(** A Go slice value as a caller sees it: the nil slice, or a slice with a
    backing array (possibly of length zero). *)
Inductive slice (A : Type) :=
  | nil_slice
  | slice_of (l : list A).
Arguments nil_slice {A}.
Arguments slice_of {A} l.

Definition elems {A} (s : slice A) : list A :=
  match s with nil_slice => [] | slice_of l => l end.

(** The built-in [append(s, x)]: the result is never nil. *)
Definition append {A} (s : slice A) (x : A) : slice A := slice_of (elems s ++ [x]).

(** [s'] is [s] after zero or more calls of [append]. *)
Definition extends {A} (s s' : slice A) : Prop :=
  s' = s ∨ ∃ l, l ≠ [] ∧ s' = slice_of (elems s ++ l).

(** [var ErrCycleDetected = fmt.Errorf(...)]; [nil_error] is Go's [nil] error. *)
Inductive error := nil_error | ErrCycleDetected.

(** The order in which a [for ... range] statement enumerates the keys of a
    pointer-keyed map.  Go leaves it unspecified, so it is a parameter of the
    development: any enumeration of the key set.  The order is a function of
    the key set alone, so maps with equal key sets are enumerated alike; every
    theorem below holds for every such function. *)
Class RangeOrder := {
  range : gset loc → list loc;
  range_perm : ∀ s, range s ≡ₚ elements s;
}.

(** ** sort.Slice, as used by [Parents] and [Children] *)

Section sorting.
Context {A : Type} (less : A → A → bool).

Fixpoint sort_insert (x : A) (l : list A) : list A :=
  match l with
  | [] => [x]
  | y :: l' => if less x y then x :: l else y :: sort_insert x l'
  end.

Definition sort_Slice (l : list A) : list A := foldr sort_insert [] l.
End sorting.

(** ** The depth-first searches

    [hasAncestor] and [HasPath] share one closure, [visit], that differs
    only in the neighbours it enumerates ([Parents()] or [Children()]);
    [Ancestors] and [Descendants] share another.  Go's recursion is not
    structural, so the closures carry a fuel argument; [None] means the
    fuel ran out and never stands for a Go result. *)

Section search.
Variable next : loc → list loc.

(** The [for _, parent := range node.Parents()] loop of [visit] in
    [hasAncestor] (and of [HasPath], over children); [rec] is the
    recursive call. *)
Fixpoint find_loop (rec : loc → gset loc → option (bool * gset loc))
    (ps : list loc) (visited : gset loc) : option (bool * gset loc) :=
  match ps with
  | [] => Some (false, visited)
  | p :: ps' =>
      if decide (p ∈ visited) then find_loop rec ps' visited
      else match rec p visited with
           | Some (true, visited') => Some (true, visited')
           | Some (false, visited') => find_loop rec ps' visited'
           | None => None
           end
  end.

Fixpoint visit_find (target : loc) (fuel : nat) (node : loc) (visited : gset loc)
    : option (bool * gset loc) :=
  match fuel with
  | O => None
  | S fuel' =>
      if decide (node = target) then Some (true, visited)
      else find_loop (visit_find target fuel') (next node) ({[node]} ∪ visited)
  end.

(** The loop of [visit] in [Ancestors] and [Descendants]: the state is the
    [visited] set and the result slice. *)
Fixpoint collect_loop (rec : loc → gset loc * slice loc → option (gset loc * slice loc))
    (ps : list loc) (st : gset loc * slice loc) : option (gset loc * slice loc) :=
  match ps with
  | [] => Some st
  | p :: ps' =>
      if decide (p ∈ st.1) then collect_loop rec ps' st
      else match rec p ({[p]} ∪ st.1, append st.2 p) with
           | Some st' => collect_loop rec ps' st'
           | None => None
           end
  end.

Fixpoint visit_collect (fuel : nat) (node : loc) (st : gset loc * slice loc)
    : option (gset loc * slice loc) :=
  match fuel with
  | O => None
  | S fuel' => collect_loop (visit_collect fuel') (next node) st
  end.

(** One step of a search: [y] is a neighbour of [x]. *)
Definition next_step (x y : loc) : Prop := y ∈ next x.

(** What a finished search says about its arguments. *)
Definition find_post (target : loc) (V : gset loc) (reached : Prop) (on_false : gset loc → Prop)
    (r : bool * gset loc) : Prop :=
  V ⊆ r.2 ∧ (target ∉ V → target ∉ r.2) ∧
  if r.1 then reached
  else on_false r.2 ∧ ∀ x y, x ∈ r.2 → x ∉ V → y ∈ next x → y ∈ r.2.
End search.

(** ** Node and DAG operations *)

Section dag.
Context {T : Type} `{Countable T}.
Context {order : RangeOrder}.
(** [fmt.Sprintf("%v", data)] *)
Variable fmt : T → string.

Implicit Types (h : gmap loc (Node T)) (d : DAG T) (n p c : loc) (v : T).

(** [NewNode] *)
Definition NewNode (v : T) : Node T := mkNode v ∅ ∅.

(** [n.parents] and [n.children] read through the pointer [n]. *)
Definition parents_at h n : gset loc := from_option parents ∅ (h !! n).
Definition children_at h n : gset loc := from_option children ∅ (h !! n).

(** The comparison handed to [sort.Slice]:
    [fmt.Sprintf("%v", a.data) < fmt.Sprintf("%v", b.data)]. *)
Definition sort_key h n : string := from_option (λ nd, fmt (data nd)) EmptyString (h !! n).
Definition less h (a b : loc) : bool := String.ltb (sort_key h a) (sort_key h b).

(** [Parents] and [Children]: collect the set in range order, then sort. *)
Definition Parents h n : list loc := sort_Slice (less h) (range (parents_at h n)).
Definition Children h n : list loc := sort_Slice (less h) (range (children_at h n)).

(** [addParent], [addChild], and the two [delete] calls on adjacency sets. *)
Definition addParent h n p : gmap loc (Node T) :=
  alter (λ nd, mkNode (data nd) ({[p]} ∪ parents nd) (children nd)) n h.
Definition addChild h n c : gmap loc (Node T) :=
  alter (λ nd, mkNode (data nd) (parents nd) ({[c]} ∪ children nd)) n h.
Definition deleteParent h n p : gmap loc (Node T) :=
  alter (λ nd, mkNode (data nd) (parents nd ∖ {[p]}) (children nd)) n h.
Definition deleteChild h n c : gmap loc (Node T) :=
  alter (λ nd, mkNode (data nd) (parents nd) (children nd ∖ {[c]})) n h.

(** [hasAncestor]: [visit(n)] with an empty [visited] map. *)
Definition hasAncestor h n (ancestor : loc) : option bool :=
  fst <$> visit_find (Parents h) ancestor (S (size h)) n ∅.

(** [NewDAG] *)
Definition NewDAG : DAG T := mkDAG ∅ ∅.

(** [AddNode]: the state after the call and the returned pointer. *)
Definition AddNode d v : DAG T * loc :=
  match nodes d !! v with
  | Some node => (d, node)
  | None =>
      let node := fresh (dom (heap d)) in
      (mkDAG (<[v := node]> (nodes d)) (<[node := NewNode v]> (heap d)), node)
  end.

(** [AddEdge] *)
Definition AddEdge d (from to : T) : option (DAG T * error) :=
  let '(d1, fromNode) := AddNode d from in
  let '(d2, toNode) := AddNode d1 to in
  cyc ← hasAncestor (heap d2) fromNode toNode;
  if (cyc : bool) then Some (d2, ErrCycleDetected)
  else
    Some (mkDAG (nodes d2) (addParent (addChild (heap d2) fromNode toNode) toNode fromNode),
          nil_error).

(** [RemoveNode]: the two [range] loops run over the sets as they are
    when each loop starts. *)
Definition RemoveNode d v : DAG T :=
  match nodes d !! v with
  | None => d
  | Some node =>
      let h1 := foldl (λ h parent, deleteChild h parent node) (heap d)
                      (range (parents_at (heap d) node)) in
      let h2 := foldl (λ h child, deleteParent h child node) h1
                      (range (children_at h1 node)) in
      mkDAG (delete v (nodes d)) h2
  end.

(** [RemoveEdge] *)
Definition RemoveEdge d (from to : T) : DAG T :=
  match nodes d !! from, nodes d !! to with
  | Some fromNode, Some toNode =>
      mkDAG (nodes d) (deleteParent (deleteChild (heap d) fromNode toNode) toNode fromNode)
  | _, _ => d
  end.

(** [Clear]: a new empty index; the old nodes stay where they are. *)
Definition Clear d : DAG T := mkDAG ∅ (heap d).

(** The method [Node] of [DAG]: [None] is the nil pointer. *)
Definition DAG_Node d v : option loc := nodes d !! v.

(** [len(m)] as a Go [int]. *)
Definition len (s : gset loc) : Z := Z.of_nat (size s).

(** [Traverse].  The first loop fills [inDegree]; every key receives a
    value that depends on the key alone, so the range order over [d.nodes]
    does not show in the result. *)
Definition inDegree_init d : gmap loc Z :=
  foldr (λ kv m, <[kv.2 := len (parents_at (heap d) kv.2)]> m) ∅ (map_to_list (nodes d)).

(** [inDegree[child]], which is [0] for a missing key. *)
Definition degree (inDegree : gmap loc Z) (child : loc) : Z := default 0%Z (inDegree !! child).

(** The second loop: [for node, degree := range inDegree]. *)
Definition seed_queue (inDegree : gmap loc Z) : list loc :=
  filter (λ node, degree inDegree node = 0%Z) (range (dom inDegree)).

(** One turn of [for _, child := range current.Children()]. *)
Definition relax (st : gmap loc Z * list loc) (child : loc) : gmap loc Z * list loc :=
  let inDegree := <[child := (degree st.1 child - 1)%Z]> st.1 in
  if decide (degree inDegree child = 0%Z) then (inDegree, st.2 ++ [child])
  else (inDegree, st.2).

(** [for len(queue) > 0 { ... }] *)
Fixpoint kahn_loop (fuel : nat) h (inDegree : gmap loc Z) (queue : list loc)
    (sorted : slice loc) : option (slice loc) :=
  match queue with
  | [] => Some sorted
  | current :: queue' =>
      match fuel with
      | O => None
      | S fuel' =>
          let sorted := append sorted current in
          let st := foldl relax (inDegree, queue') (Children h current) in
          kahn_loop fuel' h st.1 st.2 sorted
      end
  end.

Definition Traverse d : option (slice loc * error) :=
  let inDegree := inDegree_init d in
  sorted ← kahn_loop (size inDegree) (heap d) inDegree (seed_queue inDegree) nil_slice;
  Some (sorted, nil_error).

(** [HasPath] *)
Definition HasPath d (from to : T) : option bool :=
  match nodes d !! from, nodes d !! to with
  | Some fromNode, Some toNode =>
      fst <$> visit_find (Children (heap d)) toNode (S (size (heap d))) fromNode ∅
  | _, _ => Some false
  end.

(** [ShortestPath].  A queue entry is a [pathNode{node, path}]. *)
Definition discover (path : list loc) (st : list (loc * list loc) * gset loc) (child : loc)
    : list (loc * list loc) * gset loc :=
  if decide (child ∈ st.2) then st
  else (st.1 ++ [(child, path ++ [child])], {[child]} ∪ st.2).

Fixpoint bfs_loop (fuel : nat) h (toNode : loc) (queue : list (loc * list loc))
    (visited : gset loc) : option (slice loc) :=
  match queue with
  | [] => Some nil_slice
  | current :: queue' =>
      match fuel with
      | O => None
      | S fuel' =>
          if decide (current.1 = toNode) then Some (slice_of current.2)
          else
            let st := foldl (discover current.2) (queue', visited) (Children h current.1) in
            bfs_loop fuel' h toNode st.1 st.2
      end
  end.

Definition ShortestPath d (from to : T) : option (slice loc) :=
  match nodes d !! from, nodes d !! to with
  | Some fromNode, Some toNode =>
      bfs_loop (S (size (heap d))) (heap d) toNode [(fromNode, [fromNode])] {[fromNode]}
  | _, _ => Some nil_slice
  end.

(** [Ancestors] and [Descendants] *)
Definition Ancestors d v : option (slice loc) :=
  match nodes d !! v with
  | None => Some nil_slice
  | Some startNode =>
      snd <$> visit_collect (Parents (heap d)) (S (size (heap d))) startNode (∅, nil_slice)
  end.

Definition Descendants d v : option (slice loc) :=
  match nodes d !! v with
  | None => Some nil_slice
  | Some startNode =>
      snd <$> visit_collect (Children (heap d)) (S (size (heap d))) startNode (∅, nil_slice)
  end.

(** The values carried by a slice of nodes. *)
Definition values h (l : list loc) : list T := omap (λ n, data <$> h !! n) l.

(** [n.data] read through the pointer [n]. *)
Definition data_at h n : option T := data <$> h !! n.

(** ** Runs of the package *)

Inductive op :=
  | OpAddNode (v : T)
  | OpAddEdge (from to : T)
  | OpRemoveNode (v : T)
  | OpRemoveEdge (from to : T)
  | OpClear.

Definition exec d (o : op) : option (DAG T) :=
  match o with
  | OpAddNode v => Some (AddNode d v).1
  | OpAddEdge from to => fst <$> AddEdge d from to
  | OpRemoveNode v => Some (RemoveNode d v)
  | OpRemoveEdge from to => Some (RemoveEdge d from to)
  | OpClear => Some (Clear d)
  end.

(** The states a caller can bring a graph into, starting from [NewDAG]. *)
Inductive reachable : DAG T → Prop :=
  | reachable_new : reachable NewDAG
  | reachable_step d o d' : reachable d → exec d o = Some d' → reachable d'.

(** [run] plays a list of operations from left to right. *)
Fixpoint run d (os : list op) : option (DAG T) :=
  match os with
  | [] => Some d
  | o :: os' => d' ← exec d o; run d' os'
  end.

(** ** Vocabulary of the specification *)

(** A node is owned by the graph when the index names it. *)
Definition owned d n : Prop := ∃ v, nodes d !! v = Some n.

(** One parent link: [y] is a parent of [x]. *)
Definition parent_step h (x y : loc) : Prop := y ∈ parents_at h x.

(** [a] is an ancestor of [n]: one or more parent links lead from [n] to [a]. *)
Definition ancestor_of h (a n : loc) : Prop := tc (parent_step h) n a.

(** Parent and child links between owned nodes mirror each other. *)
Definition mutuality d : Prop :=
  ∀ x y, owned d x → owned d y →
    y ∈ children_at (heap d) x ↔ x ∈ parents_at (heap d) y.

(** [path_to h a l b]: [l] lists the nodes of a walk from [a] to [b] along
    child links; the walk has [length l - 1] edges. *)
Inductive path_to h (a : loc) : list loc → loc → Prop :=
  | path_start : path_to h a [a] a
  | path_snoc l b c :
      path_to h a l b → c ∈ children_at h b → path_to h a (l ++ [c]) c.

(** The queue of [ShortestPath] holds paths of one length followed by paths
    one node longer. *)
Definition lengths_ok (k : nat) (queue : list (loc * list loc)) : Prop :=
  ∃ A B, queue = A ++ B ∧
    Forall (λ e, length e.2 = k) A ∧ Forall (λ e, length e.2 = S k) B.

(** The loop invariant of [ShortestPath]; [done] is the set of nodes already
    taken from the queue. *)
Record bfs_inv h (fromNode toNode : loc) (done : gset loc)
    (queue : list (loc * list loc)) (visited : gset loc) : Prop := {
  bfs_paths : ∀ n l, (n, l) ∈ queue → path_to h fromNode l n;
  bfs_visited : ∀ x, x ∈ visited ↔ x ∈ done ∨ x ∈ queue.*1;
  bfs_closed : ∀ y c, y ∈ done → c ∈ children_at h y → c ∈ visited;
  bfs_target : toNode ∉ done;
  bfs_start : fromNode ∈ visited;
  bfs_minimal : ∀ n l l', (n, l) ∈ queue → path_to h fromNode l' n → length l ≤ length l';
  bfs_lengths : ∃ k, lengths_ok k queue;
}.

(** The invariant of the inner loop over the children of [current]. *)
Record scan_inv h (fromNode : loc) (done : gset loc) (current : loc * list loc)
    (seen : list loc) (queue : list (loc * list loc)) (visited : gset loc) : Prop := {
  scan_paths : ∀ n l, (n, l) ∈ queue → path_to h fromNode l n;
  scan_visited : ∀ x, x ∈ visited ↔ x ∈ done ∨ x = current.1 ∨ x ∈ queue.*1;
  scan_closed : ∀ y c, y ∈ done → c ∈ children_at h y → c ∈ visited;
  scan_seen : ∀ c, c ∈ seen → c ∈ visited;
  scan_start : fromNode ∈ visited;
  scan_minimal : ∀ n l l', (n, l) ∈ queue → path_to h fromNode l' n → length l ≤ length l';
  scan_lengths : lengths_ok (length current.2) queue;
}.

(** What [ShortestPath] returns for two nodes of the graph. *)
Definition shortest_result h (fromNode toNode : loc) (r : slice loc) : Prop :=
  match r with
  | nil_slice => ∀ l, ¬ path_to h fromNode l toNode
  | slice_of l =>
      path_to h fromNode l toNode ∧
      ∀ l', path_to h fromNode l' toNode → length l ≤ length l'
  end.

(** [a] comes strictly before [b] in [l]. *)
Definition before (l : list loc) (a b : loc) : Prop :=
  ∃ l1 l2 l3, l = l1 ++ a :: l2 ++ b :: l3.

(** The loop invariant of [Traverse]: [inDegree] counts, for every node, the
    parents that are not yet in [sorted]; the nodes whose count is zero are
    those in [sorted] or in the queue; and [sorted] lists every node after
    all of its parents. *)
Record kahn_inv d (inDegree : gmap loc Z) (queue sorted : list loc) : Prop := {
  kahn_nodup : NoDup (sorted ++ queue);
  kahn_owned : ∀ n, n ∈ sorted ++ queue → owned d n;
  kahn_degree : ∀ n, owned d n →
    degree inDegree n = len (parents_at (heap d) n ∖ list_to_set sorted);
  kahn_ready : ∀ n, owned d n → n ∈ sorted ++ queue ↔ degree inDegree n = 0%Z;
  kahn_order : ∀ n p, n ∈ sorted → p ∈ parents_at (heap d) n → before sorted p n;
}.

(** The shape every state of a run has. *)
Record wf d : Prop := {
  wf_index v n : nodes d !! v = Some n → data_at (heap d) n = Some v;
  wf_closed n x :
    x ∈ parents_at (heap d) n ∪ children_at (heap d) n → x ∈ dom (heap d);
  wf_owned n x :
    owned d n → x ∈ parents_at (heap d) n ∪ children_at (heap d) n → owned d x;
  wf_mutual : mutuality d;
  wf_acyclic :
    ∃ rank : loc → nat, ∀ x y,
      owned d x → owned d y → y ∈ children_at (heap d) x → rank x < rank y;
}.

End dag.

(** ** A concrete instance: [DAG[int]] with the canonical enumeration *)

#[global] Instance elements_order : RangeOrder :=
  {| range := elements; range_perm := λ s, reflexivity _ |}.

Definition fmt_int : Z → string := pretty.

Definition edges_of (es : list (Z * Z)) : list (@op Z) := (λ e, OpAddEdge e.1 e.2) <$> es.

(** The graph left by a list of operations on [NewDAG]. *)
Definition graph_of (os : list (@op Z)) : DAG Z := default NewDAG (run fmt_int NewDAG os).

(** One node and no edge. *)
Definition g_single : DAG Z := graph_of [OpAddNode 1%Z].

(** The single edge 1→2. *)
Definition g_edge : DAG Z := graph_of (edges_of [(1, 2)]%Z).

(** The graph of [Test_hasAncestor], [TestAncestors] and [TestDescendants]:
    the nodes 1 to 5, then 1→2→3 and 1→4→5. *)
Definition g_tree : DAG Z :=
  graph_of ((OpAddNode <$> [1; 2; 3; 4; 5]%Z)
            ++ edges_of [(1, 2); (2, 3); (1, 4); (4, 5)]%Z).

(** The graph of [TestShortestPath]: the nodes 1 to 7, then the edges. *)
Definition g_paths : DAG Z :=
  graph_of ((OpAddNode <$> [1; 2; 3; 4; 5; 6; 7]%Z)
            ++ edges_of [(1, 2); (2, 3); (1, 4); (4, 3); (2, 5); (6, 7)]%Z).


(** ** The remaining queries and walks *)

(** The order in which a [for ... range] statement enumerates the index
    [d.nodes]; like [RangeOrder], any enumeration of the map. *)
Class IndexOrder (T : Type) `{Countable T} := {
  index_range : gmap T loc → list (T * loc);
  index_range_perm : ∀ m, index_range m ≡ₚ map_to_list m;
}.
Arguments index_range {T _ _ _} m.

(** The walks, over an arbitrary neighbour function: [Walk] and
    [BreadthFirstWalk] enumerate [Children()], their reverse twins
    [Parents()].  The state is the [visited] map and the nodes handed to the
    [visit] callback so far. *)

Section walks.
Variable next : loc → list loc.

(** [for _, child := range node.Children() { walk(child) }] *)
Fixpoint walk_loop (rec : loc → gset loc * list loc → option (gset loc * list loc))
    (cs : list loc) (st : gset loc * list loc) : option (gset loc * list loc) :=
  match cs with
  | [] => Some st
  | c :: cs' =>
      match rec c st with
      | Some st' => walk_loop rec cs' st'
      | None => None
      end
  end.

(** The closure [walk] of [Walk] and [ReverseWalk]. *)
Fixpoint walk_visit (fuel : nat) (node : loc) (st : gset loc * list loc)
    : option (gset loc * list loc) :=
  match fuel with
  | O => None
  | S fuel' =>
      if decide (node ∈ st.1) then Some st
      else walk_loop (walk_visit fuel') (next node) ({[node]} ∪ st.1, st.2 ++ [node])
  end.

(** One turn of the inner loop of [BreadthFirstWalk]. *)
Definition enqueue_unseen (st : list loc * gset loc) (child : loc) : list loc * gset loc :=
  if decide (child ∈ st.2) then st else (st.1 ++ [child], {[child]} ∪ st.2).

(** [for len(queue) > 0 { ... }] of [BreadthFirstWalk]. *)
Fixpoint bfs_walk_loop (fuel : nat) (queue : list loc) (visited : gset loc)
    (trace : list loc) : option (list loc) :=
  match queue with
  | [] => Some trace
  | current :: queue' =>
      match fuel with
      | O => None
      | S fuel' =>
          let st := foldl enqueue_unseen (queue', visited) (next current) in
          bfs_walk_loop fuel' st.1 st.2 (trace ++ [current])
      end
  end.
End walks.

(** What a finished collecting search says: [r] extends the state
    [(V, acc)] by the list of newly visited nodes, each of them satisfying
    [reach]; the nodes of [front] are visited, and the new nodes have all
    their neighbours visited. *)
Definition collect_post (next : loc → list loc) (V : gset loc) (acc : slice loc)
    (reach : loc → Prop) (front : list loc) (r : gset loc * slice loc) : Prop :=
  V ⊆ r.1 ∧ (∀ p, p ∈ front → p ∈ r.1) ∧
  (∀ x y, x ∈ r.1 → x ∉ V → y ∈ next x → y ∈ r.1) ∧
  ∃ l, elems r.2 = elems acc ++ l ∧ NoDup l ∧
       (∀ x, x ∈ l ↔ x ∈ r.1 ∧ x ∉ V) ∧ (∀ x, x ∈ l → reach x).

(** The loop invariant of [BreadthFirstWalk]: [visited] holds the nodes
    handed to [visit] and the queued ones, all reachable from [start]. *)
Record walk_inv (next : loc → list loc) (start : loc) (queue : list loc)
    (visited : gset loc) (trace : list loc) : Prop := {
  walk_nodup : NoDup (trace ++ queue);
  walk_visited : ∀ x, x ∈ visited ↔ x ∈ trace ++ queue;
  walk_reach : ∀ x, x ∈ visited → rtc (next_step next) start x;
  walk_closed : ∀ x y, x ∈ trace → y ∈ next x → y ∈ visited;
  walk_first : head (trace ++ queue) = Some start;
}.

Section queries.
Context {T : Type} `{Countable T}.
Context {order : RangeOrder} {index_order : IndexOrder T}.
(** [fmt.Sprintf("%v", data)] *)
Variable fmt : T → string.

Implicit Types (h : gmap loc (Node T)) (d : DAG T) (n p c : loc) (v : T).

(** The method [Data] of [Node], through the pointer. *)
Definition Data h n : option T := data <$> h !! n.

(** [Nodes] *)
Definition Nodes d : slice loc :=
  foldl (λ s kv, append s kv.2) (slice_of []) (index_range (nodes d)).

(** [Edges]: a pair is a [[2]*Node[T]{node, child}]. *)
Definition Edges d : slice (loc * loc) :=
  foldl (λ s kv, foldl (λ s child, append s (kv.2, child)) s (Children fmt (heap d) kv.2))
        nil_slice (index_range (nodes d)).

(** [Roots] and [Leaves] *)
Definition Roots d : slice loc :=
  foldl (λ s kv, if decide (len (parents_at (heap d) kv.2) = 0%Z) then append s kv.2 else s)
        nil_slice (index_range (nodes d)).

Definition Leaves d : slice loc :=
  foldl (λ s kv, if decide (len (children_at (heap d) kv.2) = 0%Z) then append s kv.2 else s)
        nil_slice (index_range (nodes d)).

(** [Search]: the predicate is a function of the node pointer. *)
Fixpoint search_loop (predicate : loc → bool) (l : list (T * loc)) : option loc :=
  match l with
  | [] => None
  | kv :: l' => if predicate kv.2 then Some kv.2 else search_loop predicate l'
  end.

Definition Search d (predicate : loc → bool) : option loc :=
  search_loop predicate (index_range (nodes d)).

(** [HasEdge] *)
Fixpoint has_child (toNode : loc) (cs : list loc) : bool :=
  match cs with
  | [] => false
  | child :: cs' => if decide (child = toNode) then true else has_child toNode cs'
  end.

Definition HasEdge d (from to : T) : bool :=
  match nodes d !! from, nodes d !! to with
  | Some fromNode, Some toNode => has_child toNode (Children fmt (heap d) fromNode)
  | _, _ => false
  end.

(** [Walk] and [ReverseWalk]: the result is the sequence of values the
    [visit] callback is called with. *)
Definition Walk d (start : T) : option (list T) :=
  match nodes d !! start with
  | None => Some []
  | Some startNode =>
      (λ st, values (heap d) st.2)
        <$> walk_visit (Children fmt (heap d)) (S (size (heap d))) startNode (∅, [])
  end.

Definition ReverseWalk d (start : T) : option (list T) :=
  match nodes d !! start with
  | None => Some []
  | Some startNode =>
      (λ st, values (heap d) st.2)
        <$> walk_visit (Parents fmt (heap d)) (S (size (heap d))) startNode (∅, [])
  end.

(** [BreadthFirstWalk] and [ReverseBreadthFirstWalk] *)
Definition BreadthFirstWalk d (start : T) : option (list T) :=
  match nodes d !! start with
  | None => Some []
  | Some startNode =>
      values (heap d)
        <$> bfs_walk_loop (Children fmt (heap d)) (S (size (heap d)))
              [startNode] {[startNode]} []
  end.

Definition ReverseBreadthFirstWalk d (start : T) : option (list T) :=
  match nodes d !! start with
  | None => Some []
  | Some startNode =>
      values (heap d)
        <$> bfs_walk_loop (Parents fmt (heap d)) (S (size (heap d)))
              [startNode] {[startNode]} []
  end.

(** [LevelOrder].  The inner loops are those of [Traverse], so [relax] is
    reused; a level is a non-nil slice, the result starts as nil. *)
Definition level_step h (st : gmap loc Z * list loc) (node : loc) : gmap loc Z * list loc :=
  foldl relax st (Children fmt h node).

Fixpoint level_loop (fuel : nat) h (inDegree : gmap loc Z) (currentLevel : list loc)
    (levels : slice (list loc)) : option (slice (list loc)) :=
  match currentLevel with
  | [] => Some levels
  | _ :: _ =>
      match fuel with
      | O => None
      | S fuel' =>
          let levels := append levels currentLevel in
          let st := foldl (level_step h) (inDegree, []) currentLevel in
          level_loop fuel' h st.1 st.2 levels
      end
  end.

Definition LevelOrder d : option (slice (list loc)) :=
  let inDegree := inDegree_init d in
  level_loop (size inDegree) (heap d) inDegree (seed_queue inDegree) nil_slice.

(** [Visualize].  [sort_key h n] is [fmt.Sprintf("%v", n.Data())]. *)
Definition newline : string := String (Ascii.ascii_of_nat 10) EmptyString.
Definition quote : string := String (Ascii.ascii_of_nat 34) EmptyString.

Definition dot_line h (node child : loc) : string :=
  ("    " +:+ quote +:+ sort_key fmt h node +:+ quote +:+ " -> "
   +:+ quote +:+ sort_key fmt h child +:+ quote +:+ ";" +:+ newline)%string.

Definition Visualize d : string :=
  (foldl (λ result kv,
            foldl (λ result child, result +:+ dot_line (heap d) kv.2 child)
                  result (Children fmt (heap d) kv.2))
         ("digraph G {" +:+ newline) (index_range (nodes d))
   +:+ "}" +:+ newline)%string.

(** ** Vocabulary for the remaining properties *)

(** One child link: [y] is a child of [x]. *)
Definition child_step h (x y : loc) : Prop := y ∈ children_at h x.

(** [x] is a descendant of [n]: one or more child links lead from [n] to [x]. *)
Definition descendant_of h (x n : loc) : Prop := tc (child_step h) n x.

(** The sort order of [Parents] and [Children], as a relation. *)
Definition key_lt h (a b : loc) : Prop := less fmt h a b = true.
End queries.

(** The concrete instance: the canonical enumeration of the index. *)
#[global] Instance map_to_list_order {T : Type} `{Countable T} : IndexOrder T :=
  {| index_range := map_to_list; index_range_perm := λ m, reflexivity _ |}.

(** ** Vocabulary for [LevelOrder] *)

Section levels.
Context {T : Type} `{Countable T}.

(** What the levels say about the edges: no level is empty, the parents of a
    node all lie in earlier levels, and a node beyond the first level has a
    parent in the level just before its own. *)
Definition levels_ok (h : gmap loc (Node T)) (levels : list (list loc)) : Prop :=
  (∀ L, L ∈ levels → L ≠ []) ∧
  (∀ i L n p, levels !! i = Some L → n ∈ L → p ∈ parents_at h n →
     ∃ j L', j < i ∧ levels !! j = Some L' ∧ p ∈ L') ∧
  (∀ i L n, levels !! S i = Some L → n ∈ L →
     ∃ L' p, levels !! i = Some L' ∧ p ∈ L' ∧ p ∈ parents_at h n).

(** The loop invariant of [LevelOrder]: the invariant of [Traverse] for the
    concatenated levels, and every node of the coming level has a parent in
    the level that was stored last. *)
Definition level_inv (d : DAG T) (inDegree : gmap loc Z) (currentLevel : list loc)
    (levels : list (list loc)) : Prop :=
  kahn_inv d inDegree currentLevel (concat levels) ∧
  levels_ok (heap d) levels ∧
  ∀ n L, n ∈ currentLevel → last levels = Some L →
    ∃ p, p ∈ L ∧ p ∈ parents_at (heap d) n.
End levels.

(** ** More concrete graphs *)

(** The chain 1→2, 2→3: [g_edge] after one more [AddEdge]. *)
Definition g_chain : DAG Z := graph_of (edges_of [(1, 2); (2, 3)]%Z).

(** A second enumeration of a pointer-keyed map: the canonical one, backwards. *)
Definition reverse_order : RangeOrder :=
  {| range := λ s, reverse (elements s);
     range_perm := λ s, reverse_Permutation (elements s) |}.

(** A second enumeration of the index: the canonical one, backwards. *)
Definition reverse_index_order : IndexOrder Z :=
  {| index_range := λ m, reverse (map_to_list m);
     index_range_perm := λ m, reverse_Permutation (map_to_list m) |}.

(** A predicate for [Search]: the node at pointer 3. *)
Definition is_node_3 (n : loc) : bool := bool_decide (n = 3%positive).

(** ** The index under Go's [==]

    [DAG[T comparable]] takes every comparable type, and the built-in map
    finds a key with the type's [==].  Where [==] is reflexive, a map holds
    at most one entry for a value and the index is the finite map [nodes]
    above; this is the model of every other section.  For a floating-point
    key [==] is not reflexive: [NaN == NaN] is false, so [m[NaN]] finds
    nothing and [m[NaN] = x] adds an entry every time.  The index of an
    arbitrary comparable type is therefore kept as the list of its entries. *)

(** The [==] of a comparable type. *)
Class Comparable (K : Type) := go_eq : K → K → bool.

(** A type whose [==] is equality: integers, strings, pointers. *)
#[global] Instance eq_comparable {T : Type} `{EqDecision T} : Comparable T :=
  λ x y, bool_decide (x = y).

(** [float64]: [==] is the IEEE 754 comparison. *)
Definition float64 : Type := PrimFloat.float.
#[global] Instance float64_comparable : Comparable float64 := PrimFloat.eqb.

(** [math.NaN()] *)
Definition NaN : float64 := PrimFloat.nan.

Module keyed.
Section keyed.
Context {K : Type} `{Comparable K}.

(** [map[K]*Node[K]], as its entries. *)
Definition index : Type := list (K * loc).

(** [node, exists := m[data]]: the entry whose key is [==] to [data]. *)
Definition lookup (m : index) (data : K) : option loc :=
  snd <$> List.find (λ e, go_eq e.1 data) m.

(** [m[data] = node]: the entry with a key [==] to [data] is overwritten;
    without one, an entry is added. *)
Fixpoint assign (m : index) (data : K) (node : loc) : index :=
  match m with
  | [] => [(data, node)]
  | e :: m' => if go_eq e.1 data then (data, node) :: m' else e :: assign m' data node
  end.

(** [type DAG[T comparable] struct { nodes map[T]*Node[T] }] and the memory
    of the node pointers. *)
Record DAG := mkDAG {
  nodes : index;
  heap : gmap loc (Node K);
}.

(** [NewDAG] *)
Definition NewDAG : DAG := mkDAG [] ∅.

(** [AddNode] *)
Definition AddNode (d : DAG) (data : K) : DAG * loc :=
  match lookup (nodes d) data with
  | Some node => (d, node)
  | None =>
      let node := fresh (dom (heap d)) in
      (mkDAG (assign (nodes d) data node) (<[node := NewNode data]> (heap d)), node)
  end.
End keyed.
Arguments DAG K : clear implicits.
Arguments index K : clear implicits.
End keyed.

(** The finite-map state that a keyed state stands for when [==] is
    equality: the first entry of a key is the one a lookup finds. *)
Definition forget {T : Type} `{Countable T} (g : keyed.DAG T) : DAG T :=
  mkDAG (list_to_map (keyed.nodes g)) (keyed.heap g).

(** * Proofs *)

(** ** Slices *)

Lemma elems_append {A} (s : slice A) (x : A) : elems (append s x) = elems s ++ [x].
Proof. reflexivity. Qed.

Lemma extends_refl {A} (s : slice A) : extends s s.
Proof. by left. Qed.

Lemma extends_append {A} (s : slice A) (x : A) : extends s (append s x).
Proof. right. exists [x]. by split. Qed.

Lemma extends_trans {A} (s1 s2 s3 : slice A) : extends s1 s2 → extends s2 s3 → extends s1 s3.
Proof.
  intros [->|(l1 & Hl1 & ->)] [->|(l2 & Hl2 & ->)]; simpl.
  - by left.
  - right. by exists l2.
  - right. by exists l1.
  - right. exists (l1 ++ l2). split; [by destruct l1|]. by rewrite app_assoc.
Qed.

Lemma extends_nonempty {A} (s s' : slice A) (x : A) :
  extends (append s x) s' → ∃ l, l ≠ [] ∧ s' = slice_of l.
Proof.
  intros [->|(l & Hl & ->)]; simpl.
  - exists (elems s ++ [x]). split; [by destruct (elems s)|done].
  - eexists. split; [|done]. by destruct (elems s).
Qed.

(** ** sort.Slice returns a rearrangement of its argument *)

Section sorting_facts.
Context {A : Type} (less : A → A → bool).

Lemma sort_insert_perm (x : A) (l : list A) : sort_insert less x l ≡ₚ x :: l.
Proof.
  induction l as [|y l IH]; simpl; [done|].
  destruct (less x y); [done|].
  rewrite IH. apply Permutation_swap.
Qed.

Lemma sort_Slice_perm (l : list A) : sort_Slice less l ≡ₚ l.
Proof.
  induction l as [|x l IH]; simpl; [done|].
  rewrite sort_insert_perm. by rewrite IH.
Qed.
End sorting_facts.

(** ** Counting the nodes a search has not visited yet *)

Lemma size_unvisited_mono (U V V' : gset loc) : V ⊆ V' → size (U ∖ V') ≤ size (U ∖ V).
Proof. intros HV. apply subseteq_size. set_solver. Qed.

Lemma size_unvisited_mark (U V : gset loc) (x : loc) :
  x ∈ U → x ∉ V → size (U ∖ ({[x]} ∪ V)) < size (U ∖ V).
Proof.
  intros HxU HxV. apply subset_size.
  apply strict_spec_alt. split; [set_solver|].
  intros Heq. assert (x ∈ U ∖ V) as Hx by set_solver.
  rewrite <- Heq in Hx. set_solver.
Qed.

(** ** The searches, over an arbitrary neighbour function *)

Section search_facts.
Variable next : loc → list loc.
Variable target : loc.

(** The nodes in [U] are all the search can ever meet. *)
Variable U : gset loc.
Hypothesis U_closed : ∀ x y, x ∈ U → y ∈ next x → y ∈ U.

Lemma find_loop_total rec (f : nat) :
  (∀ p V, p ∈ U → p ∉ V → size (U ∖ V) < f →
     ∃ b V', rec p V = Some (b, V') ∧ V ⊆ V') →
  ∀ ps V, (∀ p, p ∈ ps → p ∈ U) → size (U ∖ V) < f →
    ∃ b V', find_loop rec ps V = Some (b, V') ∧ V ⊆ V'.
Proof.
  intros Hrec ps. induction ps as [|p ps IH]; intros V Hps Hsz; simpl.
  - by exists false, V.
  - destruct (decide (p ∈ V)) as [Hin|Hnin].
    + apply IH; [|done]. intros q Hq. apply Hps. by right.
    + destruct (Hrec p V) as (b & V1 & -> & HV1); [apply Hps; by left|done|done|].
      destruct b; [by exists true, V1|].
      destruct (IH V1) as (b & V2 & -> & HV2).
      * intros q Hq. apply Hps. by right.
      * pose proof (size_unvisited_mono U V V1 HV1). lia.
      * exists b, V2. split; [done|]. set_solver.
Qed.

Lemma visit_find_total (f : nat) : ∀ node V,
  node ∈ U → node ∉ V → size (U ∖ V) < f →
  ∃ b V', visit_find next target f node V = Some (b, V') ∧ V ⊆ V'.
Proof.
  induction f as [|f IH]; intros node V HU HV Hsz; [lia|]. simpl.
  destruct (decide (node = target)); [by exists true, V|].
  destruct (find_loop_total (visit_find next target f) f IH (next node) ({[node]} ∪ V))
    as (b & V' & -> & HV').
  - intros p Hp. by apply (U_closed node).
  - pose proof (size_unvisited_mark U V node HU HV). lia.
  - exists b, V'. split; [done|]. set_solver.
Qed.

Lemma find_loop_post rec :
  (∀ p V r, rec p V = Some r → find_post next target V (rtc (next_step next) p target) (λ V', p ∈ V') r) →
  ∀ ps V r, find_loop rec ps V = Some r →
    find_post next target V (∃ p, p ∈ ps ∧ rtc (next_step next) p target) (λ V', ∀ p, p ∈ ps → p ∈ V') r.
Proof.
  intros Hrec ps. induction ps as [|p ps IH]; intros V r; simpl.
  - intros [= <-]. unfold find_post; simpl. set_solver.
  - destruct (decide (p ∈ V)) as [Hin|Hnin].
    + intros Hr. destruct (IH _ _ Hr) as (H1 & H2 & H3).
      split; [done|]. split; [done|]. destruct r as [[] V']; simpl in *.
      * destruct H3 as (q & Hq & Hrtc). exists q. split; [by right|done].
      * destruct H3 as [H3 H4]. split; [|done].
        intros q [->|Hq]%elem_of_cons; [set_solver|by apply H3].
    + destruct (rec p V) as [[b V1]|] eqn:Hp; [|done].
      destruct (Hrec _ _ _ Hp) as (H1 & H2 & H3); simpl in *.
      destruct b.
      * intros [= <-]. split; [done|]. split; [done|]. simpl.
        exists p. split; [by left|done].
      * intros Hr. destruct (IH _ _ Hr) as (H1' & H2' & H3').
        split; [set_solver|]. split; [by auto|].
        destruct H3 as [H3 H4]. destruct r as [[] V']; simpl in *.
        -- destruct H3' as (q & Hq & Hrtc). exists q. split; [by right|done].
        -- destruct H3' as [H3' H4']. split.
           ++ intros q [->|Hq]%elem_of_cons; [set_solver|by apply H3'].
           ++ intros x y Hx HxV Hy.
              destruct (decide (x ∈ V1)) as [Hx1|Hx1]; [|by eapply H4'].
              apply H1'. by eapply H4.
Qed.

Lemma visit_find_post (f : nat) : ∀ node V r,
  visit_find next target f node V = Some r →
  find_post next target V (rtc (next_step next) node target) (λ V', node ∈ V') r.
Proof.
  induction f as [|f IH]; intros node V r; simpl; [done|].
  destruct (decide (node = target)) as [->|Hne].
  - intros [= <-]. unfold find_post; simpl. set_solver.
  - intros Hr. destruct (find_loop_post _ IH _ _ _ Hr) as (H1 & H2 & H3).
    split; [set_solver|]. split; [set_solver|].
    destruct r as [[] V']; simpl in *.
    + destruct H3 as (p & Hp & Hrtc). by eapply rtc_l.
    + destruct H3 as [H3 H4]. split; [set_solver|].
      intros x y Hx HxV Hy.
      destruct (decide (x = node)) as [->|Hxn]; [by apply H3|].
      eapply H4; [done| |done]. set_solver.
Qed.

(** The search from an empty [visited] set decides reachability. *)
Lemma visit_find_correct (node : loc) :
  node ∈ U →
  ∃ b V, visit_find next target (S (size U)) node ∅ = Some (b, V) ∧
         (b = true ↔ rtc (next_step next) node target).
Proof.
  intros HU.
  destruct (visit_find_total (S (size U)) node ∅) as (b & V & Hr & _); [done|set_solver| |].
  { assert (U ∖ ∅ = U) as -> by set_solver. lia. }
  exists b, V. split; [done|].
  destruct (visit_find_post _ _ _ _ Hr) as (_ & H2 & H3); simpl in *.
  destruct b; [done|]. destruct H3 as [H3 H4]. split; [done|].
  intros Hrtc. exfalso. apply H2; [set_solver|].
  clear Hr H2. induction Hrtc as [x|x y z Hxy _ IHr]; [done|].
  apply IHr; [by eapply (U_closed x)|]. eapply H4; [done|set_solver|done].
Qed.

(** The collecting search always finishes, and only ever appends. *)
Lemma collect_loop_total rec (f : nat) :
  (∀ p st, p ∈ U → size (U ∖ st.1) < f →
     ∃ st', rec p st = Some st' ∧ st.1 ⊆ st'.1 ∧ extends st.2 st'.2) →
  ∀ ps st, (∀ p, p ∈ ps → p ∈ U) → size (U ∖ st.1) < S f →
    ∃ st', collect_loop rec ps st = Some st' ∧ st.1 ⊆ st'.1 ∧ extends st.2 st'.2.
Proof.
  intros Hrec ps. induction ps as [|p ps IH]; intros st Hps Hsz; simpl.
  - exists st. split_and!; [done..|apply extends_refl].
  - destruct (decide (p ∈ st.1)) as [Hin|Hnin].
    + apply IH; [|done]. intros q Hq. apply Hps. by right.
    + assert (p ∈ U) as HpU by (apply Hps; by left).
      destruct (Hrec p ({[p]} ∪ st.1, append st.2 p)) as (st1 & -> & HV1 & He1).
      { done. }
      { pose proof (size_unvisited_mark U st.1 p HpU Hnin). simpl. lia. }
      destruct (IH st1) as (st' & -> & HV' & He').
      { intros q Hq. apply Hps. by right. }
      { assert (st.1 ⊆ st1.1) as Hsub by (simpl in HV1; set_solver).
        pose proof (size_unvisited_mono U st.1 st1.1 Hsub). lia. }
      exists st'. split_and!; [done|simpl in HV1; set_solver|].
      eapply extends_trans; [apply extends_append|].
      eapply extends_trans; [exact He1|exact He'].
Qed.

Lemma visit_collect_total (f : nat) : ∀ node st,
  node ∈ U → size (U ∖ st.1) < f →
  ∃ st', visit_collect next f node st = Some st' ∧ st.1 ⊆ st'.1 ∧ extends st.2 st'.2.
Proof.
  induction f as [|f IH]; intros node st HU Hsz; [lia|]. simpl.
  apply (collect_loop_total _ f); [|by intros p Hp; apply (U_closed node)|lia].
  intros p st1 Hp Hsz1. by apply IH.
Qed.

(** Started with nothing visited and a nil result, the collecting search
    returns nil exactly when the start node has no neighbour. *)
Lemma visit_collect_start (node : loc) :
  node ∈ U →
  (next node = [] →
     visit_collect next (S (size U)) node (∅, nil_slice) = Some (∅, nil_slice)) ∧
  (next node ≠ [] →
     ∃ V l, l ≠ [] ∧
       visit_collect next (S (size U)) node (∅, nil_slice) = Some (V, slice_of l)).
Proof.
  intros HU. simpl. split.
  - by intros ->.
  - destruct (next node) as [|p ps] eqn:Hnext; [done|]. intros _. simpl.
    assert (∀ q, q ∈ p :: ps → q ∈ U) as Hps.
    { intros q Hq. apply (U_closed node); [done|]. by rewrite Hnext. }
    rewrite decide_False by set_solver.
    assert (size (U ∖ ({[p]} ∪ ∅)) < size U) as Hsz.
    { pose proof (size_unvisited_mark U ∅ p) as Hm.
      assert (U ∖ ∅ = U) as HU0 by set_solver. rewrite HU0 in Hm.
      apply Hm; [apply Hps; by left|set_solver]. }
    destruct (visit_collect_total (size U) p ({[p]} ∪ ∅, append nil_slice p))
      as (st1 & -> & HV1 & He1); [apply Hps; by left|done|].
    destruct (collect_loop_total (visit_collect next (size U)) (size U)) with (ps := ps) (st := st1)
      as (st' & -> & HV' & He').
    { intros q st Hq Hst. by apply visit_collect_total. }
    { intros q Hq. apply Hps. by right. }
    { eapply Nat.le_lt_trans; [exact (size_unvisited_mono U ({[p]} ∪ ∅) st1.1 HV1)|].
      eapply Nat.lt_trans; [exact Hsz|lia]. }
    destruct (extends_nonempty nil_slice st'.2 p) as (l & Hl & Hst').
    { by eapply extends_trans. }
    exists st'.1, l. split; [done|]. rewrite <- Hst'. by destruct st'.
Qed.
End search_facts.

(** ** Reading and writing nodes through pointers *)

Section heap_facts.
Context {T : Type} `{Countable T}.
Context {order : RangeOrder}.

Implicit Types (h : gmap loc (Node T)) (d : DAG T) (n p c x y : loc) (v : T).

Lemma elem_of_range (s : gset loc) x : x ∈ range s ↔ x ∈ s.
Proof. by rewrite range_perm, elem_of_elements. Qed.

Lemma NoDup_range (s : gset loc) : NoDup (range s).
Proof. rewrite range_perm. apply NoDup_elements. Qed.

Lemma elem_of_Parents (fmt : T → string) h n x : x ∈ Parents fmt h n ↔ x ∈ parents_at h n.
Proof. unfold Parents. by rewrite sort_Slice_perm, elem_of_range. Qed.

Lemma elem_of_Children (fmt : T → string) h n x : x ∈ Children fmt h n ↔ x ∈ children_at h n.
Proof. unfold Children. by rewrite sort_Slice_perm, elem_of_range. Qed.

Lemma NoDup_Children (fmt : T → string) h n : NoDup (Children fmt h n).
Proof. unfold Children. rewrite sort_Slice_perm. apply NoDup_range. Qed.

Lemma parents_at_dom h n x : x ∈ parents_at h n → n ∈ dom h.
Proof.
  unfold parents_at. rewrite elem_of_dom.
  destruct (h !! n); simpl; [eauto|set_solver].
Qed.

Lemma children_at_dom h n x : x ∈ children_at h n → n ∈ dom h.
Proof.
  unfold children_at. rewrite elem_of_dom.
  destruct (h !! n); simpl; [eauto|set_solver].
Qed.

Lemma data_at_dom h n v : data_at h n = Some v → n ∈ dom h.
Proof.
  unfold data_at. rewrite elem_of_dom. destruct (h !! n); simpl; [eauto|done].
Qed.

(** [alter] through the three projections. *)
Lemma dom_alter_heap (f : Node T → Node T) n h : dom (alter f n h) = dom h.
Proof. apply dom_alter_L. Qed.

Lemma data_at_alter (f : Node T → Node T) n h x :
  (∀ nd, data (f nd) = data nd) → data_at (alter f n h) x = data_at h x.
Proof.
  intros Hf. unfold data_at. rewrite lookup_alter. case_decide; [subst|done].
  destruct (h !! x); simpl; [by rewrite Hf|done].
Qed.

Lemma parents_at_alter (f : Node T → Node T) (g : gset loc → gset loc) n h x :
  (∀ nd, parents (f nd) = g (parents nd)) →
  parents_at (alter f n h) x =
    if decide (n = x ∧ x ∈ dom h) then g (parents_at h x) else parents_at h x.
Proof.
  intros Hf. unfold parents_at. rewrite lookup_alter.
  destruct (decide (n = x)) as [->|Hne].
  - destruct (h !! x) eqn:Hx; simpl.
    + rewrite decide_True; [apply Hf|]. split; [done|]. apply elem_of_dom; eauto.
    + rewrite decide_False; [done|]. intros [_ Hd%elem_of_dom].
      rewrite Hx in Hd. by destruct Hd.
  - by rewrite decide_False by naive_solver.
Qed.

Lemma children_at_alter (f : Node T → Node T) (g : gset loc → gset loc) n h x :
  (∀ nd, children (f nd) = g (children nd)) →
  children_at (alter f n h) x =
    if decide (n = x ∧ x ∈ dom h) then g (children_at h x) else children_at h x.
Proof.
  intros Hf. unfold children_at. rewrite lookup_alter.
  destruct (decide (n = x)) as [->|Hne].
  - destruct (h !! x) eqn:Hx; simpl.
    + rewrite decide_True; [apply Hf|]. split; [done|]. apply elem_of_dom; eauto.
    + rewrite decide_False; [done|]. intros [_ Hd%elem_of_dom].
      rewrite Hx in Hd. by destruct Hd.
  - by rewrite decide_False by naive_solver.
Qed.

(** Membership after each of the four adjacency updates. *)
Lemma elem_of_parents_addParent h n p x y :
  y ∈ parents_at (addParent h n p) x ↔
  y ∈ parents_at h x ∨ (x = n ∧ y = p ∧ n ∈ dom h).
Proof.
  unfold addParent.
  rewrite (parents_at_alter _ (λ s, {[p]} ∪ s)) by done.
  case_decide; set_solver.
Qed.

Lemma children_at_addParent h n p x : children_at (addParent h n p) x = children_at h x.
Proof.
  unfold addParent. rewrite (children_at_alter _ id) by done. by case_decide.
Qed.

Lemma elem_of_children_addChild h n c x y :
  y ∈ children_at (addChild h n c) x ↔
  y ∈ children_at h x ∨ (x = n ∧ y = c ∧ n ∈ dom h).
Proof.
  unfold addChild.
  rewrite (children_at_alter _ (λ s, {[c]} ∪ s)) by done.
  case_decide; set_solver.
Qed.

Lemma parents_at_addChild h n c x : parents_at (addChild h n c) x = parents_at h x.
Proof.
  unfold addChild. rewrite (parents_at_alter _ id) by done. by case_decide.
Qed.

Lemma elem_of_parents_deleteParent h n p x y :
  y ∈ parents_at (deleteParent h n p) x ↔
  y ∈ parents_at h x ∧ ¬ (x = n ∧ y = p).
Proof.
  unfold deleteParent.
  rewrite (parents_at_alter _ (λ s, s ∖ {[p]})) by done.
  case_decide; [set_solver|].
  split; [|naive_solver]. intros Hy. split; [done|]. intros [-> ->].
  apply parents_at_dom in Hy. naive_solver.
Qed.

Lemma children_at_deleteParent h n p x :
  children_at (deleteParent h n p) x = children_at h x.
Proof.
  unfold deleteParent. rewrite (children_at_alter _ id) by done. by case_decide.
Qed.

Lemma elem_of_children_deleteChild h n c x y :
  y ∈ children_at (deleteChild h n c) x ↔
  y ∈ children_at h x ∧ ¬ (x = n ∧ y = c).
Proof.
  unfold deleteChild.
  rewrite (children_at_alter _ (λ s, s ∖ {[c]})) by done.
  case_decide; [set_solver|].
  split; [|naive_solver]. intros Hy. split; [done|]. intros [-> ->].
  apply children_at_dom in Hy. naive_solver.
Qed.

Lemma parents_at_deleteChild h n c x :
  parents_at (deleteChild h n c) x = parents_at h x.
Proof.
  unfold deleteChild. rewrite (parents_at_alter _ id) by done. by case_decide.
Qed.

Lemma data_at_addParent h n p x : data_at (addParent h n p) x = data_at h x.
Proof. by apply data_at_alter. Qed.
Lemma data_at_addChild h n c x : data_at (addChild h n c) x = data_at h x.
Proof. by apply data_at_alter. Qed.
Lemma data_at_deleteParent h n p x : data_at (deleteParent h n p) x = data_at h x.
Proof. by apply data_at_alter. Qed.
Lemma data_at_deleteChild h n c x : data_at (deleteChild h n c) x = data_at h x.
Proof. by apply data_at_alter. Qed.

(** The two loops of [RemoveNode]. *)
Lemma foldl_deleteChild node ps : ∀ h,
  let h' := foldl (λ h parent, deleteChild h parent node) h ps in
  dom h' = dom h ∧
  (∀ x, data_at h' x = data_at h x) ∧
  (∀ x, parents_at h' x = parents_at h x) ∧
  (∀ x y, y ∈ children_at h' x ↔ y ∈ children_at h x ∧ ¬ (x ∈ ps ∧ y = node)).
Proof.
  induction ps as [|p ps IH]; intros h; simpl.
  - split_and!; [done..|]. intros x y. set_solver.
  - destruct (IH (deleteChild h p node)) as (H1 & H2 & H3 & H4).
    split_and!.
    + rewrite H1. apply dom_alter_heap.
    + intros x. by rewrite H2, data_at_deleteChild.
    + intros x. by rewrite H3, parents_at_deleteChild.
    + intros x y. rewrite H4, elem_of_children_deleteChild, elem_of_cons.
      naive_solver.
Qed.

Lemma foldl_deleteParent node cs : ∀ h,
  let h' := foldl (λ h child, deleteParent h child node) h cs in
  dom h' = dom h ∧
  (∀ x, data_at h' x = data_at h x) ∧
  (∀ x, children_at h' x = children_at h x) ∧
  (∀ x y, y ∈ parents_at h' x ↔ y ∈ parents_at h x ∧ ¬ (x ∈ cs ∧ y = node)).
Proof.
  induction cs as [|c cs IH]; intros h; simpl.
  - split_and!; [done..|]. intros x y. set_solver.
  - destruct (IH (deleteParent h c node)) as (H1 & H2 & H3 & H4).
    split_and!.
    + rewrite H1. apply dom_alter_heap.
    + intros x. by rewrite H2, data_at_deleteParent.
    + intros x. by rewrite H3, children_at_deleteParent.
    + intros x y. rewrite H4, elem_of_parents_deleteParent, elem_of_cons.
      naive_solver.
Qed.
End heap_facts.

(** ** Every operation keeps the state well formed *)

Section wf_facts.
Context {T : Type} `{Countable T}.
Context {order : RangeOrder}.

Implicit Types (h : gmap loc (Node T)) (d : DAG T) (n p c x y : loc) (v : T).

Lemma wf_NewDAG : wf (NewDAG (T:=T)).
Proof.
  split; simpl.
  - intros v n. by rewrite lookup_empty.
  - intros n x. unfold parents_at, children_at. rewrite lookup_empty. set_solver.
  - intros n x [v Hv]. simpl in Hv. by rewrite lookup_empty in Hv.
  - intros x y [v Hv]. simpl in Hv. by rewrite lookup_empty in Hv.
  - exists (λ _, 0). intros x y [v Hv]. simpl in Hv. by rewrite lookup_empty in Hv.
Qed.

Lemma owned_dom d n : wf d → owned d n → n ∈ dom (heap d).
Proof. intros Hwf [v Hv]. eapply data_at_dom, wf_index; eauto. Qed.

(** Two values never share a node. *)
Lemma index_inj d v1 v2 n :
  wf d → nodes d !! v1 = Some n → nodes d !! v2 = Some n → v1 = v2.
Proof.
  intros Hwf H1 H2. apply (wf_index _ Hwf) in H1, H2. congruence.
Qed.

Lemma parents_at_insert_new h n v x :
  parents_at (<[n := NewNode v]> h) x = if decide (x = n) then ∅ else parents_at h x.
Proof.
  unfold parents_at. case_decide as Hx.
  - subst. by rewrite lookup_insert_eq.
  - by rewrite lookup_insert_ne.
Qed.

Lemma children_at_insert_new h n v x :
  children_at (<[n := NewNode v]> h) x = if decide (x = n) then ∅ else children_at h x.
Proof.
  unfold children_at. case_decide as Hx.
  - subst. by rewrite lookup_insert_eq.
  - by rewrite lookup_insert_ne.
Qed.

Lemma data_at_insert_new h n v x :
  data_at (<[n := NewNode v]> h) x = if decide (x = n) then Some v else data_at h x.
Proof.
  unfold data_at. case_decide as Hx.
  - subst. by rewrite lookup_insert_eq.
  - by rewrite lookup_insert_ne.
Qed.

(** The two ways [AddNode] can go. *)
Lemma AddNode_cases d v :
  (∃ n, nodes d !! v = Some n ∧ AddNode d v = (d, n)) ∨
  (nodes d !! v = None ∧
   AddNode d v =
     (mkDAG (<[v := fresh (dom (heap d))]> (nodes d))
            (<[fresh (dom (heap d)) := NewNode v]> (heap d)),
      fresh (dom (heap d)))).
Proof. unfold AddNode. destruct (nodes d !! v); eauto. Qed.

Lemma owned_alloc d v n h' x :
  nodes d !! v = None →
  owned (mkDAG (<[v := n]> (nodes d)) h') x ↔ x = n ∨ owned d x.
Proof.
  intros Hv. unfold owned; simpl. split.
  - intros [v' Hv']. destruct (decide (v = v')) as [->|Hne].
    + rewrite lookup_insert_eq in Hv'. left. congruence.
    + rewrite lookup_insert_ne in Hv' by done. right. eauto.
  - intros [->|[v' Hv']].
    + exists v. by rewrite lookup_insert_eq.
    + exists v'. rewrite lookup_insert_ne; [done|]. congruence.
Qed.

Lemma wf_alloc d v :
  wf d → nodes d !! v = None →
  wf (mkDAG (<[v := fresh (dom (heap d))]> (nodes d))
            (<[fresh (dom (heap d)) := NewNode v]> (heap d))).
Proof.
  intros Hwf Hv. pose proof (is_fresh (dom (heap d))) as Hfresh.
  set (n := fresh (dom (heap d))) in *.
  assert (∀ x, owned d x → x ≠ n) as Hold.
  { intros x Hx ->. by apply Hfresh, owned_dom. }
  assert (∀ a x, x ∈ parents_at (heap d) a ∪ children_at (heap d) a → x ≠ n) as Hadj.
  { intros a x Hx ->. by apply Hfresh, (wf_closed _ Hwf a). }
  split; simpl.
  - intros v' n'. rewrite data_at_insert_new. destruct (decide (v = v')) as [->|Hne].
    + rewrite lookup_insert_eq. intros [= <-]. by rewrite decide_True.
    + rewrite lookup_insert_ne by done. intros Hn'.
      rewrite decide_False; [by apply (wf_index _ Hwf)|].
      apply Hold. by exists v'.
  - intros a x. rewrite parents_at_insert_new, children_at_insert_new, dom_insert_L.
    case_decide; [set_solver|]. intros Hx. apply (wf_closed _ Hwf) in Hx. set_solver.
  - intros a x. rewrite !owned_alloc by done.
    rewrite parents_at_insert_new, children_at_insert_new.
    case_decide; [set_solver|]. intros [?|Ha] Hx; [done|].
    right. by apply (wf_owned _ Hwf a).
  - intros x y. simpl. rewrite !owned_alloc by done.
    rewrite parents_at_insert_new, children_at_insert_new.
    intros Hx Hy. repeat case_decide; subst.
    + done.
    + split; [set_solver|]. intros Hn. exfalso. apply (Hadj y n); [set_solver|done].
    + split; [|set_solver]. intros Hn. exfalso. apply (Hadj x n); [set_solver|done].
    + apply (wf_mutual _ Hwf); naive_solver.
  - destruct (wf_acyclic _ Hwf) as [rank Hrank]. exists rank.
    intros x y. rewrite !owned_alloc by done. rewrite children_at_insert_new.
    intros Hx Hy. case_decide; [set_solver|]. intros Hc.
    apply Hrank; [naive_solver| |done].
    destruct Hy as [->|]; [|done]. exfalso. apply (Hadj x n); [set_solver|done].
Qed.

Lemma wf_AddNode d v : wf d → wf (AddNode d v).1.
Proof.
  intros Hwf. destruct (AddNode_cases d v) as [(n & Hn & ->)|[Hv ->]]; simpl; [done|].
  by apply wf_alloc.
Qed.

Lemma AddNode_lookup d v : nodes (AddNode d v).1 !! v = Some (AddNode d v).2.
Proof.
  destruct (AddNode_cases d v) as [(n & Hn & ->)|[Hv ->]]; simpl; [done|].
  by rewrite lookup_insert_eq.
Qed.

(** [AddNode] never takes a value out of the index. *)
Lemma AddNode_lookup_mono d v v' n :
  nodes d !! v' = Some n → nodes (AddNode d v).1 !! v' = Some n.
Proof.
  intros Hn. destruct (AddNode_cases d v) as [(m & Hm & ->)|[Hv ->]]; simpl; [done|].
  rewrite lookup_insert_ne; [done|]. congruence.
Qed.

(** What [RemoveNode] leaves of the adjacency sets. *)
Lemma RemoveNode_heap d v node :
  nodes d !! v = Some node →
  let d' := RemoveNode d v in
  nodes d' = delete v (nodes d) ∧
  dom (heap d') = dom (heap d) ∧
  (∀ x, data_at (heap d') x = data_at (heap d) x) ∧
  (∀ x y, y ∈ children_at (heap d') x ↔
     y ∈ children_at (heap d) x ∧ ¬ (x ∈ parents_at (heap d) node ∧ y = node)) ∧
  (∀ x y, y ∈ parents_at (heap d') x ↔
     y ∈ parents_at (heap d) x ∧
     ¬ (x ∈ children_at (heap d) node ∧
        ¬ (node ∈ parents_at (heap d) node ∧ x = node) ∧ y = node)).
Proof.
  intros Hv. unfold RemoveNode. rewrite Hv. simpl.
  set (ps := range (parents_at (heap d) node)).
  destruct (foldl_deleteChild node ps (heap d)) as (A1 & A2 & A3 & A4).
  set (h1 := foldl (λ h parent, deleteChild h parent node) (heap d) ps) in *.
  set (cs := range (children_at h1 node)).
  destruct (foldl_deleteParent node cs h1) as (B1 & B2 & B3 & B4).
  set (h2 := foldl (λ h child, deleteParent h child node) h1 cs) in *.
  split_and!.
  - done.
  - congruence.
  - intros x. by rewrite B2, A2.
  - intros x y. rewrite B3, A4. unfold ps. by rewrite elem_of_range.
  - intros x y. rewrite B4, A3. unfold cs. rewrite elem_of_range, A4.
    unfold ps. rewrite elem_of_range. naive_solver.
Qed.

Lemma owned_delete d v node h' x :
  wf d → nodes d !! v = Some node →
  owned (mkDAG (delete v (nodes d)) h') x ↔ owned d x ∧ x ≠ node.
Proof.
  intros Hwf Hv. unfold owned; simpl. split.
  - intros [v' Hv']. apply lookup_delete_Some in Hv' as [Hne Hv'].
    split; [eauto|]. intros ->. apply Hne. by eapply index_inj.
  - intros [[v' Hv'] Hne]. exists v'. rewrite lookup_delete_ne; [done|]. congruence.
Qed.

Lemma wf_RemoveNode d v : wf d → wf (RemoveNode d v).
Proof.
  intros Hwf. destruct (nodes d !! v) as [node|] eqn:Hv;
    [|unfold RemoveNode; by rewrite Hv].
  destruct (RemoveNode_heap d v node Hv) as (Hn & Hdom & Hdata & Hch & Hpa).
  assert (owned d node) as Hnode by (by exists v).
  assert (∀ x, owned (RemoveNode d v) x ↔ owned d x ∧ x ≠ node) as Hown.
  { intros x. destruct (RemoveNode d v) as [ns h']; simpl in *. subst ns.
    by apply owned_delete. }
  split.
  - intros v' n. rewrite Hn, Hdata. intros [_ Hv']%lookup_delete_Some.
    by apply (wf_index _ Hwf).
  - intros n x. rewrite Hdom, elem_of_union, Hch, Hpa. intros Hx.
    apply (wf_closed _ Hwf n). set_solver.
  - intros n x. rewrite !Hown, elem_of_union, Hch, Hpa. intros [Hn' Hne] Hx.
    assert (owned d x) as Hxo by (apply (wf_owned _ Hwf n); [done|set_solver]).
    split; [done|]. intros ->.
    destruct Hx as [[Hx Hex]|[Hx Hex]]; apply Hex.
    + apply (wf_mutual _ Hwf node n) in Hx; naive_solver.
    + apply (wf_mutual _ Hwf n node) in Hx; naive_solver.
  - intros x y. rewrite !Hown, Hch, Hpa. intros [Hx Hxn] [Hy Hyn].
    rewrite (wf_mutual _ Hwf x y) by done. naive_solver.
  - destruct (wf_acyclic _ Hwf) as [rank Hrank]. exists rank.
    intros x y. rewrite !Hown, Hch. intros [Hx _] [Hy _] [Hc _]. by apply Hrank.
Qed.

Lemma wf_RemoveEdge d from to : wf d → wf (RemoveEdge d from to).
Proof.
  intros Hwf. unfold RemoveEdge.
  destruct (nodes d !! from) as [f|] eqn:Hf; [|done].
  destruct (nodes d !! to) as [t|] eqn:Ht; [|done].
  assert (∀ x, owned (mkDAG (nodes d) (deleteParent (deleteChild (heap d) f t) t f)) x
               ↔ owned d x) as Hown by done.
  split; simpl.
  - intros v n Hn. rewrite data_at_deleteParent, data_at_deleteChild.
    by apply (wf_index _ Hwf).
  - intros n x. unfold deleteParent at 3, deleteChild at 3. rewrite !dom_alter_heap.
    rewrite elem_of_union, elem_of_parents_deleteParent, parents_at_deleteChild,
      children_at_deleteParent, elem_of_children_deleteChild.
    intros Hx. apply (wf_closed _ Hwf n). set_solver.
  - intros n x. rewrite !Hown.
    rewrite elem_of_union, elem_of_parents_deleteParent, parents_at_deleteChild,
      children_at_deleteParent, elem_of_children_deleteChild.
    intros Hn Hx. apply (wf_owned _ Hwf n); [done|]. set_solver.
  - intros x y. simpl. rewrite !Hown. intros Hx Hy.
    rewrite elem_of_parents_deleteParent, parents_at_deleteChild,
      children_at_deleteParent, elem_of_children_deleteChild.
    rewrite (wf_mutual _ Hwf x y) by done. naive_solver.
  - destruct (wf_acyclic _ Hwf) as [rank Hrank]. exists rank.
    intros x y. rewrite !Hown, children_at_deleteParent, elem_of_children_deleteChild.
    intros Hx Hy [Hc _]. by apply Hrank.
Qed.

Lemma wf_Clear d : wf d → wf (Clear d).
Proof.
  intros Hwf.
  assert (∀ x, ¬ owned (Clear d) x) as Hown.
  { intros x [v Hv]. simpl in Hv. by rewrite lookup_empty in Hv. }
  split; simpl.
  - intros v n. by rewrite lookup_empty.
  - apply (wf_closed _ Hwf).
  - intros n x Hn. by destruct (Hown n).
  - intros x y Hx. by destruct (Hown x).
  - exists (λ _, 0). intros x y Hx. by destruct (Hown x).
Qed.
End wf_facts.

(** ** Edge insertion and whole runs *)

Section run_facts.
Context {T : Type} `{Countable T}.
Context {order : RangeOrder}.
Variable fmt : T → string.

Implicit Types (h : gmap loc (Node T)) (d : DAG T) (n p c x y : loc) (v : T).

(** [hasAncestor] always answers, and answers whether [a] can be reached
    from [n] by following parent links ([n] itself included). *)
Lemma hasAncestor_correct h n a :
  (∀ x y, y ∈ parents_at h x → y ∈ dom h) → n ∈ dom h →
  ∃ b, hasAncestor fmt h n a = Some b ∧ (b = true ↔ rtc (parent_step h) n a).
Proof.
  intros Hclosed Hn.
  destruct (visit_find_correct (Parents fmt h) a (dom h)) with (node := n)
    as (b & V & Hr & Hb); [|done|].
  { intros x y _ Hy%elem_of_Parents. by apply (Hclosed x). }
  exists b. split.
  - unfold hasAncestor. rewrite size_dom in Hr. by rewrite Hr.
  - rewrite Hb. split; apply rtc_subrel; intros x y; apply elem_of_Parents.
Qed.

Lemma hasAncestor_wf d n a :
  wf d → n ∈ dom (heap d) →
  ∃ b, hasAncestor fmt (heap d) n a = Some b ∧
       (b = true ↔ rtc (parent_step (heap d)) n a).
Proof.
  intros Hwf. apply hasAncestor_correct.
  intros x y Hy. apply (wf_closed _ Hwf x). set_solver.
Qed.

Lemma AddEdge_unfold d from to :
  AddEdge fmt d from to =
    let r1 := AddNode d from in
    let r2 := AddNode r1.1 to in
    cyc ← hasAncestor fmt (heap r2.1) r1.2 r2.2;
    if (cyc : bool) then Some (r2.1, ErrCycleDetected)
    else Some (mkDAG (nodes r2.1)
                 (addParent (addChild (heap r2.1) r1.2 r2.2) r2.2 r1.2), nil_error).
Proof. unfold AddEdge. destruct (AddNode d from). by destruct (AddNode _ to). Qed.

(** The two assignments that make an edge. *)
Lemma elem_of_children_link h f t x y :
  f ∈ dom h →
  y ∈ children_at (addParent (addChild h f t) t f) x ↔
  y ∈ children_at h x ∨ (x = f ∧ y = t).
Proof.
  intros Hf. rewrite children_at_addParent, elem_of_children_addChild. naive_solver.
Qed.

Lemma elem_of_parents_link h f t x y :
  t ∈ dom h →
  y ∈ parents_at (addParent (addChild h f t) t f) x ↔
  y ∈ parents_at h x ∨ (x = t ∧ y = f).
Proof.
  intros Ht. rewrite elem_of_parents_addParent, parents_at_addChild.
  unfold addChild. rewrite dom_alter_heap. naive_solver.
Qed.

Lemma wf_link d f t :
  wf d → owned d f → owned d t →
  hasAncestor fmt (heap d) f t = Some false →
  wf (mkDAG (nodes d) (addParent (addChild (heap d) f t) t f)).
Proof.
  intros Hwf Hf Ht Hcyc.
  pose proof (owned_dom _ _ Hwf Hf) as Hfd. pose proof (owned_dom _ _ Hwf Ht) as Htd.
  assert (∀ x, owned (mkDAG (nodes d) (addParent (addChild (heap d) f t) t f)) x
               ↔ owned d x) as Hown by done.
  split; simpl.
  - intros v n Hn. rewrite data_at_addParent, data_at_addChild.
    by apply (wf_index _ Hwf).
  - intros n x. unfold addParent, addChild. rewrite !dom_alter_heap.
    fold (addChild (heap d) f t). fold (addParent (addChild (heap d) f t) t f).
    rewrite elem_of_union, elem_of_parents_link, elem_of_children_link by done.
    intros [[Hx|[_ ->]]|[Hx|[_ ->]]]; try done; apply (wf_closed _ Hwf n); set_solver.
  - intros n x. rewrite !Hown.
    rewrite elem_of_union, elem_of_parents_link, elem_of_children_link by done.
    intros Hn [[Hx|[_ ->]]|[Hx|[_ ->]]]; try done; apply (wf_owned _ Hwf n); set_solver.
  - intros x y. simpl. rewrite !Hown. intros Hx Hy.
    rewrite elem_of_parents_link, elem_of_children_link by done.
    rewrite (wf_mutual _ Hwf x y) by done. naive_solver.
  - destruct (wf_acyclic _ Hwf) as [rank Hrank].
    exists (λ n, if bool_decide (hasAncestor fmt (heap d) n t = Some true)
                 then rank n + S (rank f) else rank n).
    intros x y. rewrite !Hown. intros Hx Hy.
    rewrite elem_of_children_link by done.
    destruct (hasAncestor_wf d x t Hwf (owned_dom _ _ Hwf Hx)) as (bx & Hbx & Hrx).
    destruct (hasAncestor_wf d y t Hwf (owned_dom _ _ Hwf Hy)) as (by' & Hby & Hry).
    rewrite Hbx, Hby. intros [Hc|[-> ->]].
    + pose proof (Hrank x y Hx Hy Hc) as Hlt.
      apply (wf_mutual _ Hwf x y Hx Hy) in Hc.
      destruct bx.
      * assert (by' = true) as ->.
        { apply Hry. eapply rtc_l; [exact Hc|]. by apply Hrx. }
        rewrite !bool_decide_eq_true_2 by done. lia.
      * rewrite (bool_decide_eq_false_2 (Some false = Some true)) by done.
        case_bool_decide; lia.
    + assert (bx = false) as -> by congruence.
      assert (by' = true) as -> by (by apply Hry).
      rewrite bool_decide_eq_false_2 by done.
      rewrite bool_decide_eq_true_2 by done. lia.
Qed.

Lemma wf_AddEdge d from to :
  wf d → ∃ d' e, AddEdge fmt d from to = Some (d', e) ∧ wf d'.
Proof.
  intros Hwf. rewrite AddEdge_unfold. cbv zeta.
  pose proof (wf_AddNode d from Hwf) as Hwf1.
  pose proof (AddNode_lookup d from) as Hfrom.
  destruct (AddNode d from) as [d1 f]; simpl in *.
  pose proof (wf_AddNode d1 to Hwf1) as Hwf2.
  pose proof (AddNode_lookup d1 to) as Hto.
  pose proof (AddNode_lookup_mono d1 to from f Hfrom) as Hfrom2.
  destruct (AddNode d1 to) as [d2 t]; simpl in *.
  assert (owned d2 f) as Hf by (by exists from).
  assert (owned d2 t) as Ht by (by exists to).
  destruct (hasAncestor_wf d2 f t Hwf2 (owned_dom _ _ Hwf2 Hf)) as (b & Hb & Hrtc).
  rewrite Hb. simpl. destruct b.
  - by exists d2, ErrCycleDetected.
  - eexists _, _. split; [done|]. by apply wf_link.
Qed.

(** [AddNode] touches no adjacency set. *)
Lemma AddNode_parents d v x :
  parents_at (heap (AddNode d v).1) x = parents_at (heap d) x.
Proof.
  destruct (AddNode_cases d v) as [(n & Hn & ->)|[Hv ->]]; simpl; [done|].
  rewrite parents_at_insert_new. case_decide as Hx; [|done]. subst x.
  pose proof (is_fresh (dom (heap d))) as Hf%not_elem_of_dom.
  unfold parents_at. by rewrite Hf.
Qed.

Lemma AddNode_children d v x :
  children_at (heap (AddNode d v).1) x = children_at (heap d) x.
Proof.
  destruct (AddNode_cases d v) as [(n & Hn & ->)|[Hv ->]]; simpl; [done|].
  rewrite children_at_insert_new. case_decide as Hx; [|done]. subst x.
  pose proof (is_fresh (dom (heap d))) as Hf%not_elem_of_dom.
  unfold children_at. by rewrite Hf.
Qed.

Lemma tc_first_step {A} (R : relation A) (a b : A) : tc R a b → ∃ z, R a z.
Proof. destruct 1; eauto. Qed.

Lemma tc_last_step {A} (R : relation A) (a b : A) : tc R a b → ∃ z, R z b.
Proof. induction 1; eauto. Qed.

Lemma tc_same_steps {A} (R1 R2 : relation A) (a b : A) :
  (∀ a' b', R1 a' b' → R2 a' b') → tc R1 a b → tc R2 a b.
Proof. intros HR. by apply (tc_congruence id). Qed.

(** An ancestor link can only run between nodes the index already names. *)
Lemma ancestor_of_present d from to :
  wf d →
  ancestor_of (heap d) (AddNode (AddNode d from).1 to).2 (AddNode d from).2 →
  nodes d !! from = Some (AddNode d from).2 ∧
  nodes d !! to = Some (AddNode (AddNode d from).1 to).2.
Proof.
  intros Hwf Htc. unfold ancestor_of in Htc.
  destruct (tc_first_step _ _ _ Htc) as [y Hy].
  destruct (tc_last_step _ _ _ Htc) as [z Hz].
  apply parents_at_dom in Hy.
  assert ((AddNode (AddNode d from).1 to).2 ∈ dom (heap d)) as Ht.
  { apply (wf_closed _ Hwf z). unfold parent_step in Hz. set_solver. }
  clear Htc Hz. pose proof (is_fresh (dom (heap d))) as Hfresh.
  destruct (AddNode_cases d from) as [(n & Hn & Heq)|[Hv Heq]];
    rewrite Heq in *; simpl in *; [|done].
  split; [done|].
  destruct (AddNode_cases d to) as [(m & Hm & Heq')|[Hv' Heq']];
    rewrite Heq' in *; simpl in *; done.
Qed.

(** Everything [AddEdge] does, in terms of the state it was called in. *)
Lemma AddEdge_spec d from to :
  wf d →
  ∃ d2 f t b,
    AddNode d from = ((AddNode d from).1, f) ∧
    AddNode (AddNode d from).1 to = (d2, t) ∧
    wf d2 ∧ nodes d2 !! from = Some f ∧ nodes d2 !! to = Some t ∧
    (∀ x, parents_at (heap d2) x = parents_at (heap d) x) ∧
    (∀ x, children_at (heap d2) x = children_at (heap d) x) ∧
    (b = true ↔
       from = to ∨
       (nodes d !! from = Some f ∧ nodes d !! to = Some t ∧ ancestor_of (heap d) t f)) ∧
    AddEdge fmt d from to =
      Some (if b then (d2, ErrCycleDetected)
            else (mkDAG (nodes d2) (addParent (addChild (heap d2) f t) t f), nil_error)).
Proof.
  intros Hwf.
  pose proof (wf_AddNode d from Hwf) as Hwf1.
  pose proof (wf_AddNode _ to Hwf1) as Hwf2.
  pose proof (AddNode_lookup d from) as Hfrom.
  pose proof (AddNode_lookup (AddNode d from).1 to) as Hto.
  pose proof (AddNode_lookup_mono _ to _ _ Hfrom) as Hfrom2.
  pose proof (ancestor_of_present d from to Hwf) as Hpres.
  assert (∀ x, parents_at (heap (AddNode (AddNode d from).1 to).1) x
               = parents_at (heap d) x) as Hpar.
  { intros x. by rewrite !AddNode_parents. }
  assert (∀ x, children_at (heap (AddNode (AddNode d from).1 to).1) x
               = children_at (heap d) x) as Hchi.
  { intros x. by rewrite !AddNode_children. }
  rewrite AddEdge_unfold. cbv zeta.
  set (d2 := (AddNode (AddNode d from).1 to).1) in *.
  set (f := (AddNode d from).2) in *.
  set (t := (AddNode (AddNode d from).1 to).2) in *.
  assert (owned d2 f) as Hf by (by exists from).
  destruct (hasAncestor_wf d2 f t Hwf2 (owned_dom _ _ Hwf2 Hf)) as (b & Hb & Hrtc).
  exists d2, f, t, b. split_and!; try done.
  - unfold f. by destruct (AddNode d from).
  - unfold d2, t. by destruct (AddNode _ to).
  - rewrite Hrtc, rtc_tc. split.
    + intros [Heq|Htc].
      { left. apply (index_inj d2 from to t Hwf2); [congruence|done]. }
      right. assert (ancestor_of (heap d) t f) as Hanc.
      { revert Htc. apply tc_same_steps. intros a c. unfold parent_step.
        by rewrite Hpar. }
      destruct (Hpres Hanc). done.
    + intros [->|(_ & _ & Htc)]; [left; congruence|].
      right. revert Htc. apply tc_same_steps. intros a c. unfold parent_step.
      by rewrite Hpar.
  - rewrite Hb. simpl. by destruct b.
Qed.

Lemma wf_exec d o d' : wf d → exec fmt d o = Some d' → wf d'.
Proof.
  intros Hwf. destruct o as [v|from to|v|from to|]; simpl.
  - intros [= <-]. by apply wf_AddNode.
  - destruct (wf_AddEdge d from to Hwf) as (d1 & e & -> & Hwf1). by intros [= <-].
  - intros [= <-]. by apply wf_RemoveNode.
  - intros [= <-]. by apply wf_RemoveEdge.
  - intros [= <-]. by apply wf_Clear.
Qed.

Lemma reachable_wf d : reachable fmt d → wf d.
Proof.
  induction 1 as [|d o d' _ IH Hstep]; [apply wf_NewDAG|by eapply wf_exec].
Qed.

(** No operation of a run gets stuck. *)
Lemma exec_total d o : wf d → is_Some (exec fmt d o).
Proof.
  intros Hwf. destruct o as [v|from to|v|from to|]; simpl; eauto.
  destruct (wf_AddEdge d from to Hwf) as (d1 & e & -> & _). simpl. eauto.
Qed.
End run_facts.

(** ** ShortestPath is a breadth-first search *)

Section bfs_facts.
Context {T : Type} `{Countable T}.
Variable h : gmap loc (Node T).
Variables fromNode toNode : loc.

Implicit Types (n c x y : loc) (l : list loc) (Q : list (loc * list loc)) (V P : gset loc).

Lemma path_to_length l x : path_to h fromNode l x → 1 ≤ length l.
Proof. destruct 1; [simpl; lia|]. rewrite length_app. simpl. lia. Qed.

Lemma path_to_inv l x :
  path_to h fromNode l x →
  (l = [fromNode] ∧ x = fromNode) ∨
  ∃ l' y, l = l' ++ [x] ∧ path_to h fromNode l' y ∧ x ∈ children_at h y.
Proof. destruct 1; [by left|right; eauto]. Qed.

Lemma lengths_ok_ge k Q e : lengths_ok k Q → e ∈ Q → k ≤ length e.2 ≤ S k.
Proof.
  intros (A & B & -> & HA & HB) [He|He]%elem_of_app.
  - rewrite Forall_forall in HA. rewrite (HA e He). lia.
  - rewrite Forall_forall in HB. rewrite (HB e He). lia.
Qed.

Lemma lengths_ok_pop k e Q : lengths_ok k (e :: Q) → lengths_ok (length e.2) Q.
Proof.
  intros (A & B & Heq & HA & HB). destruct A as [|a A]; simpl in Heq.
  - subst B. apply Forall_cons in HB as [He HB]. rewrite He.
    exists Q, []. rewrite app_nil_r. by split_and!.
  - injection Heq as <- ->. apply Forall_cons in HA as [He HA]. rewrite He.
    by exists A, B.
Qed.

Lemma lengths_ok_push k Q e :
  lengths_ok k Q → length e.2 = S k → lengths_ok k (Q ++ [e]).
Proof.
  intros (A & B & -> & HA & HB) He. exists A, (B ++ [e]).
  rewrite app_assoc. split_and!; [done..|].
  apply Forall_app. split; [done|]. by apply Forall_singleton.
Qed.

(** Nodes with a path shorter than everything in the queue are done. *)
Lemma bfs_short_done P Q V k :
  bfs_inv h fromNode toNode P Q V →
  (∀ e, e ∈ Q → k ≤ length e.2) →
  ∀ l x, path_to h fromNode l x → length l < k → x ∈ P.
Proof.
  intros Hinv Hk l x Hpath. induction Hpath as [|l y c Hpath IH Hc]; intros Hlen.
  - destruct (proj1 (bfs_visited _ _ _ _ _ _ Hinv fromNode)) as [?|Hq];
      [by apply (bfs_start _ _ _ _ _ _ Hinv)|done|].
    apply list_elem_of_fmap in Hq as ([n l'] & -> & He).
    pose proof (Hk _ He) as Hk'.
    pose proof (bfs_minimal _ _ _ _ _ _ Hinv _ _ [n] He (path_start h n)) as Hm.
    simpl in *. lia.
  - rewrite length_app in Hlen. simpl in Hlen.
    assert (y ∈ P) as Hy by (apply IH; lia).
    destruct (proj1 (bfs_visited _ _ _ _ _ _ Hinv c)) as [?|Hq];
      [by apply (bfs_closed _ _ _ _ _ _ Hinv y)|done|].
    apply list_elem_of_fmap in Hq as ([n l'] & -> & He).
    pose proof (Hk _ He) as Hk'.
    pose proof (bfs_minimal _ _ _ _ _ _ Hinv _ _ (l ++ [n]) He
                  (path_snoc h fromNode l y n Hpath Hc)) as Hm.
    rewrite length_app in Hm. simpl in *. lia.
Qed.

(** One turn of the inner loop. *)
Lemma scan_inv_discover P cur seen Q V c :
  path_to h fromNode cur.2 cur.1 →
  (∀ l x, path_to h fromNode l x → length l < length cur.2 → x ∈ P) →
  c ∈ children_at h cur.1 →
  scan_inv h fromNode P cur seen Q V →
  scan_inv h fromNode P cur (c :: seen)
    (discover cur.2 (Q, V) c).1 (discover cur.2 (Q, V) c).2.
Proof.
  intros Hcur Hshort Hc Hinv. unfold discover. simpl.
  destruct (decide (c ∈ V)) as [Hin|Hnin]; simpl.
  - destruct Hinv. split; try done.
    intros c' [->|?]%elem_of_cons; auto.
  - destruct Hinv as [Hpaths Hvis Hclosed Hseen Hstart Hmin Hlen]. split.
    + intros n l [He|He]%elem_of_app; [by apply Hpaths|].
      apply list_elem_of_singleton in He as [= -> ->]. by eapply path_snoc.
    + intros x. rewrite fmap_app, elem_of_app, elem_of_union, Hvis. simpl.
      rewrite list_elem_of_singleton, elem_of_singleton. naive_solver.
    + intros y c' Hy Hc'. apply elem_of_union. right. by eapply Hclosed.
    + intros c' [->|?]%elem_of_cons; set_solver.
    + set_solver.
    + intros n l l' [He|He]%elem_of_app; [by apply Hmin|].
      apply list_elem_of_singleton in He as [= -> ->]. intros Hl'.
      rewrite length_app. simpl.
      destruct (path_to_inv _ _ Hl') as [[-> ->]|(l0 & y & -> & Hl0 & Hy)]; [done|].
      rewrite length_app. simpl.
      destruct (decide (length l0 < length cur.2)) as [Hlt|]; [|lia].
      exfalso. apply Hnin. apply (Hclosed y); [|done]. by eapply Hshort.
    + apply lengths_ok_push; [done|]. simpl. rewrite length_app. simpl. lia.
Qed.

Lemma scan_inv_fold P cur cs : ∀ seen Q V,
  path_to h fromNode cur.2 cur.1 →
  (∀ l x, path_to h fromNode l x → length l < length cur.2 → x ∈ P) →
  (∀ c, c ∈ cs → c ∈ children_at h cur.1) →
  scan_inv h fromNode P cur seen Q V →
  scan_inv h fromNode P cur (reverse cs ++ seen)
    (foldl (discover cur.2) (Q, V) cs).1 (foldl (discover cur.2) (Q, V) cs).2.
Proof.
  induction cs as [|c cs IH]; intros seen Q V Hcur Hshort Hcs Hinv; simpl; [done|].
  rewrite reverse_cons, <- app_assoc. simpl.
  destruct (discover cur.2 (Q, V) c) as [Q1 V1] eqn:Hd.
  apply IH; [done..| |].
  - intros c' Hc'. apply Hcs. by right.
  - pose proof (scan_inv_discover P cur seen Q V c Hcur Hshort) as Hstep.
    rewrite Hd in Hstep. apply Hstep; [|done]. apply Hcs. by left.
Qed.

(** The inner loop never lets the work left grow. *)
Lemma discover_measure l cs : ∀ Q V,
  (∀ c, c ∈ cs → c ∈ dom h) →
  size (dom h ∖ (foldl (discover l) (Q, V) cs).2) + length (foldl (discover l) (Q, V) cs).1
  ≤ size (dom h ∖ V) + length Q.
Proof.
  induction cs as [|c cs IH]; intros Q V Hcs; simpl; [done|].
  assert (∀ c', c' ∈ cs → c' ∈ dom h) as Hcs' by (intros c' ?; apply Hcs; by right).
  unfold discover at 2 4. simpl. destruct (decide (c ∈ V)) as [Hin|Hnin].
  - by apply IH.
  - etrans; [by apply IH|]. rewrite length_app. simpl.
    pose proof (size_unvisited_mark (dom h) V c) as Hm.
    specialize (Hm (Hcs c ltac:(by left)) Hnin). lia.
Qed.

Lemma bfs_inv_start : bfs_inv h fromNode toNode ∅ [(fromNode, [fromNode])] {[fromNode]}.
Proof.
  split.
  - intros n l [= -> ->]%list_elem_of_singleton. apply path_start.
  - intros x. simpl. rewrite list_elem_of_singleton. set_solver.
  - set_solver.
  - set_solver.
  - set_solver.
  - intros n l l' [= -> ->]%list_elem_of_singleton Hl'. simpl.
    by eapply path_to_length.
  - exists 1, [(fromNode, [fromNode])], []. split_and!; [done| |done].
    by apply Forall_singleton.
Qed.

Context {order : RangeOrder}.
Variable fmt : T → string.

(** One turn of the outer loop keeps the invariant. *)
Lemma bfs_inv_step P cur Q V :
  bfs_inv h fromNode toNode P (cur :: Q) V → cur.1 ≠ toNode →
  bfs_inv h fromNode toNode ({[cur.1]} ∪ P)
    (foldl (discover cur.2) (Q, V) (Children fmt h cur.1)).1
    (foldl (discover cur.2) (Q, V) (Children fmt h cur.1)).2.
Proof.
  intros Hinv Hne.
  assert (path_to h fromNode cur.2 cur.1) as Hcur.
  { apply (bfs_paths _ _ _ _ _ _ Hinv). destruct cur. by left. }
  destruct (bfs_lengths _ _ _ _ _ _ Hinv) as [k Hk].
  pose proof (lengths_ok_pop _ _ _ Hk) as Hk'.
  assert (∀ l x, path_to h fromNode l x → length l < length cur.2 → x ∈ P) as Hshort.
  { apply (bfs_short_done P (cur :: Q) V); [done|].
    intros e [->|He]%elem_of_cons; [done|]. by apply (lengths_ok_ge _ Q). }
  destruct (scan_inv_fold P cur (Children fmt h cur.1) [] Q V Hcur Hshort)
    as [Hpaths Hvis Hclosed Hseen Hstart Hmin Hlen].
  { intros c. by rewrite elem_of_Children. }
  { destruct Hinv as [Ipaths Ivis Iclosed Itarget Istart Imin Ilen]. split.
    - intros n l He. apply Ipaths. by right.
    - intros x. rewrite Ivis. simpl. rewrite elem_of_cons. naive_solver.
    - done.
    - intros c Hc. by apply elem_of_nil in Hc.
    - done.
    - intros n l l' He. apply Imin. by right.
    - done. }
  split.
  - done.
  - intros x. rewrite Hvis. set_solver.
  - intros y c [->%elem_of_singleton|Hy]%elem_of_union Hc.
    + apply Hseen. rewrite app_nil_r, elem_of_reverse. by apply elem_of_Children.
    + by eapply Hclosed.
  - pose proof (bfs_target _ _ _ _ _ _ Hinv). set_solver.
  - done.
  - done.
  - eauto.
Qed.

Hypothesis h_closed : ∀ x y, y ∈ children_at h x → y ∈ dom h.

(** The loop finishes within its fuel and returns a shortest path or nil. *)
Lemma bfs_loop_correct (fuel : nat) : ∀ P Q V,
  bfs_inv h fromNode toNode P Q V →
  size (dom h ∖ V) + length Q < fuel →
  ∃ r, bfs_loop fmt fuel h toNode Q V = Some r ∧ shortest_result h fromNode toNode r.
Proof.
  induction fuel as [|fuel IH]; intros P Q V Hinv Hsz; [lia|].
  destruct Q as [|cur Q]; simpl.
  - exists nil_slice. split; [done|]. simpl. intros l Hl.
    apply (bfs_target _ _ _ _ _ _ Hinv).
    apply (bfs_short_done P [] V (S (length l)) Hinv) with (l := l); [|done|lia].
    intros e He. by apply elem_of_nil in He.
  - destruct (decide (cur.1 = toNode)) as [Heq|Hne].
    + exists (slice_of cur.2). split; [done|]. simpl. split.
      * rewrite <- Heq. apply (bfs_paths _ _ _ _ _ _ Hinv). destruct cur. by left.
      * intros l' Hl'. apply (bfs_minimal _ _ _ _ _ _ Hinv cur.1); [|by rewrite Heq].
        destruct cur. by left.
    + apply (IH ({[cur.1]} ∪ P)); [by apply bfs_inv_step|].
      assert (∀ c, c ∈ Children fmt h cur.1 → c ∈ dom h) as Hcs.
      { intros c Hc%elem_of_Children. by apply (h_closed cur.1). }
      pose proof (discover_measure cur.2 (Children fmt h cur.1) Q V Hcs) as Hm.
      simpl in Hsz. lia.
Qed.
End bfs_facts.

(** ** Traverse is Kahn's algorithm *)

Lemma before_app_r (l k : list loc) (a b : loc) : before l a b → before (l ++ k) a b.
Proof.
  intros (l1 & l2 & l3 & ->). exists l1, l2, (l3 ++ k).
  by rewrite <- !app_assoc, <- !app_comm_cons, <- app_assoc, <- app_comm_cons.
Qed.

Lemma before_snoc (l : list loc) (a b : loc) : a ∈ l → before (l ++ [b]) a b.
Proof.
  intros (l1 & l2 & ->)%list_elem_of_split. exists l1, l2, [].
  by rewrite <- app_assoc, <- app_comm_cons.
Qed.

Lemma filter_ext_in {A} (P Q : A → Prop) `{!∀ x, Decision (P x)} `{!∀ x, Decision (Q x)}
    (l : list A) :
  (∀ x, x ∈ l → P x ↔ Q x) → filter P l = filter Q l.
Proof.
  induction l as [|a l IH]; intros HPQ; [done|].
  rewrite !filter_cons.
  assert (filter P l = filter Q l) as ->.
  { apply IH. intros x Hx. apply HPQ. by right. }
  pose proof (HPQ a ltac:(by left)) as Ha.
  destruct (decide (P a)), (decide (Q a)); naive_solver.
Qed.

Section kahn_facts.
Context {T : Type} `{Countable T}.
Variable d : DAG T.

Implicit Types (n c x y : loc) (m : gmap loc Z) (q cs sorted : list loc).

Lemma degree_insert m c (z : Z) n :
  degree (<[c := z]> m) n = if decide (n = c) then z else degree m n.
Proof.
  unfold degree. case_decide as Hn.
  - subst. by rewrite lookup_insert_eq.
  - by rewrite lookup_insert_ne.
Qed.

(** The inner loop lowers the count of every child once and queues the
    children whose count was one. *)
Lemma relax_fold cs : ∀ m q,
  NoDup cs →
  (∀ n, degree (foldl relax (m, q) cs).1 n
        = if decide (n ∈ cs) then (degree m n - 1)%Z else degree m n) ∧
  (foldl relax (m, q) cs).2 = q ++ filter (λ c, degree m c = 1%Z) cs.
Proof.
  induction cs as [|c cs IH]; intros m q Hnd; cbn [foldl].
  - split; [|by rewrite filter_nil, app_nil_r]. intros n.
    rewrite decide_False; [done|]. apply not_elem_of_nil.
  - apply NoDup_cons in Hnd as [Hc Hnd].
    set (m1 := <[c := (degree m c - 1)%Z]> m).
    assert (∀ n, degree m1 n = if decide (n = c) then (degree m c - 1)%Z else degree m n)
      as Hm1 by (intros n; apply degree_insert).
    assert (relax (m, q) c = (m1, q ++ filter (λ c', degree m c' = 1%Z) [c])) as ->.
    { unfold relax. simpl. fold m1. rewrite Hm1.
      destruct (decide (c = c)); [|done].
      rewrite filter_cons, filter_nil.
      destruct (decide (degree m c - 1 = 0)%Z), (decide (degree m c = 1%Z));
        try lia; [done|by rewrite app_nil_r]. }
    destruct (IH m1 (q ++ filter (λ c', degree m c' = 1%Z) [c]) Hnd) as [IHd IHq].
    split.
    + intros n. rewrite IHd, !Hm1.
      destruct (decide (n = c)) as [->|Hne].
      * rewrite decide_False by done. rewrite decide_True; [done|by left].
      * destruct (decide (n ∈ cs)).
        -- rewrite decide_True; [done|by right].
        -- rewrite decide_False; [done|]. intros [?|?]%elem_of_cons; done.
    + rewrite IHq, <- app_assoc. f_equal.
      rewrite (filter_cons _ c). rewrite filter_cons, filter_nil.
      assert (filter (λ c', degree m1 c' = 1%Z) cs = filter (λ c', degree m c' = 1%Z) cs)
        as ->.
      { apply filter_ext_in. intros c' Hc'. rewrite Hm1.
        rewrite decide_False; [done|]. by intros ->. }
      by destruct (decide (degree m c = 1%Z)).
Qed.

(** The first loop of [Traverse]. *)
Lemma foldr_insert_lookup (g : loc → Z) (l : list (T * loc)) n :
  foldr (λ kv m, <[kv.2 := g kv.2]> m) (∅ : gmap loc Z) l !! n
  = if decide (n ∈ l.*2) then Some (g n) else None.
Proof.
  induction l as [|[v' n'] l IH]; cbn [foldr]; [rewrite fmap_nil|rewrite fmap_cons]; simpl snd.
  - rewrite lookup_empty. rewrite decide_False; [done|]. apply not_elem_of_nil.
  - destruct (decide (n = n')) as [->|Hne].
    + rewrite lookup_insert_eq. rewrite decide_True; [done|by left].
    + rewrite lookup_insert_ne by done. rewrite IH.
      destruct (decide (n ∈ l.*2)).
      * rewrite decide_True; [done|by right].
      * rewrite decide_False; [done|]. intros [?|?]%elem_of_cons; done.
Qed.

Lemma elem_of_index_range n : n ∈ (map_to_list (nodes d)).*2 ↔ owned d n.
Proof.
  rewrite list_elem_of_fmap. unfold owned. split.
  - intros ([v n'] & -> & Hin). exists v. by apply elem_of_map_to_list.
  - intros [v Hv]. exists (v, n). split; [done|]. by apply elem_of_map_to_list.
Qed.

Lemma dom_inDegree_init n : n ∈ dom (inDegree_init d) ↔ owned d n.
Proof.
  rewrite elem_of_dom. unfold inDegree_init.
  rewrite (foldr_insert_lookup (λ x, len (parents_at (heap d) x))).
  rewrite <- elem_of_index_range. case_decide; split; try done.
Qed.

Lemma degree_inDegree_init n :
  owned d n → degree (inDegree_init d) n = len (parents_at (heap d) n).
Proof.
  intros Hn%elem_of_index_range. unfold degree, inDegree_init.
  rewrite (foldr_insert_lookup (λ x, len (parents_at (heap d) x))).
  by rewrite decide_True.
Qed.

Lemma owned_length (l : list loc) :
  NoDup l → (∀ n, n ∈ l → owned d n) → length l ≤ size (inDegree_init d).
Proof.
  intros Hnd Hl. rewrite <- size_dom. unfold size, set_size. simpl.
  apply submseteq_length, NoDup_submseteq; [done|].
  intros n Hn. apply elem_of_elements, dom_inDegree_init. by apply Hl.
Qed.

Context {order : RangeOrder}.

Lemma kahn_inv_init :
  kahn_inv d (inDegree_init d) (seed_queue (inDegree_init d)) [].
Proof.
  unfold seed_queue. split; simpl.
  - apply NoDup_filter, NoDup_range.
  - intros n [_ Hn]%list_elem_of_filter. by apply dom_inDegree_init, elem_of_range.
  - intros n Hn. rewrite degree_inDegree_init by done. f_equal. set_solver.
  - intros n Hn. rewrite list_elem_of_filter, elem_of_range, dom_inDegree_init. naive_solver.
  - intros n p Hn. by apply elem_of_nil in Hn.
Qed.

(** Taking [cur] out of the set of missing parents. *)
Lemma len_pending_step (s : gset loc) sorted cur :
  cur ∈ s → cur ∉ sorted →
  len (s ∖ list_to_set sorted) = (len (s ∖ list_to_set (sorted ++ [cur])) + 1)%Z.
Proof.
  intros Hs Hns. unfold len.
  assert (s ∖ list_to_set sorted = {[cur]} ∪ s ∖ list_to_set (sorted ++ [cur])) as ->.
  { apply set_eq. intros x. rewrite list_to_set_app_L. simpl.
    rewrite elem_of_union, !elem_of_difference, elem_of_union, elem_of_singleton,
      elem_of_list_to_set. rewrite elem_of_union, elem_of_singleton.
    destruct (decide (x = cur)) as [->|]; set_solver. }
  rewrite size_union, size_singleton by set_solver. lia.
Qed.

Variable fmt : T → string.
Hypothesis d_wf : wf d.

Lemma kahn_inv_step m cur q sorted :
  kahn_inv d m (cur :: q) sorted →
  kahn_inv d (foldl relax (m, q) (Children fmt (heap d) cur)).1
    (foldl relax (m, q) (Children fmt (heap d) cur)).2 (sorted ++ [cur]).
Proof.
  intros [Hnd Hown Hdeg Hready Hord].
  destruct (relax_fold (Children fmt (heap d) cur) m q (NoDup_Children fmt _ _))
    as [Hd' ->].
  set (cs := Children fmt (heap d) cur) in *.
  assert (owned d cur) as Hcur by (apply Hown; set_solver).
  assert (cur ∉ sorted) as HcurS.
  { apply NoDup_app in Hnd as (_ & Hdisj & _). intros Hin.
    apply (Hdisj cur Hin). by left. }
  assert (∀ c, c ∈ cs → owned d c) as Hcs_owned.
  { intros c Hc%elem_of_Children. apply (wf_owned _ d_wf cur); [done|set_solver]. }
  assert (∀ n, owned d n → n ∈ cs ↔ cur ∈ parents_at (heap d) n) as Hcs_par.
  { intros n Hn. unfold cs. rewrite elem_of_Children. by apply (wf_mutual _ d_wf). }
  assert (∀ n, owned d n →
            degree (foldl relax (m, q) cs).1 n
            = len (parents_at (heap d) n ∖ list_to_set (sorted ++ [cur]))) as Hdeg'.
  { intros n Hn. rewrite Hd', (Hdeg n Hn). case_decide as Hc.
    - apply (Hcs_par n Hn) in Hc. rewrite (len_pending_step _ sorted cur) by done. lia.
    - f_equal. rewrite list_to_set_app_L. simpl.
      assert (cur ∉ parents_at (heap d) n) by (by rewrite <- Hcs_par). set_solver. }
  assert ((sorted ++ [cur]) ++ q ++ filter (λ c, degree m c = 1%Z) cs
          = (sorted ++ cur :: q) ++ filter (λ c, degree m c = 1%Z) cs) as Hlist.
  { by rewrite <- !app_assoc. }
  split.
  - rewrite Hlist. apply NoDup_app. split_and!; [done| |apply NoDup_filter, NoDup_Children].
    intros n Hn [Hone Hc]%list_elem_of_filter.
    apply (Hready n (Hown n Hn)) in Hn. lia.
  - rewrite Hlist. intros n [Hn|[_ Hn]%list_elem_of_filter]%elem_of_app; auto.
  - done.
  - intros n Hn. rewrite Hlist, elem_of_app, list_elem_of_filter, (Hready n Hn), Hd'.
    case_decide as Hc; [|naive_solver lia].
    split; [|intros; right; split; [lia|done]].
    intros [Hz|[Hone _]]; [|lia]. exfalso.
    apply (Hcs_par n Hn) in Hc. rewrite (Hdeg n Hn) in Hz.
    rewrite (len_pending_step _ sorted cur) in Hz by done. unfold len in Hz. lia.
  - intros n p [Hn|Hn]%elem_of_app Hp.
    + by apply before_app_r, Hord.
    + apply list_elem_of_singleton in Hn as ->. apply before_snoc.
      assert (degree m cur = 0%Z) as Hz by (apply (Hready cur Hcur); set_solver).
      rewrite (Hdeg cur Hcur) in Hz. unfold len in Hz.
      assert (size (parents_at (heap d) cur ∖ list_to_set sorted) = 0) as Hz'%size_empty_inv
        by lia.
      destruct (decide (p ∈ sorted)) as [|Hnp]; [done|]. exfalso.
      assert (p ∈ parents_at (heap d) cur ∖ list_to_set sorted) as Hin by set_solver.
      rewrite Hz' in Hin. set_solver.
Qed.

(** The loop stops within its fuel, with an empty queue. *)
Lemma kahn_loop_correct (fuel : nat) : ∀ m q (sorted : slice loc),
  kahn_inv d m q (elems sorted) →
  size (inDegree_init d) ≤ fuel + length (elems sorted) →
  ∃ out m', kahn_loop fmt fuel (heap d) m q sorted = Some out ∧
            kahn_inv d m' [] (elems out).
Proof.
  induction fuel as [|fuel IH]; intros m q sorted Hinv Hsz.
  - destruct q as [|cur q]; [by exists sorted, m|]. exfalso.
    pose proof (owned_length _ (kahn_nodup _ _ _ _ Hinv) (kahn_owned _ _ _ _ Hinv)) as Hlen.
    rewrite length_app in Hlen. simpl in *. lia.
  - destruct q as [|cur q]; [by exists sorted, m|]. simpl.
    apply IH.
    + rewrite elems_append. by apply kahn_inv_step.
    + rewrite elems_append, length_app. simpl. lia.
Qed.

(** With the queue empty, acyclicity puts every node in [sorted]. *)
Lemma kahn_complete m sorted n : kahn_inv d m [] sorted → owned d n → n ∈ sorted.
Proof.
  intros [Hnd Hown Hdeg Hready Hord].
  destruct (wf_acyclic _ d_wf) as [rank Hrank].
  remember (S (rank n)) as k eqn:Hk. assert (rank n < k) as Hlt by lia. clear Hk.
  revert n Hlt. induction k as [|k IH]; intros n Hlt Hn; [lia|].
  rewrite <- (app_nil_r sorted). apply (Hready n Hn). rewrite (Hdeg n Hn).
  assert (parents_at (heap d) n ∖ list_to_set sorted = ∅) as ->; [|done].
  apply set_eq. intros p. split; [|set_solver].
  intros [Hp Hnp]%elem_of_difference. exfalso. apply Hnp, elem_of_list_to_set.
  assert (owned d p) as Hpo by (apply (wf_owned _ d_wf n); [done|set_solver]).
  apply IH; [|done].
  assert (rank p < rank n); [|lia].
  apply Hrank; [done..|]. by apply (wf_mutual _ d_wf).
Qed.
End kahn_facts.

(** ** The properties of the specification *)

Section keyed_facts.
Context {K : Type} `{Comparable K}.

Lemma keyed_lookup_assign (m : keyed.index K) (v : K) (n : loc) :
  go_eq v v = true → keyed.lookup (keyed.assign m v n) v = Some n.
Proof.
  intros Hv. unfold keyed.lookup. induction m as [|e m IH]; simpl.
  - by rewrite Hv.
  - destruct (go_eq e.1 v) eqn:He; simpl.
    + by rewrite Hv.
    + by rewrite He.
Qed.
End keyed_facts.

Section keyed_refines.
Context {T : Type} `{Countable T}.

Lemma keyed_lookup_map (m : keyed.index T) (v : T) :
  keyed.lookup m v = (list_to_map m : gmap T loc) !! v.
Proof.
  unfold keyed.lookup. induction m as [|[k n] m IH]; simpl; [by rewrite lookup_empty|].
  unfold go_eq, eq_comparable at 1. simpl. case_bool_decide as Hk.
  - subst. by rewrite lookup_insert_eq.
  - by rewrite lookup_insert_ne.
Qed.

Lemma keyed_assign_map (m : keyed.index T) (v : T) (n : loc) :
  (list_to_map (keyed.assign m v n) : gmap T loc) = <[v := n]> (list_to_map m).
Proof.
  induction m as [|[k n'] m IH]; simpl; [done|].
  unfold go_eq, eq_comparable at 1. simpl. case_bool_decide as Hk; simpl.
  - subst. by rewrite insert_insert_eq.
  - rewrite IH. by apply insert_insert_ne.
Qed.

(** On a key type whose [==] is equality, the keyed [AddNode] is the
    [AddNode] of the finite-map model. *)
Lemma keyed_AddNode_refines (g : keyed.DAG T) (v : T) :
  AddNode (forget g) v = (forget (keyed.AddNode g v).1, (keyed.AddNode g v).2).
Proof.
  unfold AddNode, keyed.AddNode, forget. simpl. rewrite keyed_lookup_map.
  destruct (list_to_map (keyed.nodes g) !! v) as [n|]; simpl; [done|].
  by rewrite keyed_assign_map.
Qed.
End keyed_refines.

(** C8 (amended): AddNode is idempotent and identity-preserving for every
    value that is equal to itself under [==].  In every state, a second
    [AddNode] of such a value returns the very pointer the first call
    returned and leaves the whole state, index and nodes, as the first call
    left it; on a key type whose [==] is equality this holds for every
    value. *)
Theorem AddNode_idempotent :
  (∀ (K : Type) (cmp : Comparable K) (d : keyed.DAG K) (v : K),
     go_eq v v = true →
     let r1 := keyed.AddNode d v in
     let r2 := keyed.AddNode r1.1 v in
     r2.2 = r1.2 ∧ r2.1 = r1.1) ∧
  (∀ (T : Type) `(Countable T) (d : DAG T) (v : T),
     let r1 := AddNode d v in
     let r2 := AddNode r1.1 v in
     r2.2 = r1.2 ∧ r2.1 = r1.1).
Proof.
  split.
  - intros K cmp d v Hv. cbv zeta.
    assert (keyed.lookup (keyed.nodes (keyed.AddNode d v).1) v
            = Some (keyed.AddNode d v).2) as Hl.
    { unfold keyed.AddNode. destruct (keyed.lookup (keyed.nodes d) v) eqn:Hd; simpl.
      - done.
      - by apply keyed_lookup_assign. }
    destruct (keyed.AddNode d v) as [d1 n1]; simpl in *.
    unfold keyed.AddNode. by rewrite Hl.
  - intros T ? ? d v. cbv zeta. pose proof (AddNode_lookup d v) as Hl.
    destruct (AddNode d v) as [d1 n1]; simpl in *.
    unfold AddNode. by rewrite Hl.
Qed.

Section claims.
Context {T : Type} `{Countable T}.
Context {order : RangeOrder}.
Variable fmt : T → string.

Implicit Types (h : gmap loc (Node T)) (d : DAG T) (n p c x y : loc) (v : T).

Lemma reachable_run d os d' :
  reachable fmt d → run fmt d os = Some d' → reachable fmt d'.
Proof.
  revert d. induction os as [|o os IH]; intros d Hd; simpl.
  - by intros [= <-].
  - destruct (exec fmt d o) as [d1|] eqn:Hstep; [|done]. simpl.
    apply IH. by eapply reachable_step.
Qed.

Lemma Parents_nil h n : Parents fmt h n = [] ↔ parents_at h n = ∅.
Proof.
  split.
  - intros Hnil. apply set_eq. intros x. rewrite <- elem_of_Parents, Hnil. set_solver.
  - intros Hempty. apply elem_of_nil_inv. intros x.
    rewrite elem_of_Parents, Hempty. set_solver.
Qed.

Lemma Children_nil h n : Children fmt h n = [] ↔ children_at h n = ∅.
Proof.
  split.
  - intros Hnil. apply set_eq. intros x. rewrite <- elem_of_Children, Hnil. set_solver.
  - intros Hempty. apply elem_of_nil_inv. intros x.
    rewrite elem_of_Children, Hempty. set_solver.
Qed.

Lemma AddNode_present d v n : nodes d !! v = Some n → AddNode d v = (d, n).
Proof. intros Hn. unfold AddNode. by rewrite Hn. Qed.

(** C1 (amended): [AddEdge(from, to)] fails with [ErrCycleDetected] exactly
    when, at the moment of the call, [from] and [to] are the same value or
    [from] already has [to] as an ancestor (parent links lead from the node
    of [from] to the node of [to]); in every other case it returns nil and
    leaves [to] among the children of [from] and [from] among the parents
    of [to]. *)
Theorem AddEdge_cycle_iff d from to :
  reachable fmt d →
  ∃ d' e, AddEdge fmt d from to = Some (d', e) ∧
    (e = ErrCycleDetected ↔
       from = to ∨
       ∃ f t, DAG_Node d from = Some f ∧ DAG_Node d to = Some t ∧
              ancestor_of (heap d) t f) ∧
    (e ≠ ErrCycleDetected →
       e = nil_error ∧
       ∃ f t, DAG_Node d' from = Some f ∧ DAG_Node d' to = Some t ∧
              t ∈ children_at (heap d') f ∧ f ∈ parents_at (heap d') t).
Proof.
  intros Hd%reachable_wf. unfold DAG_Node.
  destruct (AddEdge_spec fmt d from to Hd)
    as (d2 & f & t & b & _ & E2 & Hwf2 & Hf & Ht & _ & _ & Hb & ->).
  assert (f ∈ dom (heap d2)) as Hfd by (apply owned_dom; [done|by exists from]).
  assert (t ∈ dom (heap d2)) as Htd by (apply owned_dom; [done|by exists to]).
  assert (∀ v n, nodes d !! v = Some n → nodes d2 !! v = Some n) as Hmono.
  { intros v n Hn. apply (AddNode_lookup_mono d from) in Hn.
    apply (AddNode_lookup_mono _ to) in Hn. by rewrite E2 in Hn. }
  destruct b; eexists _, _; (split; [done|]); split.
  - split; [intros _|done].
    destruct (proj1 Hb eq_refl) as [?|(? & ? & ?)]; [by left|right; eauto].
  - done.
  - split; [done|]. intros Hc. assert (false = true); [|done].
    apply Hb. destruct Hc as [?|(f' & t' & Hf' & Ht' & Hanc)]; [by left|right].
    pose proof (Hmono _ _ Hf') as Hf2. pose proof (Hmono _ _ Ht') as Ht2.
    assert (f' = f) as -> by congruence. assert (t' = t) as -> by congruence.
    done.
  - intros _. split; [done|]. exists f, t. simpl. split_and!; [done..| |].
    + apply elem_of_children_link; [done|by right].
    + apply elem_of_parents_link; [done|by right].
Qed.

(** C2 (amended): when [AddEdge(from, to)] fails with [ErrCycleDetected],
    every node's parent and child sets are what they were before the call,
    and the whole state is unchanged unless [from] and [to] are one value
    that was not yet in the graph: then the call has added that value's
    node, without edges, before it failed. *)
Theorem AddEdge_failure_effect d from to d' :
  reachable fmt d →
  AddEdge fmt d from to = Some (d', ErrCycleDetected) →
  (∀ x, parents_at (heap d') x = parents_at (heap d) x ∧
        children_at (heap d') x = children_at (heap d) x) ∧
  (from ≠ to ∨ is_Some (DAG_Node d from) → d' = d) ∧
  (from = to → DAG_Node d from = None → d' = (AddNode d from).1).
Proof.
  intros Hd%reachable_wf. unfold DAG_Node.
  destruct (AddEdge_spec fmt d from to Hd)
    as (d2 & f & t & b & E1 & E2 & Hwf2 & Hf & Ht & Hpar & Hchi & Hb & ->).
  destruct b; [|done]. intros [= <-]. split_and!.
  - done.
  - intros Hcase.
    assert (∃ f' t', nodes d !! from = Some f' ∧ nodes d !! to = Some t')
      as (f' & t' & Hf' & Ht').
    { destruct (proj1 Hb eq_refl) as [->|(? & ? & _)]; [|eauto].
      destruct Hcase as [?|[n Hn]]; [done|eauto]. }
    rewrite (AddNode_present d from f' Hf') in E2. simpl in E2.
    rewrite (AddNode_present d to t' Ht') in E2. congruence.
  - intros -> Hnone. pose proof (AddNode_lookup d to) as Hl.
    rewrite (AddNode_present _ to _ Hl) in E2. congruence.
Qed.

(** C4: in every state of a run, [Traverse] returns, without error, a
    sequence that holds every node of the graph exactly once and places [a]
    strictly before [b] for every edge [a]→[b], whatever order the range
    statements enumerate the maps in. *)
Theorem Traverse_topological d :
  reachable fmt d →
  ∃ out, Traverse fmt d = Some (out, nil_error) ∧
    NoDup (elems out) ∧
    (∀ n, n ∈ elems out ↔ owned d n) ∧
    (∀ a b, owned d a → b ∈ children_at (heap d) a → before (elems out) a b).
Proof.
  intros Hd%reachable_wf.
  destruct (kahn_loop_correct d fmt Hd (size (inDegree_init d)) (inDegree_init d)
              (seed_queue (inDegree_init d)) nil_slice) as (out & m' & Hout & Hinv).
  { apply kahn_inv_init. }
  { simpl. lia. }
  exists out. unfold Traverse. rewrite Hout. simpl. split_and!; [done| | |].
  - pose proof (kahn_nodup _ _ _ _ Hinv) as Hnd. by rewrite app_nil_r in Hnd.
  - intros n. split.
    + intros Hn. apply (kahn_owned _ _ _ _ Hinv). by rewrite app_nil_r.
    + by apply (kahn_complete d Hd m').
  - intros a b Ha Hb.
    assert (owned d b) as Hbo by (apply (wf_owned _ Hd a); [done|set_solver]).
    apply (kahn_order _ _ _ _ Hinv).
    + by apply (kahn_complete d Hd m').
    + by apply (wf_mutual _ Hd).
Qed.

Lemma size_unvisited_start (U : gset loc) x : x ∈ U → size (U ∖ {[x]}) < size U.
Proof. intros Hx. apply subset_size. set_solver. Qed.

(** [ShortestPath] on any state of a run. *)
Lemma ShortestPath_spec d from to :
  reachable fmt d →
  (DAG_Node d from = None ∨ DAG_Node d to = None →
     ShortestPath fmt d from to = Some nil_slice) ∧
  (∀ f t, DAG_Node d from = Some f → DAG_Node d to = Some t →
     ∃ r, ShortestPath fmt d from to = Some r ∧ shortest_result (heap d) f t r).
Proof.
  intros Hd%reachable_wf. unfold DAG_Node, ShortestPath. split.
  - intros [->| ->]; [done|]. by destruct (nodes d !! from).
  - intros f t Hfrom Hto. rewrite Hfrom, Hto.
    apply (bfs_loop_correct (heap d) f t fmt) with (P := ∅).
    + intros x y Hy. apply (wf_closed _ Hd x). set_solver.
    + apply bfs_inv_start.
    + simpl. rewrite <- size_dom.
      assert (f ∈ dom (heap d)) as Hf by (apply owned_dom; [done|by exists from]).
      pose proof (size_unvisited_start _ _ Hf). lia.
Qed.

(** C10: for every value present in the graph, [HasPath(v, v)] is true and
    [ShortestPath(v, v)] is the one-node path holding the node of [v],
    whatever edges the node has or lacks. *)
Theorem HasPath_ShortestPath_self d v n :
  DAG_Node d v = Some n →
  HasPath fmt d v v = Some true ∧ ShortestPath fmt d v v = Some (slice_of [n]).
Proof.
  unfold DAG_Node, HasPath, ShortestPath. intros ->. simpl.
  by rewrite !decide_True.
Qed.

(** C6 (amended): [n.hasAncestor(n)] returns true for every node, since
    [visit] compares the start node with the candidate before it looks at any
    parent; for a candidate other than [n], [hasAncestor] returns true
    exactly when the candidate is met by walking upward through parents. *)
Theorem hasAncestor_self_and_upward d n :
  reachable fmt d → owned d n →
  hasAncestor fmt (heap d) n n = Some true ∧
  ∀ a, a ≠ n →
    ∃ b, hasAncestor fmt (heap d) n a = Some b ∧ (b = true ↔ ancestor_of (heap d) a n).
Proof.
  intros Hd%reachable_wf Hn. split.
  - unfold hasAncestor. simpl. by rewrite decide_True.
  - intros a Hne.
    destruct (hasAncestor_wf fmt d n a Hd (owned_dom _ _ Hd Hn)) as (b & Hb & Hrtc).
    exists b. split; [done|]. rewrite Hrtc, rtc_tc. unfold ancestor_of. naive_solver.
Qed.

(** C5 (amended): for a value that is not in the graph, [Ancestors] and
    [Descendants] return the nil slice; for a value that is in the graph they
    return the nil slice as well when the node has no parent (no child), and
    a non-nil, non-empty slice otherwise.  So the result tells an absent
    value only from a present one that has an ancestor (a descendant). *)
Theorem Ancestors_Descendants_nil d v :
  reachable fmt d →
  (DAG_Node d v = None →
     Ancestors fmt d v = Some nil_slice ∧ Descendants fmt d v = Some nil_slice) ∧
  (∀ n, DAG_Node d v = Some n →
     (parents_at (heap d) n = ∅ → Ancestors fmt d v = Some nil_slice) ∧
     (parents_at (heap d) n ≠ ∅ →
        ∃ l, l ≠ [] ∧ Ancestors fmt d v = Some (slice_of l)) ∧
     (children_at (heap d) n = ∅ → Descendants fmt d v = Some nil_slice) ∧
     (children_at (heap d) n ≠ ∅ →
        ∃ l, l ≠ [] ∧ Descendants fmt d v = Some (slice_of l))).
Proof.
  intros Hd%reachable_wf. unfold DAG_Node, Ancestors, Descendants. split.
  - by intros ->.
  - intros n Hn. rewrite Hn.
    assert (n ∈ dom (heap d)) as Hdom by (apply owned_dom; [done|by exists v]).
    destruct (visit_collect_start (Parents fmt (heap d)) (dom (heap d))) with (node := n)
      as [HP0 HP1]; [|done|].
    { intros x y _ Hy%elem_of_Parents. apply (wf_closed _ Hd x). set_solver. }
    destruct (visit_collect_start (Children fmt (heap d)) (dom (heap d))) with (node := n)
      as [HC0 HC1]; [|done|].
    { intros x y _ Hy%elem_of_Children. apply (wf_closed _ Hd x). set_solver. }
    rewrite size_dom in HP0, HP1, HC0, HC1. split_and!.
    + intros Hp%Parents_nil. by rewrite HP0.
    + intros Hp. destruct HP1 as (V & l & Hl & ->); [by rewrite Parents_nil|].
      by exists l.
    + intros Hc%Children_nil. by rewrite HC0.
    + intros Hc. destruct HC1 as (V & l & Hl & ->); [by rewrite Children_nil|].
      by exists l.
Qed.

(** C3: in every state of a run, for all nodes [x] and [y] owned by the
    graph, [y] is a child of [x] exactly when [x] is a parent of [y]; and
    whichever operation comes next (AddNode, AddEdge, RemoveNode,
    RemoveEdge, Clear), it runs to a state where this still holds. *)
Theorem mutuality_invariant d :
  reachable fmt d →
  mutuality d ∧ ∀ o, ∃ d', exec fmt d o = Some d' ∧ mutuality d'.
Proof.
  intros Hd. split; [by apply wf_mutual, (reachable_wf fmt)|].
  intros o. destruct (exec_total fmt d o) as [d' Hd']; [by apply (reachable_wf fmt)|].
  exists d'. split; [done|]. apply wf_mutual, (reachable_wf fmt).
  by eapply reachable_step.
Qed.

(** C9: removing a value that is in the graph leaves its node in no
    remaining node's parents or children and makes [Node(v)] nil; removing
    a value that is not in the graph changes nothing.  [RemoveNode] has no
    error result. *)
Theorem RemoveNode_cascades d v :
  reachable fmt d →
  (∀ n, DAG_Node d v = Some n →
     DAG_Node (RemoveNode d v) v = None ∧
     ∀ x, owned (RemoveNode d v) x →
       (n ∉ parents_at (heap (RemoveNode d v)) x) ∧
       (n ∉ children_at (heap (RemoveNode d v)) x)) ∧
  (DAG_Node d v = None → RemoveNode d v = d).
Proof.
  intros Hd%reachable_wf. unfold DAG_Node. split.
  - intros n Hn. pose proof (wf_RemoveNode d v Hd) as Hwf'.
    destruct (RemoveNode_heap d v n Hn) as (Hnodes & _).
    assert (∀ x, owned (RemoveNode d v) x → x ≠ n) as Hne.
    { intros x. destruct (RemoveNode d v) as [ns h']; simpl in *. subst ns.
      rewrite owned_delete by done. naive_solver. }
    split.
    + rewrite Hnodes. apply lookup_delete_eq.
    + intros x Hx. split; intros Hin.
      * apply (Hne n); [|done]. apply (wf_owned _ Hwf' x); [done|set_solver].
      * apply (Hne n); [|done]. apply (wf_owned _ Hwf' x); [done|set_solver].
  - intros Hn. unfold RemoveNode. by rewrite Hn.
Qed.
End claims.

(** ** The properties on concrete graphs *)

Lemma reachable_graph_of (os : list (@op Z)) :
  is_Some (run fmt_int NewDAG os) → reachable fmt_int (graph_of os).
Proof.
  intros [d Hd]. unfold graph_of. rewrite Hd. simpl.
  eapply reachable_run; [apply reachable_new|done].
Qed.

Lemma reachable_g_single : reachable fmt_int g_single.
Proof. apply reachable_graph_of. vm_compute. eauto. Qed.

Lemma reachable_g_edge : reachable fmt_int g_edge.
Proof. apply reachable_graph_of. vm_compute. eauto. Qed.

Lemma reachable_g_paths : reachable fmt_int g_paths.
Proof. apply reachable_graph_of. vm_compute. eauto. Qed.

(** The assertions of [Test_hasAncestor], [TestAncestors] and
    [TestDescendants], replayed on the embedding.  In [g_tree] the value [i]
    sits at pointer [i]. *)
Example Test_hasAncestor :
  hasAncestor fmt_int (heap g_tree) 3 1 = Some true ∧
  hasAncestor fmt_int (heap g_tree) 5 1 = Some true ∧
  hasAncestor fmt_int (heap g_tree) 3 2 = Some true ∧
  hasAncestor fmt_int (heap g_tree) 5 4 = Some true ∧
  hasAncestor fmt_int (heap g_tree) 2 3 = Some false ∧
  hasAncestor fmt_int (heap g_tree) 4 2 = Some false.
Proof. by vm_compute. Qed.

Example TestAncestors :
  Ancestors fmt_int g_tree 5%Z = Some (slice_of [4; 1]%positive) ∧
  Ancestors fmt_int g_tree 3%Z = Some (slice_of [2; 1]%positive) ∧
  Ancestors fmt_int g_tree 999%Z = Some nil_slice.
Proof. by vm_compute. Qed.

Example TestDescendants :
  Descendants fmt_int g_tree 1%Z = Some (slice_of [2; 3; 4; 5]%positive) ∧
  Descendants fmt_int g_tree 2%Z = Some (slice_of [3]%positive) ∧
  Descendants fmt_int g_tree 999%Z = Some nil_slice.
Proof. by vm_compute. Qed.

(** In [g_edge] the value 1 sits at pointer 1 and the value 2 at pointer 2. *)
Lemma g_edge_parent : parent_step (heap g_edge) 2 1.
Proof. unfold parent_step. vm_compute. reflexivity. Qed.

Lemma g_edge_no_parent (y : loc) : ¬ parent_step (heap g_edge) 1 y.
Proof. unfold parent_step. vm_compute. discriminate. Qed.

Lemma g_single_no_parent (y : loc) : ¬ parent_step (heap g_single) 1 y.
Proof. unfold parent_step. vm_compute. discriminate. Qed.

(** C1, as stated, fails on the graph 1→2: there [to = 2] already has
    [from = 1] as an ancestor, and [AddEdge(1, 2)] returns nil; and
    [AddEdge(2, 1)], where [to = 1] has no ancestor at all, fails. *)
Lemma AddEdge_cycle_iff_counterexample :
  reachable fmt_int g_edge ∧
  DAG_Node g_edge 1%Z = Some 1%positive ∧ DAG_Node g_edge 2%Z = Some 2%positive ∧
  ancestor_of (heap g_edge) 1 2 ∧
  snd <$> AddEdge fmt_int g_edge 1%Z 2%Z = Some nil_error ∧
  ¬ ancestor_of (heap g_edge) 2 1 ∧
  snd <$> AddEdge fmt_int g_edge 2%Z 1%Z = Some ErrCycleDetected.
Proof.
  split_and!.
  - exact reachable_g_edge.
  - by vm_compute.
  - by vm_compute.
  - apply tc_once, g_edge_parent.
  - by vm_compute.
  - intros [z Hz]%tc_first_step. by apply (g_edge_no_parent z).
  - by vm_compute.
Qed.

Lemma AddEdge_cycle_iff_witness :
  reachable fmt_int g_edge ∧
  ∃ d' e, AddEdge fmt_int g_edge 2%Z 1%Z = Some (d', e) ∧
    (e = ErrCycleDetected ↔
       2%Z = 1%Z ∨
       ∃ f t, DAG_Node g_edge 2%Z = Some f ∧ DAG_Node g_edge 1%Z = Some t ∧
              ancestor_of (heap g_edge) t f) ∧
    (e ≠ ErrCycleDetected →
       e = nil_error ∧
       ∃ f t, DAG_Node d' 2%Z = Some f ∧ DAG_Node d' 1%Z = Some t ∧
              t ∈ children_at (heap d') f ∧ f ∈ parents_at (heap d') t).
Proof.
  split; [exact reachable_g_edge|].
  exact (AddEdge_cycle_iff fmt_int g_edge 2%Z 1%Z reachable_g_edge).
Defined.

(** C2, as stated, fails on the empty graph: [AddEdge(1, 1)] fails with
    [ErrCycleDetected] and leaves the value 1 in the index. *)
Lemma AddEdge_failure_effect_counterexample :
  reachable fmt_int (NewDAG (T:=Z)) ∧
  ∃ d', AddEdge fmt_int NewDAG 1%Z 1%Z = Some (d', ErrCycleDetected) ∧
        DAG_Node NewDAG 1%Z = None ∧ DAG_Node d' 1%Z = Some 1%positive ∧
        d' ≠ NewDAG.
Proof.
  split; [apply reachable_new|].
  eexists. split; [by vm_compute|]. split_and!; [by vm_compute..|].
  intros Heq. apply (f_equal (λ d, nodes d !! 1%Z)) in Heq. by vm_compute in Heq.
Qed.

Lemma AddEdge_failure_effect_witness :
  reachable fmt_int g_edge ∧
  AddEdge fmt_int g_edge 2%Z 1%Z = Some (g_edge, ErrCycleDetected) ∧
  ((∀ x, parents_at (heap g_edge) x = parents_at (heap g_edge) x ∧
         children_at (heap g_edge) x = children_at (heap g_edge) x) ∧
   (2%Z ≠ 1%Z ∨ is_Some (DAG_Node g_edge 2%Z) → g_edge = g_edge) ∧
   (2%Z = 1%Z → DAG_Node g_edge 2%Z = None → g_edge = (AddNode g_edge 2%Z).1)).
Proof.
  assert (AddEdge fmt_int g_edge 2%Z 1%Z = Some (g_edge, ErrCycleDetected)) as Hfail
    by (by vm_compute).
  split; [exact reachable_g_edge|]. split; [exact Hfail|].
  exact (AddEdge_failure_effect fmt_int g_edge 2%Z 1%Z g_edge reachable_g_edge Hfail).
Defined.

Lemma mutuality_invariant_witness :
  reachable fmt_int g_paths ∧
  (mutuality g_paths ∧ ∀ o, ∃ d', exec fmt_int g_paths o = Some d' ∧ mutuality d').
Proof.
  split; [exact reachable_g_paths|].
  exact (mutuality_invariant fmt_int g_paths reachable_g_paths).
Defined.

(** C5, as stated, fails on the one-node graph: the value 1 is present and
    has no ancestors or descendants, the value 2 is absent, and [Ancestors]
    and [Descendants] return the same nil slice for both. *)
Lemma Ancestors_Descendants_nil_counterexample :
  reachable fmt_int g_single ∧
  DAG_Node g_single 1%Z = Some 1%positive ∧ DAG_Node g_single 2%Z = None ∧
  Ancestors fmt_int g_single 1%Z = Some nil_slice ∧
  Ancestors fmt_int g_single 2%Z = Some nil_slice ∧
  Descendants fmt_int g_single 1%Z = Some nil_slice ∧
  Descendants fmt_int g_single 2%Z = Some nil_slice.
Proof. split; [exact reachable_g_single|by vm_compute]. Qed.

Lemma Ancestors_Descendants_nil_witness :
  reachable fmt_int g_edge ∧
  ((DAG_Node g_edge 2%Z = None →
      Ancestors fmt_int g_edge 2%Z = Some nil_slice ∧
      Descendants fmt_int g_edge 2%Z = Some nil_slice) ∧
   (∀ n, DAG_Node g_edge 2%Z = Some n →
      (parents_at (heap g_edge) n = ∅ → Ancestors fmt_int g_edge 2%Z = Some nil_slice) ∧
      (parents_at (heap g_edge) n ≠ ∅ →
         ∃ l, l ≠ [] ∧ Ancestors fmt_int g_edge 2%Z = Some (slice_of l)) ∧
      (children_at (heap g_edge) n = ∅ →
         Descendants fmt_int g_edge 2%Z = Some nil_slice) ∧
      (children_at (heap g_edge) n ≠ ∅ →
         ∃ l, l ≠ [] ∧ Descendants fmt_int g_edge 2%Z = Some (slice_of l)))).
Proof.
  split; [exact reachable_g_edge|].
  exact (Ancestors_Descendants_nil fmt_int g_edge 2%Z reachable_g_edge).
Defined.

(** C6, as stated, fails on the one-node graph: no parent link leaves the
    node, so there is no cycle back to it, and [hasAncestor] of the node on
    itself is true. *)
Lemma hasAncestor_self_counterexample :
  reachable fmt_int g_single ∧
  owned g_single 1 ∧ ¬ ancestor_of (heap g_single) 1 1 ∧
  hasAncestor fmt_int (heap g_single) 1 1 = Some true.
Proof.
  split_and!.
  - exact reachable_g_single.
  - exists 1%Z. by vm_compute.
  - intros [z Hz]%tc_first_step. by apply (g_single_no_parent z).
  - by vm_compute.
Qed.

Lemma owned_g_edge_2 : owned g_edge 2.
Proof. exists 2%Z. by vm_compute. Qed.

Lemma hasAncestor_self_and_upward_witness :
  reachable fmt_int g_edge ∧ owned g_edge 2 ∧
  (hasAncestor fmt_int (heap g_edge) 2 2 = Some true ∧
   ∀ a, a ≠ 2%positive →
     ∃ b, hasAncestor fmt_int (heap g_edge) 2 a = Some b ∧
          (b = true ↔ ancestor_of (heap g_edge) a 2)).
Proof.
  split; [exact reachable_g_edge|]. split; [exact owned_g_edge_2|].
  exact (hasAncestor_self_and_upward fmt_int g_edge 2 reachable_g_edge owned_g_edge_2).
Defined.

Lemma RemoveNode_cascades_witness :
  reachable fmt_int g_paths ∧
  ((∀ n, DAG_Node g_paths 2%Z = Some n →
      DAG_Node (RemoveNode g_paths 2%Z) 2%Z = None ∧
      ∀ x, owned (RemoveNode g_paths 2%Z) x →
        (n ∉ parents_at (heap (RemoveNode g_paths 2%Z)) x) ∧
        (n ∉ children_at (heap (RemoveNode g_paths 2%Z)) x)) ∧
   (DAG_Node g_paths 2%Z = None → RemoveNode g_paths 2%Z = g_paths)).
Proof.
  split; [exact reachable_g_paths|].
  exact (RemoveNode_cascades fmt_int g_paths 2%Z reachable_g_paths).
Defined.

(** C8, as stated, fails for the value NaN of [DAG[float64]]: NaN is not
    [==] to itself, so on the empty graph the first [AddNode(NaN)] returns
    the node at pointer 1, the second allocates the node at pointer 2, and
    the index holds two entries afterwards. *)
Lemma AddNode_idempotent_counterexample :
  go_eq NaN NaN = false ∧
  let r1 := keyed.AddNode (keyed.NewDAG (K := float64)) NaN in
  let r2 := keyed.AddNode r1.1 NaN in
  r1.2 = 1%positive ∧ r2.2 = 2%positive ∧ r2.2 ≠ r1.2 ∧
  length (keyed.nodes r1.1) = 1 ∧ length (keyed.nodes r2.1) = 2 ∧
  size (keyed.heap r1.1) = 1 ∧ size (keyed.heap r2.1) = 2 ∧
  r2.1 ≠ r1.1.
Proof.
  split; [reflexivity|]. cbv zeta.
  assert (keyed.AddNode (keyed.NewDAG (K := float64)) NaN
          = (keyed.mkDAG [(NaN, 1%positive)] {[1%positive := NewNode NaN]}, 1%positive))
    as ->.
  { by vm_compute. }
  simpl.
  split_and!; try done.
Qed.

Lemma AddNode_idempotent_witness :
  go_eq (PrimFloat.one : float64) PrimFloat.one = true ∧
  (let r1 := keyed.AddNode (keyed.NewDAG (K := float64)) PrimFloat.one in
   let r2 := keyed.AddNode r1.1 PrimFloat.one in
   r2.2 = r1.2 ∧ r2.1 = r1.1).
Proof.
  split; [reflexivity|].
  exact (proj1 AddNode_idempotent float64 float64_comparable keyed.NewDAG PrimFloat.one
           eq_refl).
Defined.

Lemma DAG_Node_g_single : DAG_Node g_single 1%Z = Some 1%positive.
Proof. by vm_compute. Qed.

Lemma HasPath_ShortestPath_self_witness :
  DAG_Node g_single 1%Z = Some 1%positive ∧
  (HasPath fmt_int g_single 1%Z 1%Z = Some true ∧
   ShortestPath fmt_int g_single 1%Z 1%Z = Some (slice_of [1%positive])).
Proof.
  split; [exact DAG_Node_g_single|].
  exact (HasPath_ShortestPath_self fmt_int g_single 1%Z 1 DAG_Node_g_single).
Defined.

Lemma Traverse_topological_witness :
  reachable fmt_int g_paths ∧
  ∃ out, Traverse fmt_int g_paths = Some (out, nil_error) ∧
    NoDup (elems out) ∧
    (∀ n, n ∈ elems out ↔ owned g_paths n) ∧
    (∀ a b, owned g_paths a → b ∈ children_at (heap g_paths) a → before (elems out) a b).
Proof.
  split; [exact reachable_g_paths|].
  exact (Traverse_topological fmt_int g_paths reachable_g_paths).
Defined.

(** C7: [ShortestPath(from, to)] returns nil when either endpoint is missing
    or no directed path leads from [from] to [to]; otherwise it returns a
    path from [from] to [to] that no other such path undercuts in length.  In
    the graph 1→2, 2→3, 1→4, 4→3, 2→5, 6→7 it returns the nodes of 1, 2, 5
    for (1, 5) and nil for (1, 7). *)
Theorem ShortestPath_shortest :
  (∀ (T : Type) `(Countable T) (order : RangeOrder) (fmt : T → string)
     (d : DAG T) (from to : T),
     reachable fmt d →
     (DAG_Node d from = None ∨ DAG_Node d to = None →
        ShortestPath fmt d from to = Some nil_slice) ∧
     (∀ f t, DAG_Node d from = Some f → DAG_Node d to = Some t →
        ((∀ l, ¬ path_to (heap d) f l t) →
           ShortestPath fmt d from to = Some nil_slice) ∧
        ((∃ l, path_to (heap d) f l t) →
           ∃ l, ShortestPath fmt d from to = Some (slice_of l) ∧
                path_to (heap d) f l t ∧
                ∀ l', path_to (heap d) f l' t → length l ≤ length l'))) ∧
  (∃ l, ShortestPath fmt_int g_paths 1%Z 5%Z = Some (slice_of l) ∧
        values (heap g_paths) l = [1; 2; 5]%Z) ∧
  ShortestPath fmt_int g_paths 1%Z 7%Z = Some nil_slice.
Proof.
  split_and!.
  - intros T ? ? order fmt d from to Hd.
    destruct (ShortestPath_spec fmt d from to Hd) as [Hmissing Hpresent].
    split; [done|]. intros f t Hf Ht.
    destruct (Hpresent f t Hf Ht) as ([|l] & -> & Hr); simpl in Hr.
    + split; [done|]. intros [l Hl]. by destruct (Hr l).
    + destruct Hr as [Hl Hmin]. split; [|by exists l].
      intros Hnone. by destruct (Hnone l).
  - eexists. split; by vm_compute.
  - by vm_compute.
Qed.

Lemma ShortestPath_shortest_witness :
  reachable fmt_int g_paths ∧
  ((DAG_Node g_paths 1%Z = None ∨ DAG_Node g_paths 5%Z = None →
      ShortestPath fmt_int g_paths 1%Z 5%Z = Some nil_slice) ∧
   (∀ f t, DAG_Node g_paths 1%Z = Some f → DAG_Node g_paths 5%Z = Some t →
      ((∀ l, ¬ path_to (heap g_paths) f l t) →
         ShortestPath fmt_int g_paths 1%Z 5%Z = Some nil_slice) ∧
      ((∃ l, path_to (heap g_paths) f l t) →
         ∃ l, ShortestPath fmt_int g_paths 1%Z 5%Z = Some (slice_of l) ∧
              path_to (heap g_paths) f l t ∧
              ∀ l', path_to (heap g_paths) f l' t → length l ≤ length l'))).
Proof.
  split; [exact reachable_g_paths|].
  exact (proj1 ShortestPath_shortest Z _ _ elements_order fmt_int g_paths 1%Z 5%Z
           reachable_g_paths).
Defined.

(** * Properties beyond the specification *)

(** * The remaining queries and walks: proofs *)

(** ** The collecting search gathers exactly the reachable nodes *)

Section collect_facts.
Variable next : loc → list loc.

Lemma collect_loop_post rec :
  (∀ p st r, rec p st = Some r →
     collect_post next st.1 st.2 (λ x, tc (next_step next) p x) (next p) r) →
  ∀ ps st r, collect_loop rec ps st = Some r →
    collect_post next st.1 st.2 (λ x, ∃ p, p ∈ ps ∧ rtc (next_step next) p x) ps r.
Proof.
  intros Hrec ps. induction ps as [|p ps IH]; intros st r; simpl.
  - intros [= <-]. split_and!; [done|set_solver|set_solver|].
    exists []. rewrite app_nil_r. split_and!; [done|constructor|set_solver|set_solver].
  - destruct (decide (p ∈ st.1)) as [Hin|Hnin].
    + intros Hr. destruct (IH _ _ Hr) as (H1 & H2 & H3 & l & Hl1 & Hl2 & Hl3 & Hl4).
      split_and!; [done|set_solver|done|]. exists l. split_and!; [done..|].
      intros x Hx. destruct (Hl4 x Hx) as (q & Hq & Hrtc). exists q. split; [by right|done].
    + destruct (rec p ({[p]} ∪ st.1, append st.2 p)) as [st2|] eqn:Hp; [|done].
      intros Hr.
      destruct (Hrec _ _ _ Hp) as (A1 & A2 & A3 & l1 & Al1 & Al2 & Al3 & Al4).
      destruct (IH _ _ Hr) as (B1 & B2 & B3 & l2 & Bl1 & Bl2 & Bl3 & Bl4).
      simpl in *. split_and!.
      * set_solver.
      * intros q [->|Hq]%elem_of_cons; [set_solver|by apply B2].
      * intros x y Hx HxV Hy.
        destruct (decide (x ∈ st2.1)) as [Hx2|Hx2]; [|by eapply B3].
        apply B1. destruct (decide (x = p)) as [->|Hxp]; [by apply A2|].
        eapply A3; [done|set_solver|done].
      * exists (p :: l1 ++ l2). split_and!.
        -- rewrite Bl1, Al1. by rewrite <- !app_assoc.
        -- apply NoDup_cons. split; [|apply NoDup_app; split_and!; [done| |done]].
           ++ intros [Hp1|Hp2]%elem_of_app.
              ** apply Al3 in Hp1. set_solver.
              ** apply Bl3 in Hp2. set_solver.
           ++ intros x Hx1 Hx2. apply Al3 in Hx1. apply Bl3 in Hx2. set_solver.
        -- intros x. rewrite elem_of_cons, elem_of_app, Al3, Bl3.
           destruct (decide (x = p)) as [->|]; [set_solver|].
           destruct (decide (x ∈ st2.1)); set_solver.
        -- intros x [->|[Hx|Hx]%elem_of_app]%elem_of_cons.
           ++ exists p. split; [by left|done].
           ++ exists p. split; [by left|]. by apply tc_rtc, Al4.
           ++ destruct (Bl4 x Hx) as (q & Hq & Hrtc). exists q. split; [by right|done].
Qed.

Lemma visit_collect_post (f : nat) : ∀ node st r,
  visit_collect next f node st = Some r →
  collect_post next st.1 st.2 (λ x, tc (next_step next) node x) (next node) r.
Proof.
  induction f as [|f IH]; intros node st r; simpl; [done|].
  intros Hr. destruct (collect_loop_post _ IH _ _ _ Hr) as (H1 & H2 & H3 & l & Hl1 & Hl2 & Hl3 & Hl4).
  split_and!; [done..|]. exists l. split_and!; [done..|].
  intros x Hx. destruct (Hl4 x Hx) as (p & Hp & Hrtc).
  eapply tc_rtc_r; [|done]. by apply tc_once.
Qed.

(** Started from nothing, the search returns the nodes one or more steps
    away, each once. *)
Lemma visit_collect_exact (f : nat) node r :
  visit_collect next f node (∅, nil_slice) = Some r →
  NoDup (elems r.2) ∧ ∀ x, x ∈ elems r.2 ↔ tc (next_step next) node x.
Proof.
  intros Hr. destruct (visit_collect_post _ _ _ _ Hr) as (H1 & H2 & H3 & l & Hl1 & Hl2 & Hl3 & Hl4).
  simpl in *. subst l. split; [done|]. intros x. split; [by apply Hl4|].
  intros Htc. apply Hl3. split; [|set_solver].
  assert (∀ a b, tc (next_step next) a b → (∀ y, y ∈ next a → y ∈ r.1) → b ∈ r.1) as Hclosed.
  { clear Htc x. intros a b Htc. induction Htc as [a b Hab|a y b Hay _ IHtc]; intros Ha.
    - by apply Ha.
    - apply IHtc. intros z Hz. apply (H3 y); [by apply Ha|set_solver|done]. }
  by apply (Hclosed node).
Qed.

(** Started with the start node already visited and recorded, it returns
    the start node followed by everything reachable from it, each once. *)
Lemma visit_collect_exact_start (f : nat) node r :
  visit_collect next f node ({[node]}, slice_of [node]) = Some r →
  ∃ l, elems r.2 = node :: l ∧ NoDup (node :: l) ∧
       ∀ x, x ∈ node :: l ↔ rtc (next_step next) node x.
Proof.
  intros Hr. destruct (visit_collect_post _ _ _ _ Hr) as (H1 & H2 & H3 & l & Hl1 & Hl2 & Hl3 & Hl4).
  simpl in *. exists l. split_and!; [done| |].
  - apply NoDup_cons. split; [|done]. intros Hn%Hl3. set_solver.
  - intros x. split.
    + intros [->|Hx]%elem_of_cons; [done|]. by apply tc_rtc, Hl4.
    + intros Hrtc.
      assert (∀ a b, rtc (next_step next) a b → a ∈ r.1 → b ∈ r.1) as Hclosed.
      { clear Hrtc x. intros a b Hrtc. induction Hrtc as [a|a y b Hay _ IHr]; [done|].
        intros Ha. apply IHr. destruct (decide (a = node)) as [->|Hne]; [by apply H2|].
        apply (H3 a); [done|set_solver|done]. }
      assert (x ∈ r.1) as Hx by (apply (Hclosed node); [done|set_solver]).
      destruct (decide (x = node)) as [->|Hne]; [by left|].
      right. apply Hl3. set_solver.
Qed.
End collect_facts.

(** ** Walk and ReverseWalk *)

Section walk_facts.
Variable next : loc → list loc.

(** A finished [walk] is a finished collecting search from the same state. *)
Lemma walk_loop_collect (f : nat) : ∀ cs st r,
  walk_loop (walk_visit next f) cs st = Some r →
  collect_loop (visit_collect next f) cs (st.1, slice_of st.2) = Some (r.1, slice_of r.2).
Proof.
  induction f as [|f IHf]; intros cs; induction cs as [|c cs IHcs]; intros st r; simpl.
  - by intros [= <-].
  - done.
  - by intros [= <-].
  - destruct (decide (c ∈ st.1)) as [Hin|Hnin]; [by apply IHcs|].
    destruct (walk_loop (walk_visit next f) (next c) ({[c]} ∪ st.1, st.2 ++ [c]))
      as [st1|] eqn:Hc; [|done].
    intros Hr. apply IHf in Hc. simpl in Hc. unfold append. simpl. rewrite Hc.
    by apply IHcs.
Qed.

Variable U : gset loc.
Hypothesis U_closed : ∀ x y, x ∈ U → y ∈ next x → y ∈ U.

Lemma walk_loop_total rec (f : nat) :
  (∀ c st, c ∈ U → (c ∉ st.1 → size (U ∖ st.1) < f) → 0 < f →
     ∃ st', rec c st = Some st' ∧ st.1 ⊆ st'.1) →
  0 < f →
  ∀ cs st, (∀ c, c ∈ cs → c ∈ U) → size (U ∖ st.1) < f →
    ∃ st', walk_loop rec cs st = Some st' ∧ st.1 ⊆ st'.1.
Proof.
  intros Hrec Hf cs. induction cs as [|c cs IH]; intros st Hcs Hsz; simpl.
  - by exists st.
  - destruct (Hrec c st) as (st1 & -> & H1); [apply Hcs; by left|done|done|].
    destruct (IH st1) as (st' & -> & H2).
    + intros c' Hc'. apply Hcs. by right.
    + pose proof (size_unvisited_mono U st.1 st1.1 H1). lia.
    + exists st'. split; [done|]. set_solver.
Qed.

Lemma walk_visit_total (f : nat) : ∀ node st,
  node ∈ U → (node ∉ st.1 → size (U ∖ st.1) < f) → 0 < f →
  ∃ st', walk_visit next f node st = Some st' ∧ st.1 ⊆ st'.1.
Proof.
  induction f as [|f IH]; intros node st HU Hsz Hf; [lia|]. simpl.
  destruct (decide (node ∈ st.1)) as [Hin|Hnin]; [by exists st|].
  pose proof (size_unvisited_mark U st.1 node HU Hnin) as Hm.
  specialize (Hsz Hnin).
  destruct (walk_loop_total (walk_visit next f) f IH) with (cs := next node)
    (st := ({[node]} ∪ st.1, st.2 ++ [node])) as (st' & -> & Hst').
  - lia.
  - intros c Hc. by apply (U_closed node).
  - simpl. lia.
  - exists st'. split; [done|]. simpl in Hst'. set_solver.
Qed.

(** [walk(startNode)] hands [visit] the start node first and then every node
    reachable from it, each exactly once. *)
Lemma walk_visit_exact (node : loc) :
  node ∈ U →
  ∃ V l, walk_visit next (S (size U)) node (∅, []) = Some (V, node :: l) ∧
         NoDup (node :: l) ∧ ∀ x, x ∈ node :: l ↔ rtc (next_step next) node x.
Proof.
  intros HU.
  destruct (walk_visit_total (S (size U)) node (∅, [])) as ([V tr] & Hr & _); [done| |lia|].
  { intros _. simpl. assert (U ∖ ∅ = U) as -> by set_solver. lia. }
  pose proof Hr as Hr'. simpl in Hr'. rewrite decide_False in Hr' by set_solver.
  apply walk_loop_collect in Hr'. simpl in Hr'.
  assert (({[node]} ∪ ∅ : gset loc) = {[node]}) as Heq by set_solver.
  rewrite Heq in Hr'.
  destruct (visit_collect_exact_start next (S (size U)) node (V, slice_of tr) Hr')
    as (l & Hl & Hnd & Hreach).
  simpl in Hl. subst tr. by exists V, l.
Qed.
End walk_facts.

(** ** BreadthFirstWalk and ReverseBreadthFirstWalk *)

Lemma head_app_Some {A} (l k : list A) (x : A) : head l = Some x → head (l ++ k) = Some x.
Proof. by destruct l. Qed.

Section bfs_walk_facts.
Variable next : loc → list loc.
Variable start : loc.

(** The inner loop queues the unseen children, each once. *)
Lemma enqueue_fold cs : ∀ q V,
  ∃ new, (foldl enqueue_unseen (q, V) cs).1 = q ++ new ∧ NoDup new ∧
         (∀ x, x ∈ new ↔ x ∈ cs ∧ x ∉ V) ∧
         (∀ x, x ∈ (foldl enqueue_unseen (q, V) cs).2 ↔ x ∈ V ∨ x ∈ cs).
Proof.
  induction cs as [|c cs IH]; intros q V; simpl.
  - exists []. rewrite app_nil_r. split_and!; [done|constructor|set_solver|set_solver].
  - unfold enqueue_unseen at 2 4. simpl. destruct (decide (c ∈ V)) as [Hin|Hnin].
    + destruct (IH q V) as (new & H1 & H2 & H3 & H4). exists new.
      split_and!; [done..| |]; intros x; [rewrite H3|rewrite H4]; set_solver.
    + destruct (IH (q ++ [c]) ({[c]} ∪ V)) as (new & H1 & H2 & H3 & H4).
      exists (c :: new). split_and!.
      * by rewrite H1, <- app_assoc.
      * apply NoDup_cons. split; [|done]. intros Hc%H3. set_solver.
      * intros x. rewrite elem_of_cons, H3. destruct (decide (x = c)); set_solver.
      * intros x. rewrite H4. set_solver.
Qed.

Lemma walk_inv_step cur q V trace :
  walk_inv next start (cur :: q) V trace →
  walk_inv next start (foldl enqueue_unseen (q, V) (next cur)).1
    (foldl enqueue_unseen (q, V) (next cur)).2 (trace ++ [cur]).
Proof.
  intros [Hnd Hvis Hreach Hclosed Hfirst].
  destruct (enqueue_fold (next cur) q V) as (new & -> & Hnew & Hin & HV').
  assert ((trace ++ [cur]) ++ q ++ new = (trace ++ cur :: q) ++ new) as Hlist
    by (by rewrite <- !app_assoc).
  split.
  - rewrite Hlist. apply NoDup_app. split_and!; [done| |done].
    intros x Hx [_ Hn]%Hin. by apply Hn, Hvis.
  - intros x. rewrite Hlist, HV', elem_of_app, Hvis, Hin.
    destruct (decide (x ∈ V)) as [HxV|HxV]; [|rewrite <- Hvis; tauto].
    apply Hvis in HxV. tauto.
  - intros x [Hx|Hx]%HV'; [by apply Hreach|].
    eapply rtc_r; [|exact Hx]. apply Hreach, Hvis. set_solver.
  - intros x y [Hx|Hx]%elem_of_app Hy.
    + apply HV'. left. by eapply Hclosed.
    + apply list_elem_of_singleton in Hx as ->. apply HV'. by right.
  - rewrite Hlist. by apply head_app_Some.
Qed.

Variable U : gset loc.
Hypothesis U_closed : ∀ x y, x ∈ U → y ∈ next x → y ∈ U.

Lemma enqueue_measure cs : ∀ q V,
  (∀ c, c ∈ cs → c ∈ U) →
  size (U ∖ (foldl enqueue_unseen (q, V) cs).2) + length (foldl enqueue_unseen (q, V) cs).1
  ≤ size (U ∖ V) + length q.
Proof.
  induction cs as [|c cs IH]; intros q V Hcs; simpl; [done|].
  assert (∀ c', c' ∈ cs → c' ∈ U) as Hcs' by (intros c' ?; apply Hcs; by right).
  unfold enqueue_unseen at 2 4. simpl. destruct (decide (c ∈ V)) as [Hin|Hnin].
  - by apply IH.
  - etrans; [by apply IH|]. rewrite length_app. simpl.
    pose proof (size_unvisited_mark U V c (Hcs c ltac:(by left)) Hnin). lia.
Qed.

Lemma bfs_walk_loop_correct (fuel : nat) : ∀ q V trace,
  walk_inv next start q V trace → (∀ x, x ∈ V → x ∈ U) →
  size (U ∖ V) + length q < fuel →
  ∃ out V', bfs_walk_loop next fuel q V trace = Some out ∧ walk_inv next start [] V' out.
Proof.
  induction fuel as [|fuel IH]; intros q V trace Hinv HVU Hsz; [lia|].
  destruct q as [|cur q]; simpl; [by exists trace, V|].
  assert (cur ∈ U) as Hcur by (apply HVU, (walk_visited _ _ _ _ _ Hinv); set_solver).
  assert (∀ c, c ∈ next cur → c ∈ U) as Hcs by (intros c; apply U_closed; done).
  apply IH.
  - by apply walk_inv_step.
  - intros x. destruct (enqueue_fold (next cur) q V) as (new & _ & _ & _ & HV').
    rewrite HV'. intros [?|?]; auto.
  - pose proof (enqueue_measure (next cur) q V Hcs). simpl in Hsz. lia.
Qed.

(** The breadth-first walk hands [visit] the start node first and then every
    node reachable from it, each exactly once. *)
Lemma bfs_walk_exact :
  start ∈ U →
  ∃ l, bfs_walk_loop next (S (size U)) [start] {[start]} [] = Some (start :: l) ∧
       NoDup (start :: l) ∧ ∀ x, x ∈ start :: l ↔ rtc (next_step next) start x.
Proof.
  intros HU.
  destruct (bfs_walk_loop_correct (S (size U)) [start] {[start]} [])
    as (out & V' & Hout & [Hnd Hvis Hreach Hclosed Hfirst]).
  - split; simpl.
    + apply NoDup_singleton.
    + intros x. set_solver.
    + intros x ->%elem_of_singleton. done.
    + intros x y Hx. by apply elem_of_nil in Hx.
    + done.
  - intros x ->%elem_of_singleton. done.
  - pose proof (size_unvisited_mark U ∅ start HU) as Hm.
    assert (U ∖ ∅ = U) as HU0 by set_solver. rewrite HU0 in Hm. simpl.
    assert (size (U ∖ {[start]}) < size U); [|lia].
    apply subset_size. set_solver.
  - rewrite app_nil_r in *. destruct out as [|s l]; [done|]. simpl in Hfirst.
    injection Hfirst as ->. exists l. split_and!; [done..|].
    intros x. split; [by intros Hx%Hvis%Hreach|].
    intros Hrtc.
    assert (∀ a b, rtc (next_step next) a b → a ∈ start :: l → b ∈ start :: l) as Hcl.
    { clear Hrtc x. intros a b Hrtc. induction Hrtc as [a|a y b Hay _ IHr]; [done|].
      intros Ha. apply IHr, Hvis. by apply (Hclosed a). }
    apply (Hcl start); [done|by left].
Qed.
End bfs_walk_facts.

(** ** Reachability in a well-formed graph *)

Section reach_facts.
Context {T : Type} `{Countable T}.
Variable d : DAG T.
Hypothesis d_wf : wf d.

Implicit Types (n x y : loc) (l : list loc).

Lemma child_parent_step x y :
  owned d x → child_step (heap d) x y → owned d y ∧ parent_step (heap d) y x.
Proof.
  intros Hx Hy. unfold child_step, parent_step in *.
  assert (owned d y) as Hyo by (apply (wf_owned _ d_wf x); [done|set_solver]).
  split; [done|]. by apply (wf_mutual _ d_wf).
Qed.

Lemma parent_child_step x y :
  owned d x → parent_step (heap d) x y → owned d y ∧ child_step (heap d) y x.
Proof.
  intros Hx Hy. unfold child_step, parent_step in *.
  assert (owned d y) as Hyo by (apply (wf_owned _ d_wf x); [done|set_solver]).
  split; [done|]. by apply (wf_mutual _ d_wf).
Qed.

Lemma rtc_child_owned x y : owned d x → rtc (child_step (heap d)) x y → owned d y.
Proof.
  intros Hx Hrtc. induction Hrtc as [|a b c Hab _ IH]; [done|].
  apply IH. by apply (child_parent_step a).
Qed.

Lemma rtc_parent_owned x y : owned d x → rtc (parent_step (heap d)) x y → owned d y.
Proof.
  intros Hx Hrtc. induction Hrtc as [|a b c Hab _ IH]; [done|].
  apply IH. by apply (parent_child_step a).
Qed.

(** Walking up from [x] to [y] is walking down from [y] to [x]. *)
Lemma tc_parent_child x y :
  owned d x → tc (parent_step (heap d)) x y → tc (child_step (heap d)) y x.
Proof.
  intros Hx Htc. induction Htc as [a b Hab|a b c Hab _ IH].
  - apply tc_once. by apply (parent_child_step a).
  - destruct (parent_child_step a b Hx Hab) as [Hb Hba].
    eapply tc_r; [by apply IH|done].
Qed.

Lemma tc_child_parent x y :
  owned d x → tc (child_step (heap d)) x y → tc (parent_step (heap d)) y x.
Proof.
  intros Hx Htc. induction Htc as [a b Hab|a b c Hab _ IH].
  - apply tc_once. by apply (child_parent_step a).
  - destruct (child_parent_step a b Hx Hab) as [Hb Hba].
    eapply tc_r; [by apply IH|done].
Qed.

(** No owned node is its own ancestor. *)
Lemma tc_child_rank (rank : loc → nat) x y :
  (∀ a b, owned d a → owned d b → b ∈ children_at (heap d) a → rank a < rank b) →
  owned d x → tc (child_step (heap d)) x y → rank x < rank y.
Proof.
  intros Hrank Hx Htc. induction Htc as [a b Hab|a b c Hab _ IH].
  - destruct (child_parent_step a b Hx Hab) as [Hb _]. by apply Hrank.
  - destruct (child_parent_step a b Hx Hab) as [Hb _].
    specialize (IH Hb). pose proof (Hrank a b Hx Hb Hab). lia.
Qed.

Lemma no_cycle x : owned d x → ¬ tc (child_step (heap d)) x x.
Proof.
  intros Hx Htc. destruct (wf_acyclic _ d_wf) as [rank Hrank].
  pose proof (tc_child_rank rank x x Hrank Hx Htc). lia.
Qed.

(** Paths are chains of child links. *)
Lemma path_to_rtc x l y : path_to (heap d) x l y → rtc (child_step (heap d)) x y.
Proof. induction 1 as [|l b c _ IH Hc]; [done|]. by eapply rtc_r. Qed.

Lemma rtc_path_to x y : rtc (child_step (heap d)) x y → ∃ l, path_to (heap d) x l y.
Proof.
  revert y. apply (rtc_ind_r (λ y, ∃ l, path_to (heap d) x l y)).
  - exists [x]. constructor.
  - intros b c _ Hbc [l Hl]. exists (l ++ [c]). by eapply path_snoc.
Qed.

(** The values of a list of owned nodes. *)
Lemma values_owned l :
  (∀ x, x ∈ l → owned d x) →
  Forall2 (λ x v, nodes d !! v = Some x) l (values (heap d) l).
Proof.
  induction l as [|x l IH]; intros Hl; [constructor|].
  destruct (Hl x) as [v Hv]; [by left|].
  pose proof (wf_index _ d_wf v x Hv) as Hdata. unfold data_at in Hdata.
  unfold values. simpl. rewrite Hdata. constructor; [done|].
  apply IH. intros y Hy. apply Hl. by right.
Qed.

Lemma elem_of_values l w :
  (∀ x, x ∈ l → owned d x) →
  w ∈ values (heap d) l ↔ ∃ x, x ∈ l ∧ nodes d !! w = Some x.
Proof.
  intros Hl. pose proof (values_owned l Hl) as HF. clear Hl.
  induction HF as [|x v l vs Hxv _ IH].
  - split; [by intros ?%elem_of_nil|]. by intros (x & ?%elem_of_nil & _).
  - rewrite elem_of_cons, IH. split.
    + intros [->|(y & Hy & Hw)]; [exists x|exists y]; (split; [set_solver|done]).
    + intros (y & [->|Hy]%elem_of_cons & Hw); [left|right; eauto].
      by eapply index_inj.
Qed.

Lemma values_cons x l v :
  nodes d !! v = Some x → values (heap d) (x :: l) = v :: values (heap d) l.
Proof.
  intros Hv. pose proof (wf_index _ d_wf v x Hv) as Hdata. unfold data_at in Hdata.
  unfold values. simpl. by rewrite Hdata.
Qed.

Lemma NoDup_values l :
  (∀ x, x ∈ l → owned d x) → NoDup l → NoDup (values (heap d) l).
Proof.
  induction l as [|x l IH]; intros Hl Hnd; [constructor|].
  destruct (Hl x) as [v Hv]; [by left|]. rewrite (values_cons x l v Hv).
  apply NoDup_cons in Hnd as [Hx Hnd].
  assert (∀ y, y ∈ l → owned d y) as Hl' by (intros y Hy; apply Hl; by right).
  apply NoDup_cons. split; [|by apply IH].
  rewrite elem_of_values by done. intros (y & Hy & Hv'). congruence.
Qed.
End reach_facts.

(** ** Invariants, closures and walks of a run *)

Section query_facts.
Context {T : Type} `{Countable T}.
Context {order : RangeOrder}.
Variable fmt : T → string.

Implicit Types (h : gmap loc (Node T)) (d : DAG T) (n m x y : loc) (v w : T).

Lemma rtc_Children h x y :
  rtc (next_step (Children fmt h)) x y ↔ rtc (child_step h) x y.
Proof. split; apply rtc_subrel; intros a b; apply elem_of_Children. Qed.

Lemma rtc_Parents h x y :
  rtc (next_step (Parents fmt h)) x y ↔ rtc (parent_step h) x y.
Proof. split; apply rtc_subrel; intros a b; apply elem_of_Parents. Qed.

Lemma tc_Children h x y :
  tc (next_step (Children fmt h)) x y ↔ tc (child_step h) x y.
Proof. split; apply tc_same_steps; intros a b; apply elem_of_Children. Qed.

Lemma tc_Parents h x y :
  tc (next_step (Parents fmt h)) x y ↔ tc (parent_step h) x y.
Proof. split; apply tc_same_steps; intros a b; apply elem_of_Parents. Qed.

Lemma Children_closed d x y : wf d → x ∈ dom (heap d) → y ∈ Children fmt (heap d) x → y ∈ dom (heap d).
Proof. intros Hwf _ Hy%elem_of_Children. apply (wf_closed _ Hwf x). set_solver. Qed.

Lemma Parents_closed d x y : wf d → x ∈ dom (heap d) → y ∈ Parents fmt (heap d) x → y ∈ dom (heap d).
Proof. intros Hwf _ Hy%elem_of_Parents. apply (wf_closed _ Hwf x). set_solver. Qed.

(** From the nodes a walk visits to the values its callback sees. *)
Lemma trace_values d (R : relation loc) start n l :
  wf d → nodes d !! start = Some n →
  NoDup (n :: l) → (∀ x, x ∈ n :: l ↔ rtc R n x) → (∀ x, rtc R n x → owned d x) →
  ∃ vs, values (heap d) (n :: l) = start :: vs ∧ NoDup (start :: vs) ∧
        ∀ w, w ∈ start :: vs ↔ ∃ m, DAG_Node d w = Some m ∧ rtc R n m.
Proof.
  intros Hwf Hn Hnd Hreach Hown.
  assert (∀ x, x ∈ n :: l → owned d x) as Hl by (intros x Hx; by apply Hown, Hreach).
  exists (values (heap d) l). split_and!.
  - by apply values_cons.
  - rewrite <- (values_cons d Hwf n l start Hn). by apply NoDup_values.
  - intros w. rewrite <- (values_cons d Hwf n l start Hn), elem_of_values by done.
    unfold DAG_Node. split; intros (m & H1 & H2); exists m; [|by rewrite Hreach].
    by rewrite <- Hreach.
Qed.

(** X1: no node of a reachable graph is its own ancestor or its own
    descendant: the graph never holds a cycle. *)
Theorem reachable_acyclic d n :
  reachable fmt d → owned d n →
  ¬ ancestor_of (heap d) n n ∧ ¬ descendant_of (heap d) n n.
Proof.
  intros Hd%reachable_wf Hn. split.
  - intros Htc%(tc_parent_child d Hd); [|done]. by apply (no_cycle d Hd n).
  - by apply (no_cycle d Hd n).
Qed.

(** X2: in a reachable graph every node listed by [Parents()] or
    [Children()] of a node of the graph is itself a node of the graph, and
    the two views mirror each other. *)
Theorem reachable_no_dangling d n x :
  reachable fmt d → owned d n →
  (x ∈ Parents fmt (heap d) n → owned d x ∧ n ∈ Children fmt (heap d) x) ∧
  (x ∈ Children fmt (heap d) n → owned d x ∧ n ∈ Parents fmt (heap d) x).
Proof.
  intros Hd%reachable_wf Hn. rewrite !elem_of_Parents, !elem_of_Children. split; intros Hx.
  - by apply (parent_child_step d Hd n).
  - by apply (child_parent_step d Hd n).
Qed.

(** X3: in a reachable graph the node found for a value carries that value,
    and no other value is mapped to the same node. *)
Theorem reachable_index d v n :
  reachable fmt d → DAG_Node d v = Some n →
  Data (heap d) n = Some v ∧ ∀ w, DAG_Node d w = Some n → w = v.
Proof.
  intros Hd%reachable_wf Hn. split.
  - by apply (wf_index _ Hd).
  - intros w Hw. by apply (index_inj d w v n).
Qed.

(** X4: for a value of a reachable graph, [Ancestors] returns exactly the
    nodes from which the value's node can be reached by one or more edges,
    each once, and never the node itself. *)
Theorem Ancestors_exact d v n :
  reachable fmt d → DAG_Node d v = Some n →
  ∃ s, Ancestors fmt d v = Some s ∧ NoDup (elems s) ∧
       (∀ x, x ∈ elems s ↔ ancestor_of (heap d) x n) ∧ n ∉ elems s.
Proof.
  intros Hd Hn. pose proof (reachable_wf fmt d Hd) as Hwf.
  unfold DAG_Node in Hn. unfold Ancestors. rewrite Hn.
  assert (n ∈ dom (heap d)) as Hdom by (apply owned_dom; [done|by exists v]).
  destruct (visit_collect_total (Parents fmt (heap d)) (dom (heap d)))
    with (f := S (size (heap d))) (node := n) (st := (∅ : gset loc, nil_slice (A:=loc)))
    as (r & Hr & _); [by intros x y; apply Parents_closed|done| |].
  { simpl. rewrite <- size_dom. assert (dom (heap d) ∖ ∅ = dom (heap d)) as -> by set_solver. lia. }
  destruct (visit_collect_exact _ _ _ _ Hr) as [Hnd Hex].
  exists r.2. rewrite Hr. split_and!; [done..| |].
  - intros x. rewrite Hex. apply tc_Parents.
  - intros Hin%Hex%tc_Parents%(tc_parent_child d Hwf); [|by exists v].
    by apply (no_cycle d Hwf n); [exists v|].
Qed.

(** X5: for a value of a reachable graph, [Descendants] returns exactly the
    nodes that can be reached from the value's node by one or more edges,
    each once, and never the node itself. *)
Theorem Descendants_exact d v n :
  reachable fmt d → DAG_Node d v = Some n →
  ∃ s, Descendants fmt d v = Some s ∧ NoDup (elems s) ∧
       (∀ x, x ∈ elems s ↔ descendant_of (heap d) x n) ∧ n ∉ elems s.
Proof.
  intros Hd Hn. pose proof (reachable_wf fmt d Hd) as Hwf.
  unfold DAG_Node in Hn. unfold Descendants. rewrite Hn.
  assert (n ∈ dom (heap d)) as Hdom by (apply owned_dom; [done|by exists v]).
  destruct (visit_collect_total (Children fmt (heap d)) (dom (heap d)))
    with (f := S (size (heap d))) (node := n) (st := (∅ : gset loc, nil_slice (A:=loc)))
    as (r & Hr & _); [by intros x y; apply Children_closed|done| |].
  { simpl. rewrite <- size_dom. assert (dom (heap d) ∖ ∅ = dom (heap d)) as -> by set_solver. lia. }
  destruct (visit_collect_exact _ _ _ _ Hr) as [Hnd Hex].
  exists r.2. rewrite Hr. split_and!; [done..| |].
  - intros x. rewrite Hex. apply tc_Children.
  - intros Hin%Hex%tc_Children. by apply (no_cycle d Hwf n); [exists v|].
Qed.

(** X6: in a reachable graph, [a] is among the ancestors of [b] exactly when
    [b] is among the descendants of [a]. *)
Theorem Ancestors_Descendants_dual d a b na nb :
  reachable fmt d → DAG_Node d a = Some na → DAG_Node d b = Some nb →
  ∃ sa sb, Ancestors fmt d b = Some sa ∧ Descendants fmt d a = Some sb ∧
           (na ∈ elems sa ↔ nb ∈ elems sb).
Proof.
  intros Hd Ha Hb. pose proof (reachable_wf fmt d Hd) as Hwf.
  unfold DAG_Node in Ha, Hb. unfold Ancestors, Descendants. rewrite Ha, Hb.
  assert (owned d na) as Hoa by (by exists a). assert (owned d nb) as Hob by (by exists b).
  destruct (visit_collect_total (Parents fmt (heap d)) (dom (heap d)))
    with (f := S (size (heap d))) (node := nb) (st := (∅ : gset loc, nil_slice (A:=loc)))
    as (ra & Hra & _); [by intros x y; apply Parents_closed|by apply owned_dom| |].
  { simpl. rewrite <- size_dom. assert (dom (heap d) ∖ ∅ = dom (heap d)) as -> by set_solver. lia. }
  destruct (visit_collect_total (Children fmt (heap d)) (dom (heap d)))
    with (f := S (size (heap d))) (node := na) (st := (∅ : gset loc, nil_slice (A:=loc)))
    as (rb & Hrb & _); [by intros x y; apply Children_closed|by apply owned_dom| |].
  { simpl. rewrite <- size_dom. assert (dom (heap d) ∖ ∅ = dom (heap d)) as -> by set_solver. lia. }
  destruct (visit_collect_exact _ _ _ _ Hra) as [_ Hexa].
  destruct (visit_collect_exact _ _ _ _ Hrb) as [_ Hexb].
  exists ra.2, rb.2. rewrite Hra, Hrb. split_and!; [done..|].
  rewrite Hexa, Hexb, tc_Parents, tc_Children. split.
  - by apply tc_parent_child.
  - by apply tc_child_parent.
Qed.

(** X7: [Walk] from a value of a reachable graph calls [visit] with the start
    value first and then with every value reachable from it along edges,
    each exactly once; from a missing value it calls nothing. *)
Theorem Walk_visits d start :
  reachable fmt d →
  (DAG_Node d start = None → Walk fmt d start = Some []) ∧
  (∀ n, DAG_Node d start = Some n →
     ∃ vs, Walk fmt d start = Some (start :: vs) ∧ NoDup (start :: vs) ∧
           ∀ w, w ∈ start :: vs ↔
                ∃ m, DAG_Node d w = Some m ∧ rtc (child_step (heap d)) n m).
Proof.
  intros Hd%reachable_wf. unfold Walk. split; [by unfold DAG_Node; intros ->|].
  intros n Hn. unfold DAG_Node in Hn. rewrite Hn.
  assert (owned d n) as Hon by (by exists start).
  destruct (walk_visit_exact (Children fmt (heap d)) (dom (heap d))) with (node := n)
    as (V & l & Hr & Hnd & Hreach); [by intros x y; apply Children_closed|by apply owned_dom|].
  rewrite size_dom in Hr.
  destruct (trace_values d (child_step (heap d)) start n l Hd Hn Hnd) as (vs & Hvals & Hvs).
  - intros x. by rewrite Hreach, rtc_Children.
  - intros x. by apply rtc_child_owned.
  - exists vs. split; [|done]. rewrite Hr.
    change (Some (values (heap d) (n :: l)) = Some (start :: vs)). by rewrite Hvals.
Qed.

(** X8: [ReverseWalk] from a value of a reachable graph calls [visit] with
    the start value first and then with every value from which the start can
    be reached, each exactly once; from a missing value it calls nothing. *)
Theorem ReverseWalk_visits d start :
  reachable fmt d →
  (DAG_Node d start = None → ReverseWalk fmt d start = Some []) ∧
  (∀ n, DAG_Node d start = Some n →
     ∃ vs, ReverseWalk fmt d start = Some (start :: vs) ∧ NoDup (start :: vs) ∧
           ∀ w, w ∈ start :: vs ↔
                ∃ m, DAG_Node d w = Some m ∧ rtc (parent_step (heap d)) n m).
Proof.
  intros Hd%reachable_wf. unfold ReverseWalk. split; [by unfold DAG_Node; intros ->|].
  intros n Hn. unfold DAG_Node in Hn. rewrite Hn.
  assert (owned d n) as Hon by (by exists start).
  destruct (walk_visit_exact (Parents fmt (heap d)) (dom (heap d))) with (node := n)
    as (V & l & Hr & Hnd & Hreach); [by intros x y; apply Parents_closed|by apply owned_dom|].
  rewrite size_dom in Hr.
  destruct (trace_values d (parent_step (heap d)) start n l Hd Hn Hnd) as (vs & Hvals & Hvs).
  - intros x. by rewrite Hreach, rtc_Parents.
  - intros x. by apply rtc_parent_owned.
  - exists vs. split; [|done]. rewrite Hr.
    change (Some (values (heap d) (n :: l)) = Some (start :: vs)). by rewrite Hvals.
Qed.

(** X9: [BreadthFirstWalk] from a value of a reachable graph calls [visit]
    with the start value first and then with every value reachable from it
    along edges, each exactly once; from a missing value it calls nothing. *)
Theorem BreadthFirstWalk_visits d start :
  reachable fmt d →
  (DAG_Node d start = None → BreadthFirstWalk fmt d start = Some []) ∧
  (∀ n, DAG_Node d start = Some n →
     ∃ vs, BreadthFirstWalk fmt d start = Some (start :: vs) ∧ NoDup (start :: vs) ∧
           ∀ w, w ∈ start :: vs ↔
                ∃ m, DAG_Node d w = Some m ∧ rtc (child_step (heap d)) n m).
Proof.
  intros Hd%reachable_wf. unfold BreadthFirstWalk. split; [by unfold DAG_Node; intros ->|].
  intros n Hn. unfold DAG_Node in Hn. rewrite Hn.
  assert (owned d n) as Hon by (by exists start).
  destruct (bfs_walk_exact (Children fmt (heap d)) n (dom (heap d)))
    as (l & Hr & Hnd & Hreach); [by intros x y; apply Children_closed|by apply owned_dom|].
  rewrite size_dom in Hr.
  destruct (trace_values d (child_step (heap d)) start n l Hd Hn Hnd) as (vs & Hvals & Hvs).
  - intros x. by rewrite Hreach, rtc_Children.
  - intros x. by apply rtc_child_owned.
  - exists vs. split; [|done]. rewrite Hr.
    change (Some (values (heap d) (n :: l)) = Some (start :: vs)). by rewrite Hvals.
Qed.

(** X10: [ReverseBreadthFirstWalk] from a value of a reachable graph calls
    [visit] with the start value first and then with every value from which
    the start can be reached, each exactly once; from a missing value it
    calls nothing. *)
Theorem ReverseBreadthFirstWalk_visits d start :
  reachable fmt d →
  (DAG_Node d start = None → ReverseBreadthFirstWalk fmt d start = Some []) ∧
  (∀ n, DAG_Node d start = Some n →
     ∃ vs, ReverseBreadthFirstWalk fmt d start = Some (start :: vs) ∧
           NoDup (start :: vs) ∧
           ∀ w, w ∈ start :: vs ↔
                ∃ m, DAG_Node d w = Some m ∧ rtc (parent_step (heap d)) n m).
Proof.
  intros Hd%reachable_wf. unfold ReverseBreadthFirstWalk.
  split; [by unfold DAG_Node; intros ->|].
  intros n Hn. unfold DAG_Node in Hn. rewrite Hn.
  assert (owned d n) as Hon by (by exists start).
  destruct (bfs_walk_exact (Parents fmt (heap d)) n (dom (heap d)))
    as (l & Hr & Hnd & Hreach); [by intros x y; apply Parents_closed|by apply owned_dom|].
  rewrite size_dom in Hr.
  destruct (trace_values d (parent_step (heap d)) start n l Hd Hn Hnd) as (vs & Hvals & Hvs).
  - intros x. by rewrite Hreach, rtc_Parents.
  - intros x. by apply rtc_parent_owned.
  - exists vs. split; [|done]. rewrite Hr.
    change (Some (values (heap d) (n :: l)) = Some (start :: vs)). by rewrite Hvals.
Qed.

(** X11: in a reachable graph [HasPath(from, to)] is false when an endpoint
    is missing, and otherwise true exactly when a directed path (possibly of
    no edges) leads from [from] to [to]. *)
Theorem HasPath_correct d from to :
  reachable fmt d →
  (DAG_Node d from = None ∨ DAG_Node d to = None → HasPath fmt d from to = Some false) ∧
  (∀ f t, DAG_Node d from = Some f → DAG_Node d to = Some t →
     ∃ b, HasPath fmt d from to = Some b ∧ (b = true ↔ ∃ l, path_to (heap d) f l t)).
Proof.
  intros Hd%reachable_wf. unfold DAG_Node, HasPath. split.
  - intros [->| ->]; [done|]. by destruct (nodes d !! from).
  - intros f t Hf Ht. rewrite Hf, Ht.
    destruct (visit_find_correct (Children fmt (heap d)) t (dom (heap d))) with (node := f)
      as (b & V & Hr & Hb).
    { by intros x y; apply Children_closed. }
    { apply owned_dom; [done|by exists from]. }
    rewrite size_dom in Hr. rewrite Hr. exists b. split; [done|].
    rewrite Hb, rtc_Children. split; [by apply rtc_path_to|].
    intros [l Hl]. by eapply path_to_rtc.
Qed.

(** X12: in a reachable graph [HasPath] and [ShortestPath] agree:
    [HasPath(from, to)] is true exactly when [ShortestPath(from, to)] is not
    nil. *)
Theorem HasPath_ShortestPath_agree d from to :
  reachable fmt d →
  ∃ b s, HasPath fmt d from to = Some b ∧ ShortestPath fmt d from to = Some s ∧
         (b = true ↔ s ≠ nil_slice).
Proof.
  intros Hd. pose proof (reachable_wf fmt d Hd) as Hwf.
  destruct (ShortestPath_spec fmt d from to Hd) as [Hmiss Hpres].
  unfold DAG_Node in *.
  destruct (nodes d !! from) as [f|] eqn:Hf; [destruct (nodes d !! to) as [t|] eqn:Ht|].
  - destruct (Hpres f t eq_refl eq_refl) as (s & Hs & Hres).
    destruct (visit_find_correct (Children fmt (heap d)) t (dom (heap d))) with (node := f)
      as (b & V & Hr & Hb).
    { by intros x y; apply Children_closed. }
    { apply owned_dom; [done|by exists from]. }
    rewrite size_dom in Hr. exists b, s. unfold HasPath. rewrite Hf, Ht, Hr.
    split_and!; [done..|]. rewrite Hb, rtc_Children.
    destruct s as [|l]; simpl in Hres.
    + split; [|done]. intros [l Hl]%(rtc_path_to d). by destruct (Hres l).
    + split; [done|]. intros _. destruct Hres as [Hl _]. by eapply path_to_rtc.
  - exists false, nil_slice. unfold HasPath. rewrite Hf, Ht. split_and!; [done|auto|done].
  - exists false, nil_slice. unfold HasPath. rewrite Hf. split_and!; [done|auto|done].
Qed.
End query_facts.

(** ** Folding [append] over a list *)

Lemma foldl_append_inner {A C} (f : C → A) (cs : list C) : ∀ s : slice A,
  elems (foldl (λ s c, append s (f c)) s cs) = elems s ++ (f <$> cs) ∧
  (foldl (λ s c, append s (f c)) s cs = nil_slice ↔ s = nil_slice ∧ cs = []).
Proof.
  induction cs as [|c cs IH]; intros s; cbn [foldl].
  - rewrite fmap_nil, app_nil_r. naive_solver.
  - destruct (IH (append s (f c))) as [IH1 IH2]. split.
    + rewrite IH1, fmap_cons. simpl. by rewrite <- app_assoc.
    + rewrite IH2. unfold append. naive_solver.
Qed.

Lemma foldl_append_elems {A B C} (g : B → list C) (f : B → C → A) (l : list B) :
  ∀ s : slice A,
  elems (foldl (λ s x, foldl (λ s c, append s (f x c)) s (g x)) s l)
  = elems s ++ (l ≫= λ x, f x <$> g x).
Proof.
  induction l as [|x l IH]; intros s; cbn [foldl]; [by rewrite app_nil_r|].
  rewrite bind_cons, IH. destruct (foldl_append_inner (f x) (g x) s) as [-> _].
  by rewrite <- app_assoc.
Qed.

Lemma foldl_append_nil {A B C} (g : B → list C) (f : B → C → A) (l : list B) :
  ∀ s : slice A,
  foldl (λ s x, foldl (λ s c, append s (f x c)) s (g x)) s l = nil_slice
  ↔ s = nil_slice ∧ ∀ x, x ∈ l → g x = [].
Proof.
  induction l as [|x l IH]; intros s; cbn [foldl].
  - split; [|naive_solver]. intros ->. split; [done|]. by intros x ?%elem_of_nil.
  - rewrite IH. destruct (foldl_append_inner (f x) (g x) s) as [_ ->]. split.
    + intros [[-> Hx] Hl]. split; [done|].
      intros y [->|Hy]%elem_of_cons; [done|by apply Hl].
    + intros [-> Hl]. split_and!; [done|apply Hl; by left|].
      intros y Hy. apply Hl. by right.
Qed.

Lemma foldl_append_if {A} (P : A → Prop) `{!∀ x, Decision (P x)} {B} (f : B → A)
    (l : list B) : ∀ s : slice A,
  elems (foldl (λ s x, if decide (P (f x)) then append s (f x) else s) s l)
  = elems s ++ filter P (f <$> l) ∧
  (foldl (λ s x, if decide (P (f x)) then append s (f x) else s) s l = nil_slice
   ↔ s = nil_slice ∧ filter P (f <$> l) = []).
Proof.
  induction l as [|x l IH]; intros s; cbn [foldl].
  - rewrite fmap_nil, filter_nil, app_nil_r. naive_solver.
  - rewrite fmap_cons, filter_cons. destruct (decide (P (f x))) as [HP|HP].
    + destruct (IH (append s (f x))) as [IH1 IH2]. split.
      * rewrite IH1. simpl. by rewrite <- app_assoc.
      * rewrite IH2. unfold append. naive_solver.
    + apply IH.
Qed.

(** ** Queries that scan the index *)

Section index_facts.
Context {T : Type} `{Countable T}.
Context {index_order : IndexOrder T}.

Implicit Types (h : gmap loc (Node T)) (d : DAG T) (n m x y : loc) (v w : T).

Lemma elem_of_index_order d v n : (v, n) ∈ index_range (nodes d) ↔ nodes d !! v = Some n.
Proof. by rewrite index_range_perm, elem_of_map_to_list. Qed.

Lemma elem_of_index_nodes d n : n ∈ (index_range (nodes d)).*2 ↔ owned d n.
Proof.
  rewrite list_elem_of_fmap. unfold owned. split.
  - intros ([v n'] & -> & Hin). exists v. by apply elem_of_index_order.
  - intros [v Hv]. exists (v, n). split; [done|]. by apply elem_of_index_order.
Qed.

Lemma NoDup_index_nodes d : wf d → NoDup (index_range (nodes d)).*2.
Proof.
  intros Hwf. apply NoDup_fmap_2_strong.
  - intros [v1 n1] [v2 n2] H1%elem_of_index_order H2%elem_of_index_order Heq.
    simpl in Heq. subst n2. f_equal. by eapply index_inj.
  - rewrite index_range_perm. apply NoDup_map_to_list.
Qed.

Lemma length_index_nodes d : length (index_range (nodes d)).*2 = size (nodes d).
Proof. rewrite length_fmap, index_range_perm. by rewrite length_map_to_list. Qed.

Lemma index_range_empty : index_range (∅ : gmap T loc) = [].
Proof. apply Permutation_nil_r. by rewrite index_range_perm, map_to_list_empty. Qed.

Lemma Nodes_elems d : Nodes d = slice_of (index_range (nodes d)).*2.
Proof.
  unfold Nodes.
  assert (∀ l l0, foldl (λ (s : slice loc) (kv : T * loc), append s kv.2) (slice_of l0) l
                  = slice_of (l0 ++ l.*2)) as Hfold.
  { induction l as [|kv l IH]; intros l0; cbn [foldl].
    - by rewrite fmap_nil, app_nil_r.
    - change (append (slice_of l0) kv.2) with (slice_of (l0 ++ [kv.2])).
      by rewrite IH, fmap_cons, <- app_assoc. }
  by rewrite Hfold.
Qed.

(** X13: [Nodes] returns a non-nil slice that lists every node of a
    reachable graph exactly once, as many as there are values in the index. *)
Theorem Nodes_exact {order : RangeOrder} (fmt : T → string) d :
  reachable fmt d →
  ∃ l, Nodes d = slice_of l ∧ NoDup l ∧ (∀ n, n ∈ l ↔ owned d n) ∧
       length l = size (nodes d).
Proof.
  intros Hd%reachable_wf. exists (index_range (nodes d)).*2.
  split_and!; [apply Nodes_elems|by apply NoDup_index_nodes| |apply length_index_nodes].
  intros n. apply elem_of_index_nodes.
Qed.

(** X14: [Search] returns a node of the graph that satisfies the predicate
    whenever there is one, and nil exactly when no node of the graph
    satisfies it. *)
Theorem Search_spec d (predicate : loc → bool) :
  (∀ n, Search d predicate = Some n → owned d n ∧ predicate n = true) ∧
  (Search d predicate = None ↔ ∀ n, owned d n → predicate n = false).
Proof.
  unfold Search.
  assert (∀ l : list (T * loc),
            (∀ n, search_loop predicate l = Some n → n ∈ l.*2 ∧ predicate n = true) ∧
            (search_loop predicate l = None ↔ ∀ n, n ∈ l.*2 → predicate n = false)) as Hloop.
  { induction l as [|kv l [IH1 IH2]]; simpl.
    - split; [done|]. split; [|done]. by intros _ n ?%elem_of_nil.
    - destruct (predicate kv.2) eqn:Hp.
      + split; [intros n [= <-]; split; [by left|done]|].
        split; [done|]. intros Hall. rewrite Hall in Hp; [done|by left].
      + split; [intros n Hn; destruct (IH1 n Hn); split; [by right|done]|].
        rewrite IH2. split.
        * intros Hall n [->|Hn]%elem_of_cons; [done|by apply Hall].
        * intros Hall n Hn. apply Hall. by right. }
  destruct (Hloop (index_range (nodes d))) as [H1 H2]. split.
  - intros n Hn. destruct (H1 n Hn) as [Hin Hp]. split; [|done].
    by apply elem_of_index_nodes.
  - rewrite H2. split; intros Hall n Hn; apply Hall; by apply elem_of_index_nodes.
Qed.
End index_facts.

(** ** Edges, roots and leaves *)

Section edge_facts.
Context {T : Type} `{Countable T}.
Context {order : RangeOrder} {index_order : IndexOrder T}.
Variable fmt : T → string.

Implicit Types (h : gmap loc (Node T)) (d : DAG T) (n m x y : loc) (v w : T).

Lemma len_zero (s : gset loc) : len s = 0%Z ↔ s = ∅.
Proof.
  unfold len. split.
  - intros Hz. assert (size s = 0) as Hs%size_empty_inv by lia. by apply leibniz_equiv.
  - intros ->. by rewrite size_empty.
Qed.

Lemma has_child_true (t : loc) cs : has_child t cs = true ↔ t ∈ cs.
Proof.
  induction cs as [|c cs IH]; simpl.
  - split; [done|]. by intros ?%elem_of_nil.
  - destruct (decide (c = t)) as [->|Hne].
    + split; [intros _; by left|done].
    + rewrite IH. split; [by right|]. by intros [?|?]%elem_of_cons.
Qed.

Lemma HasEdge_true d a b :
  HasEdge fmt d a b = true ↔
  ∃ f t, nodes d !! a = Some f ∧ nodes d !! b = Some t ∧ t ∈ children_at (heap d) f.
Proof.
  unfold HasEdge. destruct (nodes d !! a) as [f|]; [|naive_solver].
  destruct (nodes d !! b) as [t|]; [|naive_solver].
  rewrite has_child_true, elem_of_Children. naive_solver.
Qed.

Lemma bool_eq_iff (b1 b2 : bool) : (b1 = true ↔ b2 = true) → b1 = b2.
Proof. destruct b1, b2; naive_solver. Qed.

Lemma Edges_elems d :
  elems (Edges fmt d)
  = index_range (nodes d) ≫= λ kv, pair kv.2 <$> Children fmt (heap d) kv.2.
Proof.
  unfold Edges.
  by rewrite (foldl_append_elems (λ kv : T * loc, Children fmt (heap d) kv.2)
                (λ kv c, (kv.2, c))).
Qed.

Lemma elem_of_Edges d a b :
  (a, b) ∈ elems (Edges fmt d) ↔ owned d a ∧ b ∈ children_at (heap d) a.
Proof.
  rewrite Edges_elems, list_elem_of_bind. split.
  - intros ([v n] & Hin & Hkv). simpl in Hin.
    apply list_elem_of_fmap in Hin as (c & [= -> ->] & Hc).
    split; [|by apply elem_of_Children in Hc]. exists v. by apply elem_of_index_order.
  - intros [[v Hv] Hb]. exists (v, a). split; [|by apply elem_of_index_order].
    simpl. apply list_elem_of_fmap. exists b. split; [done|]. by apply elem_of_Children.
Qed.

(** X15: [Edges] lists every edge of a reachable graph exactly once, is nil
    exactly when no node has a child, and agrees with [HasEdge]. *)
Theorem Edges_exact d :
  reachable fmt d →
  NoDup (elems (Edges fmt d)) ∧
  (∀ a b, (a, b) ∈ elems (Edges fmt d) ↔ owned d a ∧ b ∈ children_at (heap d) a) ∧
  (Edges fmt d = nil_slice ↔ ∀ n, owned d n → children_at (heap d) n = ∅) ∧
  (∀ from to, HasEdge fmt d from to = true ↔
     ∃ f t, DAG_Node d from = Some f ∧ DAG_Node d to = Some t ∧
            (f, t) ∈ elems (Edges fmt d)).
Proof.
  intros Hd%reachable_wf. split_and!.
  - rewrite Edges_elems. apply NoDup_bind.
    + intros [v1 n1] [v2 n2] [a b] H1%elem_of_index_order H2%elem_of_index_order.
      simpl. intros (c1 & [= -> ->] & _)%list_elem_of_fmap (c2 & [= -> _] & _)%list_elem_of_fmap.
      f_equal. by eapply index_inj.
    + intros [v n] _. simpl. apply NoDup_fmap_2; [|apply NoDup_Children].
      by intros c1 c2 [= ->].
    + rewrite index_range_perm. apply NoDup_map_to_list.
  - apply elem_of_Edges.
  - unfold Edges.
    rewrite (foldl_append_nil (λ kv : T * loc, Children fmt (heap d) kv.2)
               (λ kv c, (kv.2, c))). split.
    + intros [_ Hall] n [v Hv]. apply (Children_nil fmt).
      by apply (Hall (v, n)), elem_of_index_order.
    + intros Hall. split; [done|]. intros [v n] Hin%elem_of_index_order. simpl.
      apply (Children_nil fmt), Hall. by exists v.
  - intros from to. rewrite HasEdge_true. unfold DAG_Node.
    split; intros (f & t & Hf & Ht & Hc); exists f, t; (split_and!; [done..|]).
    + apply elem_of_Edges. split; [by exists from|done].
    + by apply elem_of_Edges in Hc as [_ Hc].
Qed.

(** Every non-empty well-formed graph has a node without parents and a node
    without children. *)
Lemma exists_root d n :
  wf d → owned d n → ∃ r, owned d r ∧ parents_at (heap d) r = ∅.
Proof.
  intros Hwf. destruct (wf_acyclic _ Hwf) as [rank Hrank].
  remember (rank n) as k eqn:Hk. revert n Hk.
  induction k as [k IH] using lt_wf_ind. intros n -> Hn.
  destruct (decide (parents_at (heap d) n = ∅)) as [|Hne]; [by exists n|].
  apply set_choose_L in Hne as [p Hp].
  destruct (parent_child_step d Hwf n p Hn Hp) as [Hpo Hc].
  apply (IH (rank p)) with (n := p); [|done..]. by apply Hrank.
Qed.

Lemma exists_leaf d n :
  wf d → owned d n → ∃ r, owned d r ∧ children_at (heap d) r = ∅.
Proof.
  intros Hwf. destruct (wf_acyclic _ Hwf) as [rank Hrank].
  set (top := max_list (rank <$> (index_range (nodes d)).*2)).
  assert (∀ x, owned d x → rank x ≤ top) as Htop.
  { intros x Hx. apply max_list_elem_of_le, list_elem_of_fmap. exists x.
    split; [done|]. by apply elem_of_index_nodes. }
  remember (top - rank n) as k eqn:Hk. revert n Hk.
  induction k as [k IH] using lt_wf_ind. intros n -> Hn.
  destruct (decide (children_at (heap d) n = ∅)) as [|Hne]; [by exists n|].
  apply set_choose_L in Hne as [c Hc].
  destruct (child_parent_step d Hwf n c Hn Hc) as [Hco _].
  apply (IH (top - rank c)) with (n := c); [|done..].
  pose proof (Hrank n c Hn Hco Hc). pose proof (Htop c Hco). lia.
Qed.

(** X16: [Roots] lists exactly the nodes of a reachable graph that have no
    parents, each once, and is nil only for the empty graph. *)
Theorem Roots_exact d :
  reachable fmt d →
  NoDup (elems (Roots d)) ∧
  (∀ n, n ∈ elems (Roots d) ↔ owned d n ∧ parents_at (heap d) n = ∅) ∧
  (Roots d = nil_slice ↔ nodes d = ∅).
Proof.
  intros Hd%reachable_wf. unfold Roots.
  destruct (foldl_append_if (λ n, len (parents_at (heap d) n) = 0%Z) (snd : T * loc → loc)
              (index_range (nodes d)) nil_slice) as [Hel Hnil].
  rewrite Hel, Hnil. simpl.
  assert (∀ n, n ∈ filter (λ n, len (parents_at (heap d) n) = 0%Z) (index_range (nodes d)).*2
               ↔ owned d n ∧ parents_at (heap d) n = ∅) as Hin.
  { intros n. rewrite list_elem_of_filter, len_zero, elem_of_index_nodes. tauto. }
  split_and!.
  - by apply NoDup_filter, NoDup_index_nodes.
  - done.
  - split.
    + intros [_ Hf]. apply map_empty. intros v.
      destruct (nodes d !! v) as [n|] eqn:Hv; [|done]. exfalso.
      destruct (exists_root d n Hd) as (r & Hr & Hp); [by exists v|].
      assert (r ∈ filter (λ n, len (parents_at (heap d) n) = 0%Z) (index_range (nodes d)).*2)
        as Hrin by (by apply Hin).
      rewrite Hf in Hrin. by apply elem_of_nil in Hrin.
    + intros ->. by rewrite index_range_empty.
Qed.

(** X17: [Leaves] lists exactly the nodes of a reachable graph that have no
    children, each once, and is nil only for the empty graph. *)
Theorem Leaves_exact d :
  reachable fmt d →
  NoDup (elems (Leaves d)) ∧
  (∀ n, n ∈ elems (Leaves d) ↔ owned d n ∧ children_at (heap d) n = ∅) ∧
  (Leaves d = nil_slice ↔ nodes d = ∅).
Proof.
  intros Hd%reachable_wf. unfold Leaves.
  destruct (foldl_append_if (λ n, len (children_at (heap d) n) = 0%Z) (snd : T * loc → loc)
              (index_range (nodes d)) nil_slice) as [Hel Hnil].
  rewrite Hel, Hnil. simpl.
  assert (∀ n, n ∈ filter (λ n, len (children_at (heap d) n) = 0%Z) (index_range (nodes d)).*2
               ↔ owned d n ∧ children_at (heap d) n = ∅) as Hin.
  { intros n. rewrite list_elem_of_filter, len_zero, elem_of_index_nodes. tauto. }
  split_and!.
  - by apply NoDup_filter, NoDup_index_nodes.
  - done.
  - split.
    + intros [_ Hf]. apply map_empty. intros v.
      destruct (nodes d !! v) as [n|] eqn:Hv; [|done]. exfalso.
      destruct (exists_leaf d n Hd) as (r & Hr & Hp); [by exists v|].
      assert (r ∈ filter (λ n, len (children_at (heap d) n) = 0%Z) (index_range (nodes d)).*2)
        as Hrin by (by apply Hin).
      rewrite Hf in Hrin. by apply elem_of_nil in Hrin.
    + intros ->. by rewrite index_range_empty.
Qed.
End edge_facts.

(** ** How the operations compose *)

Section mutation_facts.
Context {T : Type} `{Countable T}.
Context {order : RangeOrder}.
Variable fmt : T → string.

Implicit Types (h : gmap loc (Node T)) (d : DAG T) (n m x y : loc) (v w : T).

Lemma AddNode_lookup_inv d v v' n :
  nodes (AddNode d v).1 !! v' = Some n →
  nodes d !! v' = Some n ∨ (v' = v ∧ nodes d !! v = None ∧ n ∉ dom (heap d)).
Proof.
  destruct (AddNode_cases d v) as [(m & Hm & ->)|[Hv ->]]; simpl; [by left|].
  destruct (decide (v' = v)) as [->|Hne].
  - rewrite lookup_insert_eq. intros [= <-]. right. split_and!; [done..|]. apply is_fresh.
  - rewrite lookup_insert_ne by done. by left.
Qed.

Lemma AddNode_dom d v : dom (heap d) ⊆ dom (heap (AddNode d v).1).
Proof.
  destruct (AddNode_cases d v) as [(m & Hm & ->)|[Hv ->]]; simpl; [done|].
  rewrite dom_insert. set_solver.
Qed.

(** A node record whose adjacency sets already hold the new entry is left
    as it is. *)
Lemma addChild_id h n c : c ∈ children_at h n → addChild h n c = h.
Proof.
  intros Hc. unfold addChild. apply alter_id. intros [v ps cs] Hn. simpl. f_equal.
  unfold children_at in Hc. rewrite Hn in Hc. simpl in Hc. set_solver.
Qed.

Lemma addParent_id h n p : p ∈ parents_at h n → addParent h n p = h.
Proof.
  intros Hp. unfold addParent. apply alter_id. intros [v ps cs] Hn. simpl. f_equal.
  unfold parents_at in Hp. rewrite Hn in Hp. simpl in Hp. set_solver.
Qed.

Lemma deleteChild_id h n c : c ∉ children_at h n → deleteChild h n c = h.
Proof.
  intros Hc. unfold deleteChild. apply alter_id. intros [v ps cs] Hn. simpl. f_equal.
  unfold children_at in Hc. rewrite Hn in Hc. simpl in Hc. set_solver.
Qed.

Lemma deleteParent_id h n p : p ∉ parents_at h n → deleteParent h n p = h.
Proof.
  intros Hp. unfold deleteParent. apply alter_id. intros [v ps cs] Hn. simpl. f_equal.
  unfold parents_at in Hp. rewrite Hn in Hp. simpl in Hp. set_solver.
Qed.

(** What a successful [AddEdge] leaves behind. *)
Lemma AddEdge_success d from to d' :
  wf d → AddEdge fmt d from to = Some (d', nil_error) →
  ∃ f t, nodes d' !! from = Some f ∧ nodes d' !! to = Some t ∧ from ≠ to ∧ wf d' ∧
    (∀ v n, nodes d !! v = Some n → nodes d' !! v = Some n) ∧
    (∀ v n, nodes d' !! v = Some n →
       nodes d !! v = Some n ∨ ((v = from ∨ v = to) ∧ nodes d !! v = None ∧ n ∉ dom (heap d))) ∧
    (∀ x y, y ∈ children_at (heap d') x ↔ y ∈ children_at (heap d) x ∨ (x = f ∧ y = t)) ∧
    (∀ x y, y ∈ parents_at (heap d') x ↔ y ∈ parents_at (heap d) x ∨ (x = t ∧ y = f)).
Proof.
  intros Hwf Hadd.
  destruct (wf_AddEdge fmt d from to Hwf) as (d1 & e & Hd1 & Hwf').
  rewrite Hadd in Hd1. injection Hd1 as <- <-.
  destruct (AddEdge_spec fmt d from to Hwf)
    as (d2 & f & t & b & E1 & E2 & Hwf2 & Hf & Ht & Hpar & Hchi & Hb & Hres).
  rewrite Hadd in Hres. destruct b; [done|]. injection Hres as ->.
  assert (f ∈ dom (heap d2)) as Hfd by (apply owned_dom; [done|by exists from]).
  assert (t ∈ dom (heap d2)) as Htd by (apply owned_dom; [done|by exists to]).
  exists f, t. simpl. split_and!; [done|done| |done| | | |].
  - intros ->. assert (false = true); [|done]. apply Hb. by left.
  - intros v n Hn. apply (AddNode_lookup_mono d from) in Hn.
    apply (AddNode_lookup_mono _ to) in Hn. by rewrite E2 in Hn.
  - intros v n Hn.
    assert (nodes (AddNode (AddNode d from).1 to).1 !! v = Some n) as Hn2 by (by rewrite E2).
    apply AddNode_lookup_inv in Hn2 as [Hn1|(-> & Hnone & Hfresh)].
    + apply AddNode_lookup_inv in Hn1 as [Hn0|(-> & Hnone & Hfresh)]; [by left|].
      right. split_and!; auto.
    + right. split_and!; [by right| |].
      * destruct (nodes d !! to) as [k|] eqn:Hk; [|done].
        apply (AddNode_lookup_mono d from) in Hk. congruence.
      * intros Hin. apply Hfresh. by apply AddNode_dom.
  - intros x y. rewrite elem_of_children_link by done. by rewrite Hchi.
  - intros x y. rewrite elem_of_parents_link by done. by rewrite Hpar.
Qed.

(** X18: a successful [AddEdge(from, to)] adds the edge from [from] to [to]
    and no other: [HasEdge] answers as before for every other pair, every
    value keeps its node, and the only values that may be new in the graph are
    [from] and [to]. *)
Theorem AddEdge_adds_one_edge d from to d' :
  reachable fmt d → AddEdge fmt d from to = Some (d', nil_error) →
  (∀ a b, HasEdge fmt d' a b = true ↔ HasEdge fmt d a b = true ∨ (a = from ∧ b = to)) ∧
  (∀ v n, DAG_Node d v = Some n → DAG_Node d' v = Some n) ∧
  (∀ v, is_Some (DAG_Node d' v) ↔ is_Some (DAG_Node d v) ∨ v = from ∨ v = to).
Proof.
  intros Hd%reachable_wf Hadd. unfold DAG_Node.
  destruct (AddEdge_success d from to d' Hd Hadd)
    as (f & t & Hf & Ht & Hne & Hwf' & Hmono & Hinv & Hchi & Hpar).
  split_and!.
  - intros a b. rewrite !HasEdge_true. split.
    + intros (f' & t' & Hf' & Ht' & Hc). apply Hchi in Hc as [Hc|[-> ->]].
      * left. exists f', t'.
        assert (nodes d !! a = Some f') as Ha.
        { destruct (Hinv a f' Hf') as [?|(_ & _ & Hfresh)]; [done|].
          destruct Hfresh. by eapply children_at_dom. }
        split_and!; [done| |done].
        assert (owned d t') as [w Hw].
        { apply (wf_owned _ Hd f'); [by exists a|set_solver]. }
        assert (w = b) as -> by (eapply (index_inj d'); eauto). done.
      * right. split; by eapply (index_inj d').
    + intros [(f' & t' & Hf' & Ht' & Hc)|[-> ->]].
      * exists f', t'. split_and!; [by apply Hmono..|]. apply Hchi. by left.
      * exists f, t. split_and!; [done..|]. apply Hchi. by right.
  - done.
  - intros v. split.
    + intros [n Hn]. destruct (Hinv v n Hn) as [?|([?|?] & _)]; eauto.
    + intros [[n Hn]|[->| ->]]; eauto.
Qed.

(** X19: adding an edge that is already in the graph succeeds and changes
    nothing. *)
Theorem AddEdge_existing_edge d from to :
  reachable fmt d → HasEdge fmt d from to = true →
  AddEdge fmt d from to = Some (d, nil_error).
Proof.
  intros Hd%reachable_wf (f & t & Hf & Ht & Hc)%HasEdge_true.
  assert (owned d f) as Hfo by (by exists from).
  assert (owned d t) as Hto by (by exists to).
  destruct (AddEdge_spec fmt d from to Hd)
    as (d2 & f' & t' & b & E1 & E2 & Hwf2 & Hf' & Ht' & Hpar & Hchi & Hb & ->).
  rewrite (AddNode_present d from f Hf) in E1, E2. simpl in E1, E2.
  rewrite (AddNode_present d to t Ht) in E2.
  injection E1 as <-. injection E2 as <- <-.
  destruct b.
  - exfalso. destruct (proj1 Hb eq_refl) as [->|(_ & _ & Hanc)].
    + assert (t = f) as -> by congruence.
      apply (no_cycle d Hd f Hfo). by apply tc_once.
    + apply (no_cycle d Hd f Hfo). eapply tc_l; [exact Hc|].
      apply (tc_parent_child d Hd); [done|]. exact Hanc.
  - do 2 f_equal. destruct d as [ns h]. simpl in *. f_equal.
    rewrite (addChild_id h f t) by done. apply addParent_id.
    by apply (wf_mutual _ Hd f t).
Qed.

(** X20: [AddEdge(from, to)] fails with [ErrCycleDetected] exactly when
    [from] and [to] are one value or [HasPath(to, from)] is true. *)
Theorem AddEdge_cycle_HasPath d from to :
  reachable fmt d →
  ∃ d' e b, AddEdge fmt d from to = Some (d', e) ∧ HasPath fmt d to from = Some b ∧
    (e = ErrCycleDetected ↔ from = to ∨ b = true).
Proof.
  intros Hd%reachable_wf.
  destruct (AddEdge_spec fmt d from to Hd)
    as (d2 & f & t & c & E1 & E2 & Hwf2 & Hf & Ht & Hpar & Hchi & Hc & ->).
  assert (∃ b, HasPath fmt d to from = Some b ∧
            (b = true ↔ ∃ t' f', nodes d !! to = Some t' ∧ nodes d !! from = Some f' ∧
                                 rtc (child_step (heap d)) t' f')) as (b & Hb & Hrtc).
  { unfold HasPath. destruct (nodes d !! to) as [t'|] eqn:Ht'; [|exists false; naive_solver].
    destruct (nodes d !! from) as [f'|] eqn:Hf'; [|exists false; naive_solver].
    destruct (visit_find_correct (Children fmt (heap d)) f' (dom (heap d))) with (node := t')
      as (b & V & Hr & Hb).
    { by intros x y; apply Children_closed. }
    { apply owned_dom; [done|by exists to]. }
    rewrite size_dom in Hr. rewrite Hr. exists b. split; [done|].
    rewrite Hb, rtc_Children. naive_solver. }
  assert (∀ v n, nodes d !! v = Some n → nodes d2 !! v = Some n) as Hmono.
  { intros v n Hn. apply (AddNode_lookup_mono d from) in Hn.
    apply (AddNode_lookup_mono _ to) in Hn. by rewrite E2 in Hn. }
  exists (if c then d2 else mkDAG (nodes d2) (addParent (addChild (heap d2) f t) t f)),
    (if c then ErrCycleDetected else nil_error), b.
  split_and!; [by destruct c|done|].
  transitivity (c = true); [by destruct c|]. rewrite Hc, Hrtc. split.
  - intros [?|(Hf0 & Ht0 & Hanc)]; [by left|]. right. exists t, f. split_and!; [done..|].
    apply tc_rtc, (tc_parent_child d Hd); [by exists from|done].
  - intros [?|(t' & f' & Ht0 & Hf0 & Hr)]; [by left|].
    destruct (decide (from = to)) as [|Hne]; [by left|]. right.
    pose proof (Hmono _ _ Ht0) as Ht2. pose proof (Hmono _ _ Hf0) as Hf2.
    assert (t' = t) as -> by congruence. assert (f' = f) as -> by congruence.
    split_and!; [done..|]. apply rtc_tc in Hr as [->|Htc].
    + destruct Hne. by apply (index_inj d from to f).
    + apply (tc_child_parent d Hd); [by exists to|done].
Qed.

(** X21: [RemoveEdge(from, to)] removes the edge from [from] to [to] and
    no other; it keeps every node, and removing an edge that is not there
    changes nothing. *)
Theorem RemoveEdge_removes_one_edge d from to :
  reachable fmt d →
  (∀ v, DAG_Node (RemoveEdge d from to) v = DAG_Node d v) ∧
  (∀ a b, HasEdge fmt (RemoveEdge d from to) a b = true ↔
          HasEdge fmt d a b = true ∧ ¬ (a = from ∧ b = to)) ∧
  (HasEdge fmt d from to = false → RemoveEdge d from to = d).
Proof.
  intros Hd%reachable_wf.
  assert (∀ v, nodes (RemoveEdge d from to) !! v = nodes d !! v) as Hnodes.
  { intros v. unfold RemoveEdge. by destruct (nodes d !! from), (nodes d !! to). }
  split_and!.
  - done.
  - intros a b. rewrite !HasEdge_true. setoid_rewrite Hnodes.
    unfold RemoveEdge.
    destruct (nodes d !! from) as [f|] eqn:Hf; [destruct (nodes d !! to) as [t|] eqn:Ht|].
    + simpl. setoid_rewrite children_at_deleteParent.
      setoid_rewrite elem_of_children_deleteChild. split.
      * intros (f' & t' & Hf' & Ht' & Hc & Hne). split; [by exists f', t'|].
        intros [-> ->]. apply Hne. split; congruence.
      * intros [(f' & t' & Hf' & Ht' & Hc) Hne]. exists f', t'. split_and!; [done..|].
        intros [-> ->]. apply Hne. split; by eapply (index_inj d).
    + split; [|naive_solver]. intros Hx. split; [done|]. intros [-> ->].
      destruct Hx as (? & ? & _ & ? & _). congruence.
    + split; [|naive_solver]. intros Hx. split; [done|]. intros [-> ->].
      destruct Hx as (? & ? & ? & _). congruence.
  - intros Hno. unfold RemoveEdge.
    destruct (nodes d !! from) as [f|] eqn:Hf; [|done].
    destruct (nodes d !! to) as [t|] eqn:Ht; [|done].
    assert (t ∉ children_at (heap d) f) as Hc.
    { intros Hc. assert (HasEdge fmt d from to = true); [|congruence].
      apply HasEdge_true. by exists f, t. }
    destruct d as [ns h]. simpl in *. f_equal.
    rewrite (deleteChild_id h f t) by done. apply deleteParent_id.
    intros Hp. apply Hc. apply (wf_mutual _ Hd f t); [by exists from|by exists to|done].
Qed.

(** X22: [RemoveNode(v)] keeps every other value with its node and removes
    exactly the edges that start or end at [v]. *)
Theorem RemoveNode_keeps_rest d v :
  reachable fmt d →
  (∀ w, w ≠ v → DAG_Node (RemoveNode d v) w = DAG_Node d w) ∧
  (∀ a b, HasEdge fmt (RemoveNode d v) a b = true ↔
          HasEdge fmt d a b = true ∧ a ≠ v ∧ b ≠ v).
Proof.
  intros Hd%reachable_wf. unfold DAG_Node.
  destruct (nodes d !! v) as [node|] eqn:Hv.
  - destruct (RemoveNode_heap d v node Hv) as (Hn & Hdom & Hdata & Hch & Hpa).
    split.
    + intros w Hw. rewrite Hn. by apply lookup_delete_ne.
    + intros a b. rewrite !HasEdge_true. rewrite Hn. split.
      * intros (f & t & [Ha Hf]%lookup_delete_Some & [Hb Ht]%lookup_delete_Some & Hc).
        apply Hch in Hc as [Hc _]. split_and!; [|done..]. by exists f, t.
      * intros [(f & t & Hf & Ht & Hc) [Ha Hb]]. exists f, t.
        rewrite !lookup_delete_ne by done. split_and!; [done..|].
        apply Hch. split; [done|]. intros [_ ->]. apply Hb. by apply (index_inj d b v node).
  - assert (RemoveNode d v = d) as -> by (unfold RemoveNode; by rewrite Hv).
    split; [done|]. intros a b. split; [|tauto]. intros Hab. split; [done|].
    apply HasEdge_true in Hab as (f & t & Hf & Ht & _). split; congruence.
Qed.

(** X23: a value that is removed and added again gets a new node, without
    parents or children; the node it had before is not used again. *)
Theorem RemoveNode_AddNode_fresh d v n :
  reachable fmt d → DAG_Node d v = Some n →
  let r := AddNode (RemoveNode d v) v in
  DAG_Node r.1 v = Some r.2 ∧ r.2 ≠ n ∧ Data (heap r.1) r.2 = Some v ∧
  parents_at (heap r.1) r.2 = ∅ ∧ children_at (heap r.1) r.2 = ∅ ∧
  ∀ w, w ≠ v → DAG_Node r.1 w = DAG_Node d w.
Proof.
  intros Hd%reachable_wf Hn. unfold DAG_Node in *.
  destruct (RemoveNode_heap d v n Hn) as (Hnodes & Hdom & Hdata & Hch & Hpa).
  assert (nodes (RemoveNode d v) !! v = None) as Hnone.
  { rewrite Hnodes. apply lookup_delete_eq. }
  destruct (AddNode_cases (RemoveNode d v) v) as [(m & Hm & _)|[_ ->]]; [congruence|].
  cbv zeta. simpl. rewrite Hdom, Hnodes.
  pose proof (is_fresh (dom (heap d))) as Hfresh.
  split_and!.
  - by rewrite lookup_insert_eq.
  - intros Heq. apply Hfresh. rewrite Heq. apply owned_dom; [done|by exists v].
  - unfold Data. by rewrite lookup_insert_eq.
  - unfold parents_at. by rewrite lookup_insert_eq.
  - unfold children_at. by rewrite lookup_insert_eq.
  - intros w Hw. rewrite lookup_insert_ne by done. by apply lookup_delete_ne.
Qed.
End mutation_facts.

(** ** LevelOrder *)

Lemma elem_of_concat {A} (ls : list (list A)) (a : A) :
  a ∈ concat ls ↔ ∃ i l, ls !! i = Some l ∧ a ∈ l.
Proof.
  induction ls as [|l ls IH]; simpl.
  - split; [by intros ?%elem_of_nil|]. by intros (i & l & Hl & _).
  - rewrite elem_of_app, IH. split.
    + intros [Ha|(i & l' & Hl' & Ha)]; [by exists 0, l|by exists (S i), l'].
    + intros ([|i] & l' & Hl' & Ha); simpl in Hl'; [left; congruence|right; eauto].
Qed.

(** The counts that [relax] leaves do not depend on the queue it appends to. *)
Lemma relax_queue cs : ∀ (m : gmap loc Z) (q : list loc),
  foldl relax (m, q) cs
  = ((foldl relax (m, []) cs).1, q ++ (foldl relax (m, []) cs).2).
Proof.
  induction cs as [|c cs IH]; intros m q; cbn [foldl].
  - simpl. by rewrite app_nil_r.
  - set (m1 := <[c := (degree m c - 1)%Z]> m).
    set (x := if decide (degree m1 c = 0%Z) then [c] else []).
    assert (∀ q', relax (m, q') c = (m1, q' ++ x)) as Hrelax.
    { intros q'. unfold relax, x. simpl. fold m1.
      destruct (decide (degree m1 c = 0%Z)); [done|by rewrite app_nil_r]. }
    rewrite !Hrelax. rewrite (IH m1 (q ++ x)), (IH m1 ([] ++ x)). simpl.
    by rewrite app_assoc.
Qed.

Section level_facts.
Context {T : Type} `{Countable T}.
Context {order : RangeOrder}.
Variable fmt : T → string.
Variable d : DAG T.
Hypothesis d_wf : wf d.

Implicit Types (n c x y : loc) (m : gmap loc Z) (q cs sorted : list loc).

(** The loop over the nodes of one level: [P] is the part of the level that
    has been handled, [N] the next level so far. *)
Lemma level_fold rest : ∀ m N sorted P,
  kahn_inv d m (rest ++ N) sorted →
  (∀ n, n ∈ N → ∃ p, p ∈ P ∧ p ∈ parents_at (heap d) n) →
  kahn_inv d (foldl (level_step fmt (heap d)) (m, N) rest).1
             (foldl (level_step fmt (heap d)) (m, N) rest).2 (sorted ++ rest) ∧
  ∀ n, n ∈ (foldl (level_step fmt (heap d)) (m, N) rest).2 →
    ∃ p, p ∈ P ++ rest ∧ p ∈ parents_at (heap d) n.
Proof.
  induction rest as [|c rest IH]; intros m N sorted P Hinv HN; cbn [foldl].
  - simpl. rewrite !app_nil_r. done.
  - simpl in Hinv.
    pose proof (kahn_inv_step d fmt d_wf m c (rest ++ N) sorted Hinv) as Hstep.
    assert (owned d c) as Hc by (apply (kahn_owned _ _ _ _ Hinv); set_solver).
    rewrite (relax_queue _ m (rest ++ N)) in Hstep. simpl in Hstep.
    set (F := foldl relax (m, []) (Children fmt (heap d) c)) in *.
    assert (level_step fmt (heap d) (m, N) c = (F.1, N ++ F.2)) as ->
      by apply relax_queue.
    rewrite <- app_assoc in Hstep.
    destruct (IH F.1 (N ++ F.2) (sorted ++ [c]) (P ++ [c]) Hstep) as [IH1 IH2].
    { intros n [Hn|Hn]%elem_of_app.
      - destruct (HN n Hn) as (p & Hp & Hpar). exists p. split; [|done].
        apply elem_of_app. by left.
      - exists c. split; [apply elem_of_app; right; by left|].
        destruct (relax_fold (Children fmt (heap d) c) m [] (NoDup_Children fmt _ _))
          as [_ HF2].
        fold F in HF2. rewrite HF2 in Hn. simpl in Hn.
        apply list_elem_of_filter in Hn as [_ Hn%elem_of_Children].
        apply (wf_mutual _ d_wf c n); [done| |done].
        apply (wf_owned _ d_wf c); [done|set_solver]. }
    rewrite <- !app_assoc in IH1, IH2. simpl in IH1, IH2. done.
Qed.

Lemma level_inv_init :
  level_inv d (inDegree_init d) (seed_queue (inDegree_init d)) [].
Proof.
  split_and!.
  - apply kahn_inv_init.
  - split_and!.
    + by intros L ?%elem_of_nil.
    + by intros i L n p ?.
    + by intros i L n ?.
  - by intros n L _ ?.
Qed.

Lemma level_inv_step m c q (levels : list (list loc)) :
  level_inv d m (c :: q) levels →
  level_inv d (foldl (level_step fmt (heap d)) (m, []) (c :: q)).1
              (foldl (level_step fmt (heap d)) (m, []) (c :: q)).2
              (levels ++ [c :: q]).
Proof.
  intros (Hinv & (Hne & Hstrict & Htight) & Hpend).
  destruct (level_fold (c :: q) m [] (concat levels) []) as [Hk Hnext].
  { by rewrite app_nil_r. }
  { by intros n ?%elem_of_nil. }
  simpl app in Hnext.
  assert (concat (levels ++ [c :: q]) = concat levels ++ c :: q) as Hcat.
  { rewrite concat_app. simpl. by rewrite app_nil_r. }
  split_and!.
  - by rewrite Hcat.
  - split_and!.
    + intros L [HL|HL%list_elem_of_singleton]%elem_of_app; [by apply Hne|by subst].
    + intros i L n p Hi Hn Hp.
      apply lookup_app_Some in Hi as [Hi|[Hlen Hi]].
      * destruct (Hstrict i L n p Hi Hn Hp) as (j & L' & Hj & HL' & HpL').
        exists j, L'. split_and!; [done| |done]. by apply lookup_app_l_Some.
      * apply list_lookup_singleton_Some in Hi as [Hi <-].
        assert (owned d n) as Hno.
        { apply (kahn_owned _ _ _ _ Hinv). apply elem_of_app. by right. }
        assert (degree m n = 0%Z) as Hz.
        { apply (kahn_ready _ _ _ _ Hinv n Hno). apply elem_of_app. by right. }
        rewrite (kahn_degree _ _ _ _ Hinv n Hno) in Hz. apply len_zero in Hz.
        assert (p ∈ concat levels) as (j & L' & HL' & HpL')%elem_of_concat.
        { destruct (decide (p ∈ concat levels)) as [|Hnp]; [done|]. exfalso.
          assert (p ∈ parents_at (heap d) n ∖ list_to_set (concat levels)) as Hin
            by set_solver.
          rewrite Hz in Hin. set_solver. }
        exists j, L'. pose proof (lookup_lt_Some _ _ _ HL'). split_and!; [lia| |done].
        by apply lookup_app_l_Some.
    + intros i L n Hi Hn.
      apply lookup_app_Some in Hi as [Hi|[Hlen Hi]].
      * destruct (Htight i L n Hi Hn) as (L' & p & HL' & Hp1 & Hp2).
        exists L', p. split_and!; [|done..]. by apply lookup_app_l_Some.
      * apply list_lookup_singleton_Some in Hi as [Hi <-].
        assert (length levels = S i) as Hlast by lia.
        assert (∃ L', last levels = Some L' ∧ levels !! i = Some L') as (L' & HL' & Hi').
        { rewrite last_lookup, Hlast. simpl.
          destruct (levels !! i) as [L'|] eqn:HL'; [eauto|].
          apply lookup_ge_None in HL'. lia. }
        destruct (Hpend n L' Hn HL') as (p & Hp1 & Hp2).
        exists L', p. split_and!; [|done..]. by apply lookup_app_l_Some.
  - intros n L Hn. rewrite last_snoc. intros [= <-]. by apply Hnext.
Qed.

(** The loop stops within its fuel. *)
Lemma level_loop_correct (fuel : nat) : ∀ m cur (levels : slice (list loc)),
  level_inv d m cur (elems levels) →
  size (inDegree_init d) ≤ fuel + length (concat (elems levels)) →
  (cur = [] → extends nil_slice levels) →
  ∃ out m', level_loop fmt fuel (heap d) m cur levels = Some out ∧
            level_inv d m' [] (elems out) ∧ extends nil_slice out.
Proof.
  induction fuel as [|fuel IH]; intros m cur levels Hinv Hsz Hext.
  - destruct cur as [|c q]; [exists levels, m; simpl; auto|]. exfalso.
    destruct Hinv as (Hinv & _).
    pose proof (owned_length d _ (kahn_nodup _ _ _ _ Hinv) (kahn_owned _ _ _ _ Hinv)) as Hlen.
    rewrite length_app in Hlen. simpl in *. lia.
  - destruct cur as [|c q]; [exists levels, m; simpl; auto|].
    cbn [level_loop]. apply IH.
    + rewrite elems_append. by apply level_inv_step.
    + rewrite elems_append, concat_app, length_app. simpl. lia.
    + intros _. right. exists (elems levels ++ [c :: q]). split; [|done].
      by destruct (elems levels).
Qed.
End level_facts.

Section level_claims.
Context {T : Type} `{Countable T}.
Context {order : RangeOrder}.
Variable fmt : T → string.

(** X24: in every state of a run [LevelOrder] returns levels that hold every
    node of the graph exactly once; no level is empty; the parents of a node
    all lie in earlier levels, and a node beyond the first level has a parent
    in the level just before its own, so the first level holds exactly the
    nodes without parents.  The result is nil exactly for the empty graph. *)
Theorem LevelOrder_levels d :
  reachable fmt d →
  ∃ levels, LevelOrder fmt d = Some levels ∧
    NoDup (concat (elems levels)) ∧
    (∀ n, n ∈ concat (elems levels) ↔ owned d n) ∧
    (∀ L, L ∈ elems levels → L ≠ []) ∧
    (∀ i L n p, elems levels !! i = Some L → n ∈ L → p ∈ parents_at (heap d) n →
       ∃ j L', j < i ∧ elems levels !! j = Some L' ∧ p ∈ L') ∧
    (∀ i L n, elems levels !! S i = Some L → n ∈ L →
       ∃ L' p, elems levels !! i = Some L' ∧ p ∈ L' ∧ p ∈ parents_at (heap d) n) ∧
    (∀ n, owned d n → parents_at (heap d) n = ∅ →
       ∃ L, elems levels !! 0 = Some L ∧ n ∈ L) ∧
    (levels = nil_slice ↔ nodes d = ∅).
Proof.
  intros Hd%reachable_wf. unfold LevelOrder.
  destruct (level_loop_correct fmt d Hd (size (inDegree_init d)) (inDegree_init d)
              (seed_queue (inDegree_init d)) nil_slice) as (out & m' & Hout & Hinv & Hext).
  { apply level_inv_init. }
  { simpl. lia. }
  { intros _. apply extends_refl. }
  destruct Hinv as (Hk & (Hne & Hstrict & Htight) & _).
  assert (∀ n, n ∈ concat (elems out) ↔ owned d n) as Hall.
  { intros n. split.
    - intros Hn. apply (kahn_owned _ _ _ _ Hk). apply elem_of_app. by left.
    - by apply (kahn_complete d Hd m'). }
  exists out. split_and!; try done.
  - pose proof (kahn_nodup _ _ _ _ Hk) as Hnd. by rewrite app_nil_r in Hnd.
  - intros n Hn Hroot. apply Hall, elem_of_concat in Hn as ([|i] & L & HL & Hn); [eauto|].
    destruct (Htight i L n HL Hn) as (_ & p & _ & _ & Hp). set_solver.
  - split.
    + intros ->. apply map_empty. intros v.
      destruct (nodes d !! v) as [n|] eqn:Hv; [|done].
      assert (n ∈ concat (elems (nil_slice (A:=list loc)))) as Hn by (apply Hall; by exists v).
      by apply elem_of_nil in Hn.
    + intros Hempty. destruct Hext as [->|(l & Hl & ->)]; [done|]. exfalso.
      destruct l as [|L l]; [done|]. simpl in *.
      destruct L as [|n L]; [apply (Hne []); [by left|done]|].
      assert (owned d n) as [v Hv] by (apply Hall; simpl; by left).
      rewrite Hempty in Hv. by rewrite lookup_empty in Hv.
Qed.
End level_claims.

(** ** The order of [Parents] and [Children] *)

Section sorted_facts.
Context {A : Type} (less : A → A → bool).
Hypothesis less_trans : ∀ a b c, less a b = true → less b c = true → less a c = true.

Lemma sort_insert_sorted (x : A) (l : list A) :
  (∀ y, y ∈ l → less x y = true ∨ less y x = true) →
  StronglySorted (λ a b, less a b = true) l →
  StronglySorted (λ a b, less a b = true) (sort_insert less x l).
Proof.
  induction l as [|y l IH]; intros Htot Hs; simpl.
  - repeat constructor.
  - apply StronglySorted_inv in Hs as [Hs Hy].
    destruct (less x y) eqn:Hxy.
    + constructor; [by constructor|]. constructor; [done|].
      eapply Forall_impl; [exact Hy|]. intros z Hz. simpl in Hz. by eapply less_trans.
    + constructor.
      * apply IH; [|done]. intros z Hz. apply Htot. by right.
      * rewrite sort_insert_perm. constructor; [|done].
        destruct (Htot y) as [?|?]; [by left|congruence|done].
Qed.

Lemma sort_Slice_sorted (l : list A) :
  NoDup l →
  (∀ a b, a ∈ l → b ∈ l → a ≠ b → less a b = true ∨ less b a = true) →
  StronglySorted (λ a b, less a b = true) (sort_Slice less l).
Proof.
  induction l as [|x l IH]; intros Hnd Htot; simpl; [constructor|].
  apply NoDup_cons in Hnd as [Hx Hnd].
  apply sort_insert_sorted.
  - intros y Hy. rewrite sort_Slice_perm in Hy. apply Htot; [by left|by right|].
    by intros ->.
  - apply IH; [done|]. intros a b Ha Hb. apply Htot; by right.
Qed.
End sorted_facts.

Lemma ltb_trans (a b c : string) :
  String.ltb a b = true → String.ltb b c = true → String.ltb a c = true.
Proof.
  unfold String.ltb.
  destruct (String.compare a b) eqn:Hab; try done.
  destruct (String.compare b c) eqn:Hbc; try done. intros _ _.
  apply OrderedTypeEx.String_as_OT.cmp_lt in Hab, Hbc.
  pose proof (OrderedTypeEx.String_as_OT.lt_trans _ _ _ Hab Hbc) as Hac.
  apply OrderedTypeEx.String_as_OT.cmp_lt in Hac.
  unfold OrderedTypeEx.String_as_OT.cmp in Hac. by rewrite Hac.
Qed.

Lemma ltb_total (a b : string) : a ≠ b → String.ltb a b = true ∨ String.ltb b a = true.
Proof.
  intros Hne. unfold String.ltb. rewrite (String.compare_antisym a b).
  destruct (String.compare b a) eqn:Hba; simpl; auto.
  apply String.compare_eq_iff in Hba. congruence.
Qed.

Lemma ltb_asym (a b : string) : String.ltb a b = true → String.ltb b a = true → False.
Proof.
  unfold String.ltb. rewrite (String.compare_antisym a b).
  by destruct (String.compare b a).
Qed.

Section order_facts.
Context {T : Type} `{Countable T}.
Variable fmt : T → string.
Hypothesis fmt_inj : Inj (=) (=) fmt.
Variable d : DAG T.
Hypothesis d_wf : wf d.

Lemma sort_key_inj (a b : loc) :
  owned d a → owned d b → sort_key fmt (heap d) a = sort_key fmt (heap d) b → a = b.
Proof.
  intros [va Ha] [vb Hb]. unfold sort_key.
  pose proof (wf_index _ d_wf _ _ Ha) as Hda. pose proof (wf_index _ d_wf _ _ Hb) as Hdb.
  unfold data_at in Hda, Hdb.
  destruct (heap d !! a) as [na|]; [|done]. destruct (heap d !! b) as [nb|]; [|done].
  simpl in *. intros Heq%fmt_inj. congruence.
Qed.

Lemma sorted_by_key (s : gset loc) (l : list loc) :
  (∀ x, x ∈ s → owned d x) → l ≡ₚ elements s →
  StronglySorted (key_lt fmt (heap d)) (sort_Slice (less fmt (heap d)) l).
Proof.
  intros Hs Hl. apply sort_Slice_sorted.
  - intros a b c. unfold less. apply ltb_trans.
  - rewrite Hl. apply NoDup_elements.
  - intros a b Ha Hb Hne. unfold less. apply ltb_total. intros Heq. apply Hne.
    rewrite Hl in Ha, Hb. apply elem_of_elements in Ha, Hb.
    apply sort_key_inj; auto.
Qed.

Lemma sorted_by_key_unique (l1 l2 : list loc) :
  StronglySorted (key_lt fmt (heap d)) l1 → StronglySorted (key_lt fmt (heap d)) l2 →
  l1 ≡ₚ l2 → l1 = l2.
Proof.
  apply StronglySorted_unique_strong. intros a b _ _. unfold key_lt, less.
  intros H1 H2. by destruct (ltb_asym _ _ H1 H2).
Qed.
End order_facts.

Section order_claims.
Context {T : Type} `{Countable T}.
Variable fmt : T → string.

(** X25: when [fmt.Sprintf] gives different values different texts, the
    slices that [Parents()] and [Children()] return for a node of a reachable
    graph are strictly ascending in that text, and they are the same slices
    whatever order the range statement enumerates the sets in. *)
Theorem Children_sorted_deterministic (o1 o2 : RangeOrder) d n :
  Inj (=) (=) fmt → reachable (order := o1) fmt d → owned d n →
  StronglySorted (key_lt fmt (heap d)) (Children (order := o1) fmt (heap d) n) ∧
  StronglySorted (key_lt fmt (heap d)) (Parents (order := o1) fmt (heap d) n) ∧
  Children (order := o1) fmt (heap d) n = Children (order := o2) fmt (heap d) n ∧
  Parents (order := o1) fmt (heap d) n = Parents (order := o2) fmt (heap d) n.
Proof.
  intros Hinj Hd%reachable_wf Hn.
  assert (∀ x, x ∈ children_at (heap d) n → owned d x) as Hc.
  { intros x Hx. apply (wf_owned _ Hd n); [done|set_solver]. }
  assert (∀ x, x ∈ parents_at (heap d) n → owned d x) as Hp.
  { intros x Hx. apply (wf_owned _ Hd n); [done|set_solver]. }
  assert (∀ (o : RangeOrder) s, (∀ x, x ∈ s → owned d x) →
            StronglySorted (key_lt fmt (heap d))
              (sort_Slice (less fmt (heap d)) (range (RangeOrder := o) s))) as Hsorted.
  { intros o s Hs. apply (sorted_by_key fmt Hinj d Hd s); [done|apply range_perm]. }
  unfold Children, Parents. split_and!.
  - by apply Hsorted.
  - by apply Hsorted.
  - apply (sorted_by_key_unique fmt d); [by apply Hsorted..|].
    by rewrite !sort_Slice_perm, !range_perm.
  - apply (sorted_by_key_unique fmt d); [by apply Hsorted..|].
    by rewrite !sort_Slice_perm, !range_perm.
Qed.
End order_claims.

(** ** Visualize *)

Lemma string_append_cons (a : Ascii.ascii) (s1 s2 : string) :
  (String a s1 +:+ s2 = String a (s1 +:+ s2))%string.
Proof. reflexivity. Qed.

Lemma string_append_assoc (s1 s2 s3 : string) :
  ((s1 +:+ s2) +:+ s3 = s1 +:+ s2 +:+ s3)%string.
Proof.
  induction s1 as [|a s1 IH]; [done|]. by rewrite !string_append_cons, IH.
Qed.

Lemma string_append_nil_r (s : string) : (s +:+ EmptyString = s)%string.
Proof. induction s as [|a s IH]; [done|]. by rewrite string_append_cons, IH. Qed.

Lemma foldr_append_app (l1 l2 : list string) :
  foldr String.append EmptyString (l1 ++ l2)
  = (foldr String.append EmptyString l1 +:+ foldr String.append EmptyString l2)%string.
Proof.
  induction l1 as [|s l1 IH]; cbn [foldr app]; [done|].
  by rewrite IH, string_append_assoc.
Qed.

Lemma foldl_append_lines {C} (g : C → string) (cs : list C) : ∀ result : string,
  foldl (λ result c, result +:+ g c)%string result cs
  = (result +:+ foldr String.append EmptyString (g <$> cs))%string.
Proof.
  induction cs as [|c cs IH]; intros result;
    [rewrite fmap_nil|rewrite fmap_cons]; cbn [foldl foldr].
  - by rewrite string_append_nil_r.
  - by rewrite IH, string_append_assoc.
Qed.

Lemma foldl_append_blocks {B C} (cs : B → list C) (g : B → C → string) (l : list B) :
  ∀ result : string,
  foldl (λ result b, foldl (λ result c, result +:+ g b c)%string result (cs b)) result l
  = (result +:+ foldr String.append EmptyString (l ≫= λ b, g b <$> cs b))%string.
Proof.
  induction l as [|b l IH]; intros result; cbn [foldl].
  - change ([] ≫= λ b, g b <$> cs b) with (@nil string). cbn [foldr].
    by rewrite string_append_nil_r.
  - rewrite IH, foldl_append_lines, bind_cons, foldr_append_app.
    by rewrite string_append_assoc.
Qed.

Lemma fmap_bind_list {A B C} (f : B → C) (g : A → list B) (l : list A) :
  f <$> (l ≫= g) = l ≫= λ a, f <$> g a.
Proof.
  induction l as [|a l IH]; [done|]. by rewrite !bind_cons, fmap_app, IH.
Qed.

Lemma bind_Permutation_ext {A B} (f g : A → list B) (l1 l2 : list A) :
  (∀ a, f a ≡ₚ g a) → l1 ≡ₚ l2 → l1 ≫= f ≡ₚ l2 ≫= g.
Proof.
  intros Hfg Hl. transitivity (l1 ≫= g); [|by rewrite Hl].
  clear Hl. induction l1 as [|a l1 IH]; [done|].
  by rewrite !bind_cons, IH, (Hfg a).
Qed.

Section format_claims.
Context {T : Type} `{Countable T}.
Variable fmt : T → string.

(** The pairs of [Edges] are the same under every enumeration of the index
    and of the child sets; only their order can differ. *)
Lemma Edges_Permutation (order1 order2 : RangeOrder) (index1 index2 : IndexOrder T) d :
  elems (Edges (order := order1) (index_order := index1) fmt d)
  ≡ₚ elems (Edges (order := order2) (index_order := index2) fmt d).
Proof.
  rewrite !Edges_elems. apply bind_Permutation_ext.
  - intros [v n]. simpl. apply fmap_Permutation. unfold Children.
    by rewrite !sort_Slice_perm, !range_perm.
  - by rewrite !index_range_perm.
Qed.

(** X26: [Visualize] returns the header, then one line for every pair of
    [Edges] (in some order: the two functions enumerate the index on their
    own), then the closing brace; in a reachable graph the line of an edge
    shows the texts of the values at its two ends. *)
Theorem Visualize_Edges (order0 order1 order2 : RangeOrder) (index1 index2 : IndexOrder T) d :
  reachable (order := order0) fmt d →
  ∃ es : list (loc * loc),
    es ≡ₚ elems (Edges (order := order2) (index_order := index2) fmt d) ∧
    Visualize (order := order1) (index_order := index1) fmt d
    = ("digraph G {" +:+ newline
       +:+ foldr String.append EmptyString ((λ e, dot_line fmt (heap d) e.1 e.2) <$> es)
       +:+ "}" +:+ newline)%string ∧
    ∀ a b, (a, b) ∈ es →
      ∃ va vb, DAG_Node d va = Some a ∧ DAG_Node d vb = Some b ∧
        dot_line fmt (heap d) a b
        = ("    " +:+ quote +:+ fmt va +:+ quote +:+ " -> "
           +:+ quote +:+ fmt vb +:+ quote +:+ ";" +:+ newline)%string.
Proof.
  intros Hd%reachable_wf.
  exists (elems (Edges (order := order1) (index_order := index1) fmt d)). split_and!.
  - apply Edges_Permutation.
  - unfold Visualize.
    rewrite (foldl_append_blocks
               (λ kv : T * loc, Children (order := order1) fmt (heap d) kv.2)
               (λ kv c, dot_line fmt (heap d) kv.2 c)).
    rewrite Edges_elems, fmap_bind_list.
    assert ((index_range (IndexOrder := index1) (nodes d) ≫= λ a : T * loc,
               (λ e : loc * loc, dot_line fmt (heap d) e.1 e.2)
                 <$> (pair a.2 <$> Children (order := order1) fmt (heap d) a.2))
            = index_range (IndexOrder := index1) (nodes d) ≫= λ b : T * loc,
                (λ c, dot_line fmt (heap d) b.2 c)
                  <$> Children (order := order1) fmt (heap d) b.2) as ->.
    { apply list_bind_ext; [|done]. intros [v n]. simpl.
      by rewrite <- list_fmap_compose. }
    by rewrite !string_append_assoc.
  - intros a b [[va Ha] Hb]%elem_of_Edges.
    assert (owned d b) as [vb Hvb].
    { apply (wf_owned _ Hd a); [by exists va|set_solver]. }
    exists va, vb. split_and!; [done..|]. unfold dot_line, sort_key.
    pose proof (wf_index _ Hd _ _ Ha) as Hda. pose proof (wf_index _ Hd _ _ Hvb) as Hdb.
    unfold data_at in Hda, Hdb.
    destruct (heap d !! a) as [na|]; [|done]. destruct (heap d !! b) as [nb|]; [|done].
    simpl in *. by injection Hda as ->; injection Hdb as ->.
Qed.
End format_claims.

(** ** Clear and the empty graph *)

Section clear_claims.
Context {T : Type} `{Countable T}.
Context {order : RangeOrder} {index_order : IndexOrder T}.
Variable fmt : T → string.

Lemma range_empty : range (∅ : gset loc) = [].
Proof. apply Permutation_nil_r. by rewrite range_perm, elements_empty. Qed.

(** X27: after [Clear] every query answers as for a new graph: [Nodes] is
    empty but not nil, [Edges], [Roots], [Leaves], [LevelOrder] and the
    sequence of [Traverse] are nil, [Visualize] is the empty digraph, no
    value has a node, and no path or edge is found; the nodes themselves are
    not touched, so a node the caller still holds keeps its parents and
    children. *)
Theorem Clear_resets d :
  Nodes (Clear d) = slice_of [] ∧
  Edges fmt (Clear d) = nil_slice ∧
  Roots (Clear d) = nil_slice ∧
  Leaves (Clear d) = nil_slice ∧
  Traverse fmt (Clear d) = Some (nil_slice, nil_error) ∧
  LevelOrder fmt (Clear d) = Some nil_slice ∧
  Visualize fmt (Clear d) = ("digraph G {" +:+ newline +:+ "}" +:+ newline)%string ∧
  (∀ predicate, Search (Clear d) predicate = None) ∧
  (∀ v, DAG_Node (Clear d) v = None ∧
        Ancestors fmt (Clear d) v = Some nil_slice ∧
        Descendants fmt (Clear d) v = Some nil_slice ∧
        Walk fmt (Clear d) v = Some [] ∧
        BreadthFirstWalk fmt (Clear d) v = Some []) ∧
  (∀ a b, HasEdge fmt (Clear d) a b = false ∧
          HasPath fmt (Clear d) a b = Some false ∧
          ShortestPath fmt (Clear d) a b = Some nil_slice) ∧
  (∀ n, parents_at (heap (Clear d)) n = parents_at (heap d) n ∧
        children_at (heap (Clear d)) n = children_at (heap d) n).
Proof.
  assert (inDegree_init (Clear d) = ∅) as Hdeg.
  { unfold inDegree_init. simpl. by rewrite map_to_list_empty. }
  assert (seed_queue (∅ : gmap loc Z) = []) as Hseed.
  { unfold seed_queue. by rewrite dom_empty_L, range_empty. }
  unfold Nodes, Edges, Roots, Leaves, Search, Visualize, Traverse, LevelOrder.
  rewrite Hdeg, Hseed. simpl nodes. rewrite index_range_empty.
  split_and!; done.
Qed.
End clear_claims.

(** ** The further properties on concrete graphs *)

Lemma DAG_Node_g_edge_1 : DAG_Node g_edge 1%Z = Some 1%positive.
Proof. by vm_compute. Qed.

Lemma DAG_Node_g_edge_2 : DAG_Node g_edge 2%Z = Some 2%positive.
Proof. by vm_compute. Qed.

Lemma owned_g_paths_2 : owned g_paths 2.
Proof. exists 2%Z. by vm_compute. Qed.

Lemma AddEdge_g_edge_2_3 : AddEdge fmt_int g_edge 2%Z 3%Z = Some (g_chain, nil_error).
Proof. vm_compute. reflexivity. Qed.

Lemma HasEdge_g_edge_1_2 : HasEdge fmt_int g_edge 1%Z 2%Z = true.
Proof. vm_compute. reflexivity. Qed.

Lemma Search_g_paths_3 : Search g_paths is_node_3 = Some 3%positive.
Proof. vm_compute. reflexivity. Qed.

(** The visit orders asserted by [TestBreadthFirstWalk] on the diamond
    1→2, 1→3, 2→4, 3→4, and the levels asserted by [TestLevelOrder], replayed
    on the embedding with the values 1 to 5 in place of the widgets.  The
    value [i] sits at pointer [i]. *)
Example TestBreadthFirstWalk :
  BreadthFirstWalk fmt_int (graph_of (edges_of [(1, 2); (1, 3); (2, 4); (3, 4)]%Z)) 1%Z
  = Some [1; 2; 3; 4]%Z ∧
  Walk fmt_int (graph_of (edges_of [(1, 2); (1, 3); (2, 4); (3, 4)]%Z)) 1%Z
  = Some [1; 2; 4; 3]%Z ∧
  BreadthFirstWalk fmt_int (graph_of (edges_of [(1, 2); (1, 3); (2, 4); (3, 4)]%Z)) 5%Z
  = Some [].
Proof. by vm_compute. Qed.

Example TestLevelOrder :
  LevelOrder fmt_int (graph_of (edges_of [(1, 2); (1, 3); (2, 4); (3, 4); (4, 5)]%Z))
  = Some (slice_of [[1]; [2; 3]; [4]; [5]]%positive).
Proof. by vm_compute. Qed.

Lemma reachable_acyclic_witness :
  reachable fmt_int g_edge ∧ owned g_edge 2 ∧
  (¬ ancestor_of (heap g_edge) 2 2 ∧ ¬ descendant_of (heap g_edge) 2 2).
Proof.
  split; [exact reachable_g_edge|]. split; [exact owned_g_edge_2|].
  exact (reachable_acyclic fmt_int g_edge 2 reachable_g_edge owned_g_edge_2).
Defined.

Lemma reachable_no_dangling_witness :
  reachable fmt_int g_edge ∧ owned g_edge 2 ∧
  ((1%positive ∈ Parents fmt_int (heap g_edge) 2
    → owned g_edge 1 ∧ 2%positive ∈ Children fmt_int (heap g_edge) 1)
   ∧ (1%positive ∈ Children fmt_int (heap g_edge) 2
      → owned g_edge 1 ∧ 2%positive ∈ Parents fmt_int (heap g_edge) 1)).
Proof.
  split; [exact reachable_g_edge|]. split; [exact owned_g_edge_2|].
  exact (reachable_no_dangling fmt_int g_edge 2 1 reachable_g_edge owned_g_edge_2).
Defined.

Lemma reachable_index_witness :
  reachable fmt_int g_edge ∧ DAG_Node g_edge 2%Z = Some 2%positive ∧
  (Data (heap g_edge) 2 = Some 2%Z
   ∧ ∀ w : Z, DAG_Node g_edge w = Some 2%positive → w = 2%Z).
Proof.
  split; [exact reachable_g_edge|]. split; [exact DAG_Node_g_edge_2|].
  exact (reachable_index fmt_int g_edge 2%Z 2 reachable_g_edge DAG_Node_g_edge_2).
Defined.

Lemma Ancestors_exact_witness :
  reachable fmt_int g_edge ∧ DAG_Node g_edge 2%Z = Some 2%positive ∧
  ∃ s : slice loc,
    Ancestors fmt_int g_edge 2%Z = Some s
    ∧ NoDup (elems s)
    ∧ (∀ x : loc, x ∈ elems s ↔ ancestor_of (heap g_edge) x 2)
    ∧ 2%positive ∉ elems s.
Proof.
  split; [exact reachable_g_edge|]. split; [exact DAG_Node_g_edge_2|].
  exact (Ancestors_exact fmt_int g_edge 2%Z 2 reachable_g_edge DAG_Node_g_edge_2).
Defined.

Lemma Descendants_exact_witness :
  reachable fmt_int g_edge ∧ DAG_Node g_edge 1%Z = Some 1%positive ∧
  ∃ s : slice loc,
    Descendants fmt_int g_edge 1%Z = Some s
    ∧ NoDup (elems s)
    ∧ (∀ x : loc, x ∈ elems s ↔ descendant_of (heap g_edge) x 1)
    ∧ 1%positive ∉ elems s.
Proof.
  split; [exact reachable_g_edge|]. split; [exact DAG_Node_g_edge_1|].
  exact (Descendants_exact fmt_int g_edge 1%Z 1 reachable_g_edge DAG_Node_g_edge_1).
Defined.

Lemma Ancestors_Descendants_dual_witness :
  reachable fmt_int g_edge ∧ DAG_Node g_edge 1%Z = Some 1%positive ∧
  DAG_Node g_edge 2%Z = Some 2%positive ∧
  ∃ sa sb : slice loc,
    Ancestors fmt_int g_edge 2%Z = Some sa
    ∧ Descendants fmt_int g_edge 1%Z = Some sb
    ∧ (1%positive ∈ elems sa ↔ 2%positive ∈ elems sb).
Proof.
  split; [exact reachable_g_edge|]. split; [exact DAG_Node_g_edge_1|].
  split; [exact DAG_Node_g_edge_2|].
  exact (Ancestors_Descendants_dual fmt_int g_edge 1%Z 2%Z 1 2 reachable_g_edge
           DAG_Node_g_edge_1 DAG_Node_g_edge_2).
Defined.

Lemma Walk_visits_witness :
  reachable fmt_int g_paths ∧
  ((DAG_Node g_paths 1%Z = None → Walk fmt_int g_paths 1%Z = Some [])
   ∧ ∀ n : loc,
       DAG_Node g_paths 1%Z = Some n
       → ∃ vs : list Z,
           Walk fmt_int g_paths 1%Z = Some (1%Z :: vs)
           ∧ NoDup (1%Z :: vs)
           ∧ ∀ w : Z,
               w ∈ 1%Z :: vs
               ↔ ∃ m : loc,
                   DAG_Node g_paths w = Some m ∧ rtc (child_step (heap g_paths)) n m).
Proof.
  split; [exact reachable_g_paths|].
  exact (Walk_visits fmt_int g_paths 1%Z reachable_g_paths).
Defined.

Lemma ReverseWalk_visits_witness :
  reachable fmt_int g_paths ∧
  ((DAG_Node g_paths 3%Z = None → ReverseWalk fmt_int g_paths 3%Z = Some [])
   ∧ ∀ n : loc,
       DAG_Node g_paths 3%Z = Some n
       → ∃ vs : list Z,
           ReverseWalk fmt_int g_paths 3%Z = Some (3%Z :: vs)
           ∧ NoDup (3%Z :: vs)
           ∧ ∀ w : Z,
               w ∈ 3%Z :: vs
               ↔ ∃ m : loc,
                   DAG_Node g_paths w = Some m ∧ rtc (parent_step (heap g_paths)) n m).
Proof.
  split; [exact reachable_g_paths|].
  exact (ReverseWalk_visits fmt_int g_paths 3%Z reachable_g_paths).
Defined.

Lemma BreadthFirstWalk_visits_witness :
  reachable fmt_int g_paths ∧
  ((DAG_Node g_paths 1%Z = None → BreadthFirstWalk fmt_int g_paths 1%Z = Some [])
   ∧ ∀ n : loc,
       DAG_Node g_paths 1%Z = Some n
       → ∃ vs : list Z,
           BreadthFirstWalk fmt_int g_paths 1%Z = Some (1%Z :: vs)
           ∧ NoDup (1%Z :: vs)
           ∧ ∀ w : Z,
               w ∈ 1%Z :: vs
               ↔ ∃ m : loc,
                   DAG_Node g_paths w = Some m ∧ rtc (child_step (heap g_paths)) n m).
Proof.
  split; [exact reachable_g_paths|].
  exact (BreadthFirstWalk_visits fmt_int g_paths 1%Z reachable_g_paths).
Defined.

Lemma ReverseBreadthFirstWalk_visits_witness :
  reachable fmt_int g_paths ∧
  ((DAG_Node g_paths 3%Z = None → ReverseBreadthFirstWalk fmt_int g_paths 3%Z = Some [])
   ∧ ∀ n : loc,
       DAG_Node g_paths 3%Z = Some n
       → ∃ vs : list Z,
           ReverseBreadthFirstWalk fmt_int g_paths 3%Z = Some (3%Z :: vs)
           ∧ NoDup (3%Z :: vs)
           ∧ ∀ w : Z,
               w ∈ 3%Z :: vs
               ↔ ∃ m : loc,
                   DAG_Node g_paths w = Some m ∧ rtc (parent_step (heap g_paths)) n m).
Proof.
  split; [exact reachable_g_paths|].
  exact (ReverseBreadthFirstWalk_visits fmt_int g_paths 3%Z reachable_g_paths).
Defined.

Lemma HasPath_correct_witness :
  reachable fmt_int g_paths ∧
  ((DAG_Node g_paths 1%Z = None ∨ DAG_Node g_paths 5%Z = None
    → HasPath fmt_int g_paths 1%Z 5%Z = Some false)
   ∧ ∀ f t : loc,
       DAG_Node g_paths 1%Z = Some f
       → DAG_Node g_paths 5%Z = Some t
       → ∃ b : bool,
           HasPath fmt_int g_paths 1%Z 5%Z = Some b
           ∧ (b = true ↔ ∃ l : list loc, path_to (heap g_paths) f l t)).
Proof.
  split; [exact reachable_g_paths|].
  exact (HasPath_correct fmt_int g_paths 1%Z 5%Z reachable_g_paths).
Defined.

Lemma HasPath_ShortestPath_agree_witness :
  reachable fmt_int g_paths ∧
  ∃ (b : bool) (s : slice loc),
    HasPath fmt_int g_paths 1%Z 5%Z = Some b
    ∧ ShortestPath fmt_int g_paths 1%Z 5%Z = Some s ∧ (b = true ↔ s ≠ nil_slice).
Proof.
  split; [exact reachable_g_paths|].
  exact (HasPath_ShortestPath_agree fmt_int g_paths 1%Z 5%Z reachable_g_paths).
Defined.

Lemma Nodes_exact_witness :
  reachable fmt_int g_paths ∧
  ∃ l : list loc,
    Nodes g_paths = slice_of l
    ∧ NoDup l ∧ (∀ n : loc, n ∈ l ↔ owned g_paths n) ∧ length l = size (nodes g_paths).
Proof.
  split; [exact reachable_g_paths|].
  exact (Nodes_exact fmt_int g_paths reachable_g_paths).
Defined.

Lemma Search_spec_witness :
  Search g_paths is_node_3 = Some 3%positive ∧
  (owned g_paths 3 ∧ is_node_3 3 = true).
Proof.
  split; [exact Search_g_paths_3|].
  exact (proj1 (Search_spec g_paths is_node_3) 3%positive Search_g_paths_3).
Defined.

Lemma Edges_exact_witness :
  reachable fmt_int g_paths ∧
  (NoDup (elems (Edges fmt_int g_paths))
   ∧ (∀ a b : loc,
        (a, b) ∈ elems (Edges fmt_int g_paths)
        ↔ owned g_paths a ∧ b ∈ children_at (heap g_paths) a)
   ∧ (Edges fmt_int g_paths = nil_slice
      ↔ ∀ n : loc, owned g_paths n → children_at (heap g_paths) n = ∅)
   ∧ ∀ from to : Z,
       HasEdge fmt_int g_paths from to = true
       ↔ ∃ f t : loc,
           DAG_Node g_paths from = Some f
           ∧ DAG_Node g_paths to = Some t ∧ (f, t) ∈ elems (Edges fmt_int g_paths)).
Proof.
  split; [exact reachable_g_paths|].
  exact (Edges_exact fmt_int g_paths reachable_g_paths).
Defined.

Lemma Roots_exact_witness :
  reachable fmt_int g_paths ∧
  (NoDup (elems (Roots g_paths))
   ∧ (∀ n : loc,
        n ∈ elems (Roots g_paths) ↔ owned g_paths n ∧ parents_at (heap g_paths) n = ∅)
   ∧ (Roots g_paths = nil_slice ↔ nodes g_paths = ∅)).
Proof.
  split; [exact reachable_g_paths|].
  exact (Roots_exact fmt_int g_paths reachable_g_paths).
Defined.

Lemma Leaves_exact_witness :
  reachable fmt_int g_paths ∧
  (NoDup (elems (Leaves g_paths))
   ∧ (∀ n : loc,
        n ∈ elems (Leaves g_paths) ↔ owned g_paths n ∧ children_at (heap g_paths) n = ∅)
   ∧ (Leaves g_paths = nil_slice ↔ nodes g_paths = ∅)).
Proof.
  split; [exact reachable_g_paths|].
  exact (Leaves_exact fmt_int g_paths reachable_g_paths).
Defined.

Lemma AddEdge_adds_one_edge_witness :
  reachable fmt_int g_edge ∧
  AddEdge fmt_int g_edge 2%Z 3%Z = Some (g_chain, nil_error) ∧
  ((∀ a b : Z,
      HasEdge fmt_int g_chain a b = true
      ↔ HasEdge fmt_int g_edge a b = true ∨ a = 2%Z ∧ b = 3%Z)
   ∧ (∀ (v : Z) (n : loc), DAG_Node g_edge v = Some n → DAG_Node g_chain v = Some n)
   ∧ ∀ v : Z,
       is_Some (DAG_Node g_chain v) ↔ is_Some (DAG_Node g_edge v) ∨ v = 2%Z ∨ v = 3%Z).
Proof.
  split; [exact reachable_g_edge|]. split; [exact AddEdge_g_edge_2_3|].
  exact (AddEdge_adds_one_edge fmt_int g_edge 2%Z 3%Z g_chain reachable_g_edge
           AddEdge_g_edge_2_3).
Defined.

Lemma AddEdge_existing_edge_witness :
  reachable fmt_int g_edge ∧ HasEdge fmt_int g_edge 1%Z 2%Z = true ∧
  AddEdge fmt_int g_edge 1%Z 2%Z = Some (g_edge, nil_error).
Proof.
  split; [exact reachable_g_edge|]. split; [exact HasEdge_g_edge_1_2|].
  exact (AddEdge_existing_edge fmt_int g_edge 1%Z 2%Z reachable_g_edge HasEdge_g_edge_1_2).
Defined.

Lemma AddEdge_cycle_HasPath_witness :
  reachable fmt_int g_edge ∧
  ∃ (d' : DAG Z) (e : error) (b : bool),
    AddEdge fmt_int g_edge 2%Z 1%Z = Some (d', e)
    ∧ HasPath fmt_int g_edge 1%Z 2%Z = Some b
    ∧ (e = ErrCycleDetected ↔ 2%Z = 1%Z ∨ b = true).
Proof.
  split; [exact reachable_g_edge|].
  exact (AddEdge_cycle_HasPath fmt_int g_edge 2%Z 1%Z reachable_g_edge).
Defined.

Lemma RemoveEdge_removes_one_edge_witness :
  reachable fmt_int g_paths ∧
  ((∀ v : Z, DAG_Node (RemoveEdge g_paths 1%Z 2%Z) v = DAG_Node g_paths v)
   ∧ (∀ a b : Z,
        HasEdge fmt_int (RemoveEdge g_paths 1%Z 2%Z) a b = true
        ↔ HasEdge fmt_int g_paths a b = true ∧ ¬ (a = 1%Z ∧ b = 2%Z))
   ∧ (HasEdge fmt_int g_paths 1%Z 2%Z = false → RemoveEdge g_paths 1%Z 2%Z = g_paths)).
Proof.
  split; [exact reachable_g_paths|].
  exact (RemoveEdge_removes_one_edge fmt_int g_paths 1%Z 2%Z reachable_g_paths).
Defined.

Lemma RemoveNode_keeps_rest_witness :
  reachable fmt_int g_paths ∧
  ((∀ w : Z, w ≠ 2%Z → DAG_Node (RemoveNode g_paths 2%Z) w = DAG_Node g_paths w)
   ∧ ∀ a b : Z,
       HasEdge fmt_int (RemoveNode g_paths 2%Z) a b = true
       ↔ HasEdge fmt_int g_paths a b = true ∧ a ≠ 2%Z ∧ b ≠ 2%Z).
Proof.
  split; [exact reachable_g_paths|].
  exact (RemoveNode_keeps_rest fmt_int g_paths 2%Z reachable_g_paths).
Defined.

Lemma RemoveNode_AddNode_fresh_witness :
  reachable fmt_int g_edge ∧ DAG_Node g_edge 2%Z = Some 2%positive ∧
  let r := AddNode (RemoveNode g_edge 2%Z) 2%Z in
  DAG_Node r.1 2%Z = Some r.2
  ∧ r.2 ≠ 2%positive
  ∧ Data (heap r.1) r.2 = Some 2%Z
  ∧ parents_at (heap r.1) r.2 = ∅
  ∧ children_at (heap r.1) r.2 = ∅
  ∧ ∀ w : Z, w ≠ 2%Z → DAG_Node r.1 w = DAG_Node g_edge w.
Proof.
  split; [exact reachable_g_edge|]. split; [exact DAG_Node_g_edge_2|].
  exact (RemoveNode_AddNode_fresh fmt_int g_edge 2%Z 2 reachable_g_edge DAG_Node_g_edge_2).
Defined.

Lemma LevelOrder_levels_witness :
  reachable fmt_int g_paths ∧
  ∃ levels : slice (list loc),
    LevelOrder fmt_int g_paths = Some levels
    ∧ NoDup (concat (elems levels))
    ∧ (∀ n : loc, n ∈ concat (elems levels) ↔ owned g_paths n)
    ∧ (∀ L : list loc, L ∈ elems levels → L ≠ [])
    ∧ (∀ (i : nat) (L : list loc) (n p : loc),
         elems levels !! i = Some L
         → n ∈ L
         → p ∈ parents_at (heap g_paths) n
         → ∃ (j : nat) (L' : list loc),
             j < i ∧ elems levels !! j = Some L' ∧ p ∈ L')
    ∧ (∀ (i : nat) (L : list loc) (n : loc),
         elems levels !! S i = Some L
         → n ∈ L
         → ∃ (L' : list loc) (p : loc),
             elems levels !! i = Some L'
             ∧ p ∈ L' ∧ p ∈ parents_at (heap g_paths) n)
    ∧ (∀ n : loc,
         owned g_paths n
         → parents_at (heap g_paths) n = ∅
         → ∃ L : list loc, elems levels !! 0 = Some L ∧ n ∈ L)
    ∧ (levels = nil_slice ↔ nodes g_paths = ∅).
Proof.
  split; [exact reachable_g_paths|].
  exact (LevelOrder_levels fmt_int g_paths reachable_g_paths).
Defined.

Lemma Children_sorted_deterministic_witness :
  Inj (=) (=) fmt_int ∧ reachable fmt_int g_paths ∧ owned g_paths 2 ∧
  (StronglySorted (key_lt fmt_int (heap g_paths))
     (Children (order := elements_order) fmt_int (heap g_paths) 2)
   ∧ StronglySorted (key_lt fmt_int (heap g_paths))
       (Parents (order := elements_order) fmt_int (heap g_paths) 2)
   ∧ Children (order := elements_order) fmt_int (heap g_paths) 2
     = Children (order := reverse_order) fmt_int (heap g_paths) 2
   ∧ Parents (order := elements_order) fmt_int (heap g_paths) 2
     = Parents (order := reverse_order) fmt_int (heap g_paths) 2).
Proof.
  split; [exact pretty_Z_inj|]. split; [exact reachable_g_paths|].
  split; [exact owned_g_paths_2|].
  exact (Children_sorted_deterministic fmt_int elements_order reverse_order g_paths 2
           pretty_Z_inj reachable_g_paths owned_g_paths_2).
Defined.

Lemma Visualize_Edges_witness :
  reachable fmt_int g_paths ∧
  ∃ es : list (loc * loc),
    es ≡ₚ elems (Edges (order := reverse_order) (index_order := reverse_index_order)
                   fmt_int g_paths) ∧
    Visualize (order := elements_order) (index_order := map_to_list_order) fmt_int g_paths
    = ("digraph G {" +:+ newline
       +:+ foldr String.append EmptyString
             ((λ e : loc * loc, dot_line fmt_int (heap g_paths) e.1 e.2) <$> es)
       +:+ "}" +:+ newline)%string ∧
    ∀ a b : loc, (a, b) ∈ es →
      ∃ va vb : Z, DAG_Node g_paths va = Some a ∧ DAG_Node g_paths vb = Some b ∧
        dot_line fmt_int (heap g_paths) a b
        = ("    " +:+ quote +:+ fmt_int va +:+ quote +:+ " -> "
           +:+ quote +:+ fmt_int vb +:+ quote +:+ ";" +:+ newline)%string.
Proof.
  split; [exact reachable_g_paths|].
  exact (Visualize_Edges fmt_int elements_order elements_order reverse_order
           map_to_list_order reverse_index_order g_paths reachable_g_paths).
Defined.
